(** * World Courier shortest-path finder (9.py): model and verification

    The script parses two HTML tables, builds a [networkx.Graph] whose edges
    are weighted by the haversine distance, and asks networkx for a shortest
    path and its length.

    Modelling choices.
    - A Python [dict] is an association list that keeps insertion order
      (iteration order decides which neighbour is relaxed first).
    - An [nx.Graph] is its adjacency dict-of-dicts [_adj]; the edge attribute
      dict [{'weight': d}] is represented by [d].
    - Weights.  The searches are embedded twice.  Over exact numbers in [Z]
      (a fixed unit), where the additions of the searches do not round: the
      model of the results on which calls return, raise or find a route, and
      on the shape of the graph and of the report.  Over binary64 floats
      ([Module Float64]), as Python computes: the model of the results that
      depend on how the sums round.  [float('inf')] is [Infinity] in the
      first and [infinity] in the second.
    - [heapq] is a list from which [heappop] removes the least entry under
      the tuple order on (distance, counter).
    - The [while] loops run on fuel; [search_fuel] is shown to suffice.
    - The third-party metric [haversine] and Python's [float()] are section
      variables of the parsing and graph-building code.  The metric is taken
      as a total function: the range check of the package, which raises
      [ValueError] for a latitude or longitude out of range, is not
      modelled, so the results on [build_flight_graph] and [main] are about
      the runs in which the metric returns. *)

From Stdlib Require Import Ascii String List ZArith Lia Bool Arith Permutation.
From Stdlib Require Import PrimFloat.
Import ListNotations.
Local Open Scope string_scope.
Local Open Scope Z_scope.
Local Open Scope list_scope.

(** ** Python dictionaries (insertion ordered) *)

Section Dict.
Context {V : Type}.

Definition dict := list (string * V).

Fixpoint dict_get (d : dict) (k : string) : option V :=
  match d with
  | [] => None
  | (k', v) :: d' => if String.eqb k' k then Some v else dict_get d' k
  end.

Definition dict_mem (d : dict) (k : string) : bool :=
  match dict_get d k with Some _ => true | None => false end.

(** [d[k] = v]: an existing key keeps its position, a new key goes last. *)
Fixpoint dict_set (d : dict) (k : string) (v : V) : dict :=
  match d with
  | [] => [(k, v)]
  | (k', v') :: d' =>
      if String.eqb k' k then (k', v) :: d' else (k', v') :: dict_set d' k v
  end.

Definition dict_keys (d : dict) : list string := map fst d.
End Dict.

Arguments dict V : clear implicits.

(** ** Outcomes of a call: a value, a raised exception, or fuel exhausted *)

Inductive exn : Type :=
| NodeNotFound (name : string)
| NetworkXNoPath
| ValueError
| KeyError (key : string)
| UnboundLocalError.

Inductive outcome (A : Type) : Type :=
| Return (a : A)
| Raise (e : exn)
| OutOfFuel.

Arguments Return {A} a.
Arguments Raise {A} e.
Arguments OutOfFuel {A}.

Definition bind {A B} (m : outcome A) (f : A -> outcome B) : outcome B :=
  match m with
  | Return a => f a
  | Raise e => Raise e
  | OutOfFuel => OutOfFuel
  end.

Notation "x <- m ;; k" := (bind m (fun x => k))
  (at level 61, m at next level, right associativity).

(** [for x in xs: st = body(st, x)], stopping at the first exception. *)
Fixpoint for_each {A S} (body : S -> A -> outcome S) (xs : list A) (st : S)
  : outcome S :=
  match xs with
  | [] => Return st
  | x :: xs' => st' <- body st x ;; for_each body xs' st'
  end.

(** ** heapq over (distance, counter, node) tuples *)

Definition entry := (Z * nat * string)%type.
Definition heap := list entry.

(** Tuple order; the counter is unique, so node names are never compared. *)
Definition entry_lt (a b : entry) : bool :=
  let '(d1, c1, _) := a in
  let '(d2, c2, _) := b in
  (d1 <? d2) || ((d1 =? d2) && (c1 <? c2)%nat).

Definition heappush (h : heap) (e : entry) : heap := e :: h.

Fixpoint heappop (h : heap) : option (entry * heap) :=
  match h with
  | [] => None
  | e :: h' =>
      match heappop h' with
      | None => Some (e, [])
      | Some (m, r) => if entry_lt e m then Some (e, h') else Some (m, e :: r)
      end
  end.

(** ** networkx.Graph *)

Definition Graph := dict (dict Z).

Definition has_node (G : Graph) (n : string) : bool := dict_mem G n.

Definition adj (G : Graph) (n : string) : dict Z :=
  match dict_get G n with Some a => a | None => [] end.

Definition has_edge (G : Graph) (u v : string) : bool := dict_mem (adj G u) v.

Definition add_node (G : Graph) (n : string) : Graph :=
  if dict_mem G n then G else dict_set G n [].

(** [G.add_edge(u, v, weight=w)] *)
Definition add_edge (G : Graph) (u v : string) (w : Z) : Graph :=
  let G1 := add_node G u in
  let G2 := add_node G1 v in
  let G3 := dict_set G2 u (dict_set (adj G2 u) v w) in
  dict_set G3 v (dict_set (adj G3 v) u w).

(** [G.degree(n)]: a self-loop counts twice. *)
Definition degree (G : Graph) (n : string) : nat :=
  (length (adj G n) + (if has_edge G n n then 1 else 0))%nat.

Definition number_of_nodes (G : Graph) : nat := length G.

(** [G.number_of_edges()] is [sum(d for _, d in G.degree()) // 2]. *)
Definition number_of_edges (G : Graph) : nat :=
  Nat.div (list_sum (map (degree G) (dict_keys G))) 2.

(** Iterations that the searches below can ever need on [G]. *)
Definition search_fuel (G : Graph) : nat :=
  S (2 * S (list_sum (map (fun kv => S (length (snd kv))) G))).

(** ** networkx: bidirectional_dijkstra *)

Definition sel {A} (p : A * A) (dir : bool) : A := if dir then snd p else fst p.
Definition upd {A} (p : A * A) (dir : bool) (a : A) : A * A :=
  if dir then (fst p, a) else (a, snd p).

Record bistate : Type := mkBi {
  dists : dict Z * dict Z;
  paths : dict (list string) * dict (list string);
  fringe : heap * heap;
  seen : dict Z * dict Z;
  counter : nat;
  finaldist : option Z;
  finalpath : list string }.

(** Body of [for w, d in neighs[dir][v].items()]. *)
Definition bidi_relax (dir : bool) (v : string) (st : bistate)
  (wd : string * Z) : outcome bistate :=
  let '(w, cost) := wd in
  match dict_get (sel (dists st) dir) v with
  | None => Raise (KeyError v)
  | Some dv =>
      let vwLength := dv + cost in
      match dict_get (sel (dists st) dir) w with
      | Some dw => if vwLength <? dw then Raise ValueError else Return st
      | None =>
          if match dict_get (sel (seen st) dir) w with
             | None => true
             | Some sw => vwLength <? sw
             end
          then
            let seen' := upd (seen st) dir
                           (dict_set (sel (seen st) dir) w vwLength) in
            let fringe' := upd (fringe st) dir
                             (heappush (sel (fringe st) dir)
                                (vwLength, counter st, w)) in
            match dict_get (sel (paths st) dir) v with
            | None => Raise (KeyError v)
            | Some pv =>
                let paths' := upd (paths st) dir
                                (dict_set (sel (paths st) dir) w (pv ++ [w])) in
                let st' := mkBi (dists st) paths' fringe' seen'
                             (S (counter st)) (finaldist st) (finalpath st) in
                match dict_get (fst seen') w, dict_get (snd seen') w with
                | Some s0, Some s1 =>
                    let totaldist := s0 + s1 in
                    better <-
                      match finalpath st with
                      | [] => Return true
                      | _ :: _ =>
                          match finaldist st with
                          | None => Raise UnboundLocalError
                          | Some fd => Return (fd >? totaldist)
                          end
                      end ;;
                    if (better : bool) then
                      match dict_get (snd paths') w, dict_get (fst paths') w with
                      | Some p1, Some p0 =>
                          Return (mkBi (dists st) paths' fringe' seen'
                                    (S (counter st)) (Some totaldist)
                                    (p0 ++ tl (rev p1)))
                      | None, _ => Raise (KeyError w)
                      | _, None => Raise (KeyError w)
                      end
                    else Return st'
                | _, _ => Return st'
                end
            end
          else Return st
      end
  end.

(** The [while fringe[0] and fringe[1]] loop; [dir] is the direction of the
    previous iteration ([false] is 0, forward; [true] is 1, backward). *)
Fixpoint bidi_loop (fuel : nat) (G : Graph) (dir : bool) (st : bistate)
  : outcome (Z * list string) :=
  match fuel with
  | O => OutOfFuel
  | S fuel' =>
      match fst (fringe st), snd (fringe st) with
      | [], _ => Raise NetworkXNoPath
      | _, [] => Raise NetworkXNoPath
      | _ :: _, _ :: _ =>
          let dir := negb dir in
          match heappop (sel (fringe st) dir) with
          | None => Raise NetworkXNoPath
          | Some ((dist, _, v), rest) =>
              let st := mkBi (dists st) (paths st) (upd (fringe st) dir rest)
                          (seen st) (counter st) (finaldist st) (finalpath st) in
              if dict_mem (sel (dists st) dir) v then bidi_loop fuel' G dir st
              else
                let st := mkBi (upd (dists st) dir
                                  (dict_set (sel (dists st) dir) v dist))
                            (paths st) (fringe st) (seen st) (counter st)
                            (finaldist st) (finalpath st) in
                if dict_mem (sel (dists st) (negb dir)) v then
                  match finaldist st with
                  | Some fd => Return (fd, finalpath st)
                  | None => Raise UnboundLocalError
                  end
                else
                  match dict_get G v with
                  | None => Raise (KeyError v)
                  | Some nbrs =>
                      st' <- for_each (bidi_relax dir v) nbrs st ;;
                      bidi_loop fuel' G dir st'
                  end
          end
      end
  end.

Definition bidirectional_dijkstra (G : Graph) (source target : string)
  : outcome (Z * list string) :=
  if negb (has_node G source) then Raise (NodeNotFound source)
  else if negb (has_node G target) then Raise (NodeNotFound target)
  else if String.eqb source target then Return (0, [source])
  else
    bidi_loop (search_fuel G) G true
      (mkBi ([], [])
            ([(source, [source])], [(target, [target])])
            (heappush [] (0, 0%nat, source), heappush [] (0, 1%nat, target))
            ([(source, 0)], [(target, 0)])
            2%nat None []).

(** ** networkx: _dijkstra_multisource with one source and a target *)

Record unistate : Type := mkUni {
  udist : dict Z;
  useen : dict Z;
  ufringe : heap;
  ucounter : nat }.

(** Body of [for u, e in G_succ[v].items()] ([cutoff], [pred], [paths] are
    [None] on this call path). *)
Definition uni_relax (v : string) (st : unistate) (ue : string * Z)
  : outcome unistate :=
  let '(u, cost) := ue in
  match dict_get (udist st) v with
  | None => Raise (KeyError v)
  | Some dv =>
      let vu_dist := dv + cost in
      match dict_get (udist st) u with
      | Some u_dist => if vu_dist <? u_dist then Raise ValueError else Return st
      | None =>
          if match dict_get (useen st) u with
             | None => true
             | Some su => vu_dist <? su
             end
          then Return (mkUni (udist st) (dict_set (useen st) u vu_dist)
                         (heappush (ufringe st) (vu_dist, ucounter st, u))
                         (S (ucounter st)))
          else Return st
      end
  end.

Fixpoint uni_loop (fuel : nat) (G : Graph) (target : string) (st : unistate)
  : outcome (dict Z) :=
  match fuel with
  | O => OutOfFuel
  | S fuel' =>
      match heappop (ufringe st) with
      | None => Return (udist st)
      | Some ((d, _, v), rest) =>
          let st := mkUni (udist st) (useen st) rest (ucounter st) in
          if dict_mem (udist st) v then uni_loop fuel' G target st
          else
            let st := mkUni (dict_set (udist st) v d) (useen st) (ufringe st)
                        (ucounter st) in
            if String.eqb v target then Return (udist st)
            else
              match dict_get G v with
              | None => Raise (KeyError v)
              | Some nbrs =>
                  st' <- for_each (uni_relax v) nbrs st ;;
                  uni_loop fuel' G target st'
              end
      end
  end.

Definition _dijkstra (G : Graph) (source target : string) : outcome (dict Z) :=
  uni_loop (search_fuel G) G target
    (mkUni [] [(source, 0)] (heappush [] (0, 0%nat, source)) 1%nat).

Definition dijkstra_path_length (G : Graph) (source target : string)
  : outcome Z :=
  if negb (has_node G source) then Raise (NodeNotFound source)
  else if String.eqb source target then Return 0
  else
    length <- _dijkstra G source target ;;
    match dict_get length target with
    | Some d => Return d
    | None => Raise NetworkXNoPath
    end.

(** [nx.shortest_path(G, source, target, weight='weight')] *)
Definition shortest_path (G : Graph) (source target : string)
  : outcome (list string) :=
  r <- bidirectional_dijkstra G source target ;; Return (snd r).

(** [nx.shortest_path_length(G, source, target, weight='weight')] *)
Definition shortest_path_length (G : Graph) (source target : string)
  : outcome Z :=
  dijkstra_path_length G source target.

(** ** 9.py: find_shortest_path *)

Inductive distance : Type :=
| Finite (d : Z)
| Infinity.

Definition find_shortest_path (G : Graph) (start end_ : string)
  : outcome (list string * distance) :=
  match shortest_path G start end_ with
  | Return path =>
      match shortest_path_length G start end_ with
      | Return d => Return (path, Finite d)
      | Raise NetworkXNoPath => Return ([], Infinity)
      | Raise e => Raise e
      | OutOfFuel => OutOfFuel
      end
  | Raise NetworkXNoPath => Return ([], Infinity)
  | Raise e => Raise e
  | OutOfFuel => OutOfFuel
  end.

(** ** 9.py: parsing and graph building *)

Section Courier.
(** Python floats as parsed from the coordinate cells. *)
Variable pyfloat : Type.
(** [float(text)]; [None] stands for [ValueError]. *)
Variable float_of_text : string -> option pyfloat.
(** [haversine(coord1, coord2, unit=Unit.KILOMETERS)], taken as a total
    function of two coordinate pairs. *)
Variable haversine : pyfloat * pyfloat -> pyfloat * pyfloat -> Z.

Definition coord : Type := pyfloat * pyfloat.

(** A table is the list of its [<tr>] rows, a row the stripped texts of
    its [<td>] cells. *)
Definition table := list (list string).

Definition city_row (coordinates : dict coord) (cells : list string)
  : dict coord :=
  match cells with
  | city :: lat_text :: lon_text :: _ =>
      match float_of_text lat_text with
      | None => coordinates
      | Some lat =>
          match float_of_text lon_text with
          | None => coordinates
          | Some lon => dict_set coordinates city (lat, lon)
          end
      end
  | _ => coordinates
  end.

Definition parse_city_coordinates (rows : table) : dict coord :=
  fold_left city_row rows [].

Definition connection_row (connections : list (string * string))
  (cells : list string) : list (string * string) :=
  match cells with
  | from_city :: to_city :: _ =>
      if negb (String.eqb from_city "") && negb (String.eqb to_city "")
      then connections ++ [(from_city, to_city)]
      else connections
  | _ => connections
  end.

Definition parse_flight_connections (rows : table) : list (string * string) :=
  fold_left connection_row rows [].

(** The entry a coordinate row contributes: at least three cells, the
    second and third accepted by [float()]. *)
Definition row_entry (cells : list string) : option (string * coord) :=
  match cells with
  | city :: lat_text :: lon_text :: _ =>
      match float_of_text lat_text, float_of_text lon_text with
      | Some lat, Some lon => Some (city, (lat, lon))
      | _, _ => None
      end
  | _ => None
  end.

Definition calculate_haversine_distance (coord1 coord2 : coord) : Z :=
  haversine coord1 coord2.

Definition add_connection (coordinates : dict coord) (G : Graph)
  (conn : string * string) : Graph :=
  let '(from_city, to_city) := conn in
  match dict_get coordinates from_city, dict_get coordinates to_city with
  | Some c1, Some c2 =>
      add_edge G from_city to_city (calculate_haversine_distance c1 c2)
  | _, _ => G
  end.

Definition build_flight_graph (coordinates : dict coord)
  (connections : list (string * string)) : Graph :=
  let G := fold_left add_node (dict_keys coordinates) [] in
  fold_left (add_connection coordinates) connections G.
End Courier.

Arguments coord pyfloat : clear implicits.

(** ** 9.py: main *)

Section Report.
Variable pyfloat : Type.
Variable float_of_text : string -> option pyfloat.
Variable haversine : pyfloat * pyfloat -> pyfloat * pyfloat -> Z.

(** What [main] prints, one constructor per [print]: fixed texts as they
    are, interpolated numbers and coordinates as the values themselves (their
    formatting is not modelled). *)
Inductive line : Type :=
| Text (s : string)
| LoadedCities (n : nat)
| LoadedConnections (n : nat)
| NotFoundError (city : string)
| CityCoordinates (city : string) (c : coord pyfloat)
| GraphSize (nodes edges : nat)
| NoPathFound (start_city end_city : string)
| TotalDistance (d : distance)
| NumberOfStops (n : nat)
| Segment (i : nat) (from_city to_city : string) (segment_distance : Z)
| FinalAnswer (result : string).

(** Body of [for i in range(len(path) - 1)], with [i + 1] in [n]. *)
Fixpoint path_details (coordinates : dict (coord pyfloat)) (path : list string)
  (n : nat) : outcome (list line) :=
  match path with
  | from_city :: ((to_city :: _) as rest) =>
      match dict_get coordinates from_city with
      | None => Raise (KeyError from_city)
      | Some c1 =>
          match dict_get coordinates to_city with
          | None => Raise (KeyError to_city)
          | Some c2 =>
              let segment_distance :=
                calculate_haversine_distance pyfloat haversine c1 c2 in
              more <- path_details coordinates rest (S n) ;;
              Return (Segment n from_city to_city segment_distance :: more)
          end
      end
  | _ => Return []
  end.

(** [main] on the rows of the two tables: what it prints and what it
    returns ([None] for a bare [return]). *)
Definition main (city_rows link_rows : list (list string))
  : outcome (list line * option string) :=
  let start_city := "Chicago" in
  let end_city := "Amsterdam" in
  let out :=
    [Text "World Courier Shortest Path Finder";
     Text "========================================";
     Text ("Finding shortest path from " ++ start_city ++ " to " ++ end_city)%string;
     Text "\nParsing city coordinates..."] in
  let coordinates := parse_city_coordinates pyfloat float_of_text city_rows in
  let out := out ++ [LoadedCities (length coordinates);
                     Text "\nParsing flight connections..."] in
  let connections := parse_flight_connections link_rows in
  let out := out ++ [LoadedConnections (length connections)] in
  match dict_get coordinates start_city with
  | None => Return (out ++ [NotFoundError start_city], None)
  | Some start_coord =>
      match dict_get coordinates end_city with
      | None => Return (out ++ [NotFoundError end_city], None)
      | Some end_coord =>
          let out := out ++ [CityCoordinates start_city start_coord;
                             CityCoordinates end_city end_coord;
                             Text "\nBuilding flight network graph..."] in
          let graph := build_flight_graph pyfloat haversine coordinates connections in
          let out := out ++
            [GraphSize (number_of_nodes graph) (number_of_edges graph);
             Text "\nFinding shortest path using Dijkstra's algorithm..."] in
          found <- find_shortest_path graph start_city end_city ;;
          let '(path, total_distance) := found in
          match path with
          | [] => Return (out ++ [NoPathFound start_city end_city], None)
          | _ :: _ =>
              let out := out ++ [Text "\nShortest path found!";
                                 TotalDistance total_distance;
                                 NumberOfStops (length path - 1);
                                 Text "\nPath details:"] in
              details <- path_details coordinates path 1 ;;
              let result := String.concat "," path in
              Return (out ++ details ++ [FinalAnswer result], Some result)
          end
      end
  end.

End Report.

Arguments Text {pyfloat} s.
Arguments LoadedCities {pyfloat} n.
Arguments LoadedConnections {pyfloat} n.
Arguments NotFoundError {pyfloat} city.
Arguments CityCoordinates {pyfloat} city c.
Arguments GraphSize {pyfloat} nodes edges.
Arguments NoPathFound {pyfloat} start_city end_city.
Arguments TotalDistance {pyfloat} d.
Arguments NumberOfStops {pyfloat} n.
Arguments Segment {pyfloat} i from_city to_city segment_distance.
Arguments FinalAnswer {pyfloat} result.

(** ** The searches on Python floats

    networkx adds and compares the weights as it finds them; 9.py stores
    haversine distances, which are Python floats, that is IEEE 754 binary64
    numbers.  The module below is the code of the two searches and of
    [find_shortest_path] once more, with Rocq's primitive binary64 numbers
    for the weights: [+], [<] and [==] are the IEEE operations, [a > b] is
    [b < a], [float('inf')] is [infinity], and the integer [0] that the
    searches start from is the float zero (Python converts it at the first
    addition or comparison with a float). *)

Module Float64.

Definition entry := (float * nat * string)%type.
Definition heap := list entry.

(** Tuple order of Python: the first components are compared with [==],
    and only if they are equal the counters decide. *)
Definition entry_lt (a b : entry) : bool :=
  let '(d1, c1, _) := a in
  let '(d2, c2, _) := b in
  PrimFloat.ltb d1 d2 || (PrimFloat.eqb d1 d2 && (c1 <? c2)%nat).

Definition heappush (h : heap) (e : entry) : heap := e :: h.

Fixpoint heappop (h : heap) : option (entry * heap) :=
  match h with
  | [] => None
  | e :: h' =>
      match heappop h' with
      | None => Some (e, [])
      | Some (m, r) => if entry_lt e m then Some (e, h') else Some (m, e :: r)
      end
  end.

Definition Graph := dict (dict float).

Definition has_node (G : Graph) (n : string) : bool := dict_mem G n.

Definition adj (G : Graph) (n : string) : dict float :=
  match dict_get G n with Some a => a | None => [] end.

Definition has_edge (G : Graph) (u v : string) : bool := dict_mem (adj G u) v.

Definition add_node (G : Graph) (n : string) : Graph :=
  if dict_mem G n then G else dict_set G n [].

Definition add_edge (G : Graph) (u v : string) (w : float) : Graph :=
  let G1 := add_node G u in
  let G2 := add_node G1 v in
  let G3 := dict_set G2 u (dict_set (adj G2 u) v w) in
  dict_set G3 v (dict_set (adj G3 v) u w).

Definition search_fuel (G : Graph) : nat :=
  S (2 * S (list_sum (map (fun kv => S (length (snd kv))) G))).

Record bistate : Type := mkBi {
  dists : dict float * dict float;
  paths : dict (list string) * dict (list string);
  fringe : heap * heap;
  seen : dict float * dict float;
  counter : nat;
  finaldist : option float;
  finalpath : list string }.

Definition bidi_relax (dir : bool) (v : string) (st : bistate)
  (wd : string * float) : outcome bistate :=
  let '(w, cost) := wd in
  match dict_get (sel (dists st) dir) v with
  | None => Raise (KeyError v)
  | Some dv =>
      let vwLength := PrimFloat.add dv cost in
      match dict_get (sel (dists st) dir) w with
      | Some dw =>
          if PrimFloat.ltb vwLength dw then Raise ValueError else Return st
      | None =>
          if match dict_get (sel (seen st) dir) w with
             | None => true
             | Some sw => PrimFloat.ltb vwLength sw
             end
          then
            let seen' := upd (seen st) dir
                           (dict_set (sel (seen st) dir) w vwLength) in
            let fringe' := upd (fringe st) dir
                             (heappush (sel (fringe st) dir)
                                (vwLength, counter st, w)) in
            match dict_get (sel (paths st) dir) v with
            | None => Raise (KeyError v)
            | Some pv =>
                let paths' := upd (paths st) dir
                                (dict_set (sel (paths st) dir) w (pv ++ [w])) in
                let st' := mkBi (dists st) paths' fringe' seen'
                             (S (counter st)) (finaldist st) (finalpath st) in
                match dict_get (fst seen') w, dict_get (snd seen') w with
                | Some s0, Some s1 =>
                    let totaldist := PrimFloat.add s0 s1 in
                    better <-
                      match finalpath st with
                      | [] => Return true
                      | _ :: _ =>
                          match finaldist st with
                          | None => Raise UnboundLocalError
                          | Some fd => Return (PrimFloat.ltb totaldist fd)
                          end
                      end ;;
                    if (better : bool) then
                      match dict_get (snd paths') w, dict_get (fst paths') w with
                      | Some p1, Some p0 =>
                          Return (mkBi (dists st) paths' fringe' seen'
                                    (S (counter st)) (Some totaldist)
                                    (p0 ++ tl (rev p1)))
                      | None, _ => Raise (KeyError w)
                      | _, None => Raise (KeyError w)
                      end
                    else Return st'
                | _, _ => Return st'
                end
            end
          else Return st
      end
  end.

Fixpoint bidi_loop (fuel : nat) (G : Graph) (dir : bool) (st : bistate)
  : outcome (float * list string) :=
  match fuel with
  | O => OutOfFuel
  | S fuel' =>
      match fst (fringe st), snd (fringe st) with
      | [], _ => Raise NetworkXNoPath
      | _, [] => Raise NetworkXNoPath
      | _ :: _, _ :: _ =>
          let dir := negb dir in
          match heappop (sel (fringe st) dir) with
          | None => Raise NetworkXNoPath
          | Some ((dist, _, v), rest) =>
              let st := mkBi (dists st) (paths st) (upd (fringe st) dir rest)
                          (seen st) (counter st) (finaldist st) (finalpath st) in
              if dict_mem (sel (dists st) dir) v then bidi_loop fuel' G dir st
              else
                let st := mkBi (upd (dists st) dir
                                  (dict_set (sel (dists st) dir) v dist))
                            (paths st) (fringe st) (seen st) (counter st)
                            (finaldist st) (finalpath st) in
                if dict_mem (sel (dists st) (negb dir)) v then
                  match finaldist st with
                  | Some fd => Return (fd, finalpath st)
                  | None => Raise UnboundLocalError
                  end
                else
                  match dict_get G v with
                  | None => Raise (KeyError v)
                  | Some nbrs =>
                      st' <- for_each (bidi_relax dir v) nbrs st ;;
                      bidi_loop fuel' G dir st'
                  end
          end
      end
  end.

Definition bidirectional_dijkstra (G : Graph) (source target : string)
  : outcome (float * list string) :=
  if negb (has_node G source) then Raise (NodeNotFound source)
  else if negb (has_node G target) then Raise (NodeNotFound target)
  else if String.eqb source target then Return (PrimFloat.zero, [source])
  else
    bidi_loop (search_fuel G) G true
      (mkBi ([], [])
            ([(source, [source])], [(target, [target])])
            (heappush [] (PrimFloat.zero, 0%nat, source),
             heappush [] (PrimFloat.zero, 1%nat, target))
            ([(source, PrimFloat.zero)], [(target, PrimFloat.zero)])
            2%nat None []).

Record unistate : Type := mkUni {
  udist : dict float;
  useen : dict float;
  ufringe : heap;
  ucounter : nat }.

Definition uni_relax (v : string) (st : unistate) (ue : string * float)
  : outcome unistate :=
  let '(u, cost) := ue in
  match dict_get (udist st) v with
  | None => Raise (KeyError v)
  | Some dv =>
      let vu_dist := PrimFloat.add dv cost in
      match dict_get (udist st) u with
      | Some u_dist =>
          if PrimFloat.ltb vu_dist u_dist then Raise ValueError else Return st
      | None =>
          if match dict_get (useen st) u with
             | None => true
             | Some su => PrimFloat.ltb vu_dist su
             end
          then Return (mkUni (udist st) (dict_set (useen st) u vu_dist)
                         (heappush (ufringe st) (vu_dist, ucounter st, u))
                         (S (ucounter st)))
          else Return st
      end
  end.

Fixpoint uni_loop (fuel : nat) (G : Graph) (target : string) (st : unistate)
  : outcome (dict float) :=
  match fuel with
  | O => OutOfFuel
  | S fuel' =>
      match heappop (ufringe st) with
      | None => Return (udist st)
      | Some ((d, _, v), rest) =>
          let st := mkUni (udist st) (useen st) rest (ucounter st) in
          if dict_mem (udist st) v then uni_loop fuel' G target st
          else
            let st := mkUni (dict_set (udist st) v d) (useen st) (ufringe st)
                        (ucounter st) in
            if String.eqb v target then Return (udist st)
            else
              match dict_get G v with
              | None => Raise (KeyError v)
              | Some nbrs =>
                  st' <- for_each (uni_relax v) nbrs st ;;
                  uni_loop fuel' G target st'
              end
      end
  end.

Definition _dijkstra (G : Graph) (source target : string) : outcome (dict float) :=
  uni_loop (search_fuel G) G target
    (mkUni [] [(source, PrimFloat.zero)]
       (heappush [] (PrimFloat.zero, 0%nat, source)) 1%nat).

Definition dijkstra_path_length (G : Graph) (source target : string)
  : outcome float :=
  if negb (has_node G source) then Raise (NodeNotFound source)
  else if String.eqb source target then Return PrimFloat.zero
  else
    length <- _dijkstra G source target ;;
    match dict_get length target with
    | Some d => Return d
    | None => Raise NetworkXNoPath
    end.

Definition shortest_path (G : Graph) (source target : string)
  : outcome (list string) :=
  r <- bidirectional_dijkstra G source target ;; Return (snd r).

Definition shortest_path_length (G : Graph) (source target : string)
  : outcome float :=
  dijkstra_path_length G source target.

Definition find_shortest_path (G : Graph) (start end_ : string)
  : outcome (list string * float) :=
  match shortest_path G start end_ with
  | Return path =>
      match shortest_path_length G start end_ with
      | Return d => Return (path, d)
      | Raise NetworkXNoPath => Return ([], PrimFloat.infinity)
      | Raise e => Raise e
      | OutOfFuel => OutOfFuel
      end
  | Raise NetworkXNoPath => Return ([], PrimFloat.infinity)
  | Raise e => Raise e
  | OutOfFuel => OutOfFuel
  end.

(** The sum of the edge weights along [p], recomputed edge by edge from
    the graph: [total = 0; for u, v in zip(p, p[1:]): total += G[u][v]]. *)
Fixpoint path_sum (G : Graph) (total : float) (p : list string) : option float :=
  match p with
  | u :: ((v :: _) as p') =>
      match dict_get (adj G u) v with
      | Some w => path_sum G (PrimFloat.add total w) p'
      | None => None
      end
  | _ => Some total
  end.

Definition path_weight (G : Graph) (p : list string) : option float :=
  path_sum G PrimFloat.zero p.

(** Every consecutive pair of [p] is an edge of [G]. *)
Fixpoint edges_in (G : Graph) (p : list string) : bool :=
  match p with
  | u :: ((v :: _) as p') => has_edge G u v && edges_in G p'
  | _ => true
  end.

End Float64.

(** ** Sample data used by the examples *)

(** Stand-ins for the section variables in the examples: a [float()] that
    reads integer literals, and the taxicab metric. *)
Fixpoint digits_value (s : string) (acc : Z) : option Z :=
  match s with
  | EmptyString => Some acc
  | String c s' =>
      let n := Z.of_nat (Ascii.nat_of_ascii c) in
      if (48 <=? n) && (n <=? 57) then digits_value s' (10 * acc + (n - 48))
      else None
  end.

Definition sample_float (s : string) : option Z :=
  match s with
  | EmptyString => None
  | String c s' =>
      if Ascii.eqb c "-"%char
      then match s' with
           | EmptyString => None
           | _ => option_map Z.opp (digits_value s' 0)
           end
      else digits_value s 0
  end.

Definition taxicab (a b : Z * Z) : Z :=
  Z.abs (fst a - fst b) + Z.abs (snd a - snd b).

Definition sample_coords : dict (Z * Z) :=
  [("A", (0, 0)); ("B", (0, 1)); ("C", (0, 2)); ("D", (5, 5)); ("E", (1, 1))].

Definition sample_links : list (string * string) :=
  [("A", "B"); ("B", "C"); ("B", "A"); ("A", "E"); ("E", "C"); ("A", "Z")].

Definition sample_graph : Graph :=
  build_flight_graph Z taxicab sample_coords sample_links.

(** A diamond with two shortest routes from "A" to "C", and the state of
    the search for them after both first iterations, with the forward fringe
    [F0] left open: "B" and "E" tie at distance 1. *)
Definition tie_graph : Graph :=
  build_flight_graph Z taxicab
    [("A", (0, 0)); ("B", (0, 1)); ("E", (1, 0)); ("C", (1, 1))]
    [("A", "B"); ("A", "E"); ("B", "C"); ("E", "C")].

Definition tie_state (F0 : heap) : bistate :=
  mkBi ([("A", 0)], [("C", 0)])
       ([("A", ["A"]); ("B", ["A"; "B"]); ("E", ["A"; "E"])],
        [("C", ["C"]); ("B", ["C"; "B"]); ("E", ["C"; "E"])])
       (F0, [(1, 5%nat, "E"); (1, 4%nat, "B")])
       ([("A", 0); ("B", 1); ("E", 1)], [("C", 0); ("B", 1); ("E", 1)])
       6%nat (Some 2) ["A"; "B"; "C"].

Definition sample_city_table : list (list string) :=
  [["City"; "Lat"; "Lon"]; ["A"; "0"; "0"]; ["B"; "0"; "x1"]; ["A"; "3"; "4"];
   ["C"; "7"]; ["B"; "0"; "1"]].

Definition sample_link_table : list (list string) :=
  [["A"; "B"]; ["B"]; [""; "C"]; ["B"; "A"; "daily"]].

(** Tables for a run of [main]: two routes from Chicago to Amsterdam, an
    unreachable city, a header row and a row that does not parse. *)
Definition route_city_table : list (list string) :=
  [[]; ["Chicago"; "0"; "0"]; ["London"; "0"; "5"]; ["Amsterdam"; "1"; "6"];
   ["Paris"; "2"; "5"]; ["Oslo"; "9"; "9"]; ["Rome"; "n/a"; "3"]].

Definition route_link_table : list (list string) :=
  [[]; ["Chicago"; "London"]; ["London"; "Amsterdam"]; ["Chicago"; "Paris"];
   ["Paris"; "Amsterdam"]; ["Rome"; "Oslo"]; ["London"; "Chicago"]].

(** What [main] prints on the two route tables with the stand-ins. *)
Definition route_report : list (line Z) :=
  [Text "World Courier Shortest Path Finder";
   Text "========================================";
   Text "Finding shortest path from Chicago to Amsterdam";
   Text "\nParsing city coordinates..."; LoadedCities 5;
   Text "\nParsing flight connections..."; LoadedConnections 6;
   CityCoordinates "Chicago" (0, 0); CityCoordinates "Amsterdam" (1, 6);
   Text "\nBuilding flight network graph..."; GraphSize 5 4;
   Text "\nFinding shortest path using Dijkstra's algorithm...";
   Text "\nShortest path found!"; TotalDistance (Finite 7);
   NumberOfStops 2; Text "\nPath details:";
   Segment 1 "Chicago" "London" 5; Segment 2 "London" "Amsterdam" 2;
   FinalAnswer "Chicago,London,Amsterdam"].


(** The two routes of [two_routes] below with binary64 weights. *)
Definition float_two_routes (a b c : float) : Float64.Graph :=
  fold_left
    (fun G (e : string * string * float) =>
       Float64.add_edge G (fst (fst e)) (snd (fst e)) (snd e))
    [("S", "X", a); ("S", "Y", a); ("X", "M", b); ("Y", "N", b);
     ("M", "T", c); ("N", "T", c)] [].

Definition float_two_routes_mirrored (a b c : float) : Float64.Graph :=
  fold_left
    (fun G (e : string * string * float) =>
       Float64.add_edge G (fst (fst e)) (snd (fst e)) (snd e))
    [("S", "Y", a); ("S", "X", a); ("Y", "N", b); ("X", "M", b);
     ("N", "T", c); ("M", "T", c)] [].

(** The graph that a list of weighted connections builds, edge by edge in
    the order of the list. *)
Definition weighted_graph (edges : list (string * string * Z)) : Graph :=
  fold_left (fun G e => add_edge G (fst (fst e)) (snd (fst e)) (snd e)) edges [].

(** Two routes of three legs from "S" to "T", over "X" and "M" and over "Y"
    and "N", whose legs weigh [a], [b] and [c] on both routes.  In
    [two_routes] each leg of the route over "X" is inserted before the
    matching leg of the route over "Y", in [two_routes_mirrored] after it. *)
Definition two_routes (a b c : Z) : Graph :=
  weighted_graph
    [("S", "X", a); ("S", "Y", a); ("X", "M", b); ("Y", "N", b);
     ("M", "T", c); ("N", "T", c)].

Definition two_routes_mirrored (a b c : Z) : Graph :=
  weighted_graph
    [("S", "Y", a); ("S", "X", a); ("Y", "N", b); ("X", "M", b);
     ("N", "T", c); ("M", "T", c)].

(** Least weight of a walk from "S" to a node of the two routes. *)
Definition two_routes_rank (a b c : Z) (n : string) : Z :=
  if String.eqb n "S" then 0
  else if String.eqb n "X" || String.eqb n "Y" then a
  else if String.eqb n "M" || String.eqb n "N" then a + b
  else a + b + c.

(** ** Specification vocabulary *)

(** [walk G src p v W]: [p] lists the nodes of a walk from [src] to [v]
    whose edge weights add up to [W]. *)
Inductive walk (G : Graph) (src : string) : list string -> string -> Z -> Prop :=
| walk_start : has_node G src = true -> walk G src [src] src 0
| walk_snoc p x v W c :
    walk G src p x W ->
    dict_get (adj G x) v = Some c ->
    walk G src (p ++ [v]) v (W + c).

Definition connected (G : Graph) (u v : string) : Prop :=
  exists p W, walk G u p v W.

(** Sum of the edge weights along a path, looked up edge by edge. *)
Fixpoint path_weight (G : Graph) (p : list string) : option Z :=
  match p with
  | [] => None
  | [_] => Some 0
  | u :: ((v :: _) as p') =>
      match dict_get (adj G u) v, path_weight G p' with
      | Some w, Some r => Some (w + r)
      | _, _ => None
      end
  end.

(** Every consecutive pair of [p] is an edge of [G]. *)
Fixpoint edges_in (G : Graph) (p : list string) : bool :=
  match p with
  | u :: ((v :: _) as p') => has_edge G u v && edges_in G p'
  | _ => true
  end.

(** What every [nx.Graph] with non-negative weights satisfies. *)
Record wf_graph (G : Graph) : Prop := {
  wf_nodes : NoDup (dict_keys G);
  wf_nodup : forall u, NoDup (dict_keys (adj G u));
  wf_closed : forall u v c, dict_get (adj G u) v = Some c -> has_node G v = true;
  wf_sym : forall u v c,
      dict_get (adj G u) v = Some c -> dict_get (adj G v) u = Some c;
  wf_nonneg : forall u v c, dict_get (adj G u) v = Some c -> 0 <= c }.

Fixpoint nodupb (l : list string) : bool :=
  match l with
  | [] => true
  | x :: l' => negb (existsb (String.eqb x) l') && nodupb l'
  end.

(** Executable check of [wf_graph]. *)
Definition wf_graphb (G : Graph) : bool :=
  nodupb (dict_keys G) &&
  forallb (fun un : string * dict Z =>
             nodupb (dict_keys (snd un)) &&
             forallb (fun vc : string * Z =>
                        (0 <=? snd vc) && has_node G (fst vc) &&
                        match dict_get (adj G (fst vc)) (fst un) with
                        | Some c' => c' =? snd vc
                        | None => false
                        end) (snd un)) G.

Definition key_le (a b : entry) : Prop := fst (fst a) <= fst (fst b).

(** Invariant of one Dijkstra search from [src]: [D] holds the final
    distances, [S] the tentative ones, [F] is the fringe; [v] is the node
    being expanded and [pending] its neighbours still to relax. *)
Record search_inv (G : Graph) (src v : string) (pending : dict Z)
  (D S : dict Z) (F : heap) : Prop := {
  si_src : dict_get S src = Some 0;
  si_dist_seen : forall u d, dict_get D u = Some d -> dict_get S u = Some d;
  si_seen_walk : forall u d,
      dict_get S u = Some d -> exists p, walk G src p u d;
  si_seen_fringe : forall u d,
      dict_get S u = Some d -> dict_get D u = None -> exists c, In (d, c, u) F;
  si_fringe_seen : forall d c u,
      In (d, c, u) F -> exists d', dict_get S u = Some d' /\ d' <= d;
  si_fringe_ge : forall d c x u du,
      In (d, c, x) F -> dict_get D u = Some du -> du <= d;
  si_relaxed : forall u du w cost,
      dict_get D u = Some du -> dict_get (adj G u) w = Some cost ->
      (u = v /\ In (w, cost) pending) \/
      exists dw, dict_get S w = Some dw /\ dw <= du + cost }.

(** Nodes of [G] not yet settled in [D], weighted by their adjacency size:
    the part of the termination measure that pays for future pushes. *)
Definition unsettled (G : Graph) (D : dict Z) : nat :=
  list_sum (map (fun kv : string * dict Z =>
                   if dict_mem D (fst kv) then 0%nat else S (length (snd kv))) G).

(** The entry-wise form of the degree sum. *)
Definition deg_entry (ka : string * dict Z) : nat :=
  (length (snd ka) + (if dict_mem (snd ka) (fst ka) then 1 else 0))%nat.

Definition total_degree (G : Graph) : nat := list_sum (map deg_entry G).

(** Two connections name the same undirected link. *)
Definition same_link (a b : string * string) : bool :=
  (String.eqb (fst a) (fst b) && String.eqb (snd a) (snd b)) ||
  (String.eqb (fst a) (snd b) && String.eqb (snd a) (fst b)).

(** The connections of [cs] that do not repeat, in either orientation, a
    link of [seen] or an earlier connection of [cs]. *)
Fixpoint distinct_links (seen cs : list (string * string))
  : list (string * string) :=
  match cs with
  | [] => []
  | c :: cs' =>
      if existsb (same_link c) seen then distinct_links seen cs'
      else c :: distinct_links (c :: seen) cs'
  end.

(** The connections whose two endpoints have coordinates. *)
Definition known_links {C : Type} (coordinates : dict C)
  (cs : list (string * string)) : list (string * string) :=
  filter (fun c => dict_mem coordinates (fst c) && dict_mem coordinates (snd c)) cs.

(** The edge count as the specification words it: known connections minus
    self-loops and duplicates. *)
Definition spec_edge_count {C : Type} (coordinates : dict C)
  (cs : list (string * string)) : nat :=
  length (distinct_links []
            (filter (fun c => negb (String.eqb (fst c) (snd c)))
               (known_links coordinates cs))).

(** Source of the search in direction [dir] (0 from [s], 1 from [t]). *)
Definition src_of (s t : string) (dir : bool) : string := if dir then t else s.

(** Invariant of the bidirectional search while direction [dirv] expands
    [v] with neighbours [pend] still to relax. *)
Record bidi_inv (G : Graph) (s t v : string) (dirv : bool) (pend : dict Z)
  (st : bistate) : Prop := {
  bi_search : forall dir,
      search_inv G (src_of s t dir) v (if Bool.eqb dir dirv then pend else [])
        (sel (dists st) dir) (sel (seen st) dir) (sel (fringe st) dir);
  bi_paths : forall dir u d,
      dict_get (sel (seen st) dir) u = Some d ->
      exists p, dict_get (sel (paths st) dir) u = Some p /\
                walk G (src_of s t dir) p u d;
  bi_mu : forall w a b,
      dict_get (fst (seen st)) w = Some a ->
      dict_get (snd (seen st)) w = Some b ->
      exists m, finaldist st = Some m /\ m <= a + b;
  bi_final : forall m, finaldist st = Some m -> walk G s (finalpath st) t m;
  bi_final_none : finaldist st = None -> finalpath st = [] }.

(** What holds between iterations only: no node is settled in both
    directions, and the first two iterations settle [s] and [t]. *)
Definition bidi_head (s t : string) (dir : bool) (st : bistate) : Prop :=
  (forall u, dict_mem (fst (dists st)) u = true ->
             dict_mem (snd (dists st)) u = true -> False) /\
  ((dir = true /\ fst (dists st) = [] /\ snd (dists st) = [] /\
    fst (fringe st) = [(0, 0%nat, s)] /\ snd (fringe st) = [(0, 1%nat, t)]) \/
   (dir = false /\ fst (dists st) = [(s, 0)] /\ snd (dists st) = [] /\
    snd (fringe st) = [(0, 1%nat, t)]) \/
   (dict_mem (fst (dists st)) s = true /\ dict_mem (snd (dists st)) t = true)).

(** Termination measure of the bidirectional loop. *)
Definition bidi_measure (G : Graph) (st : bistate) : nat :=
  (length (fst (fringe st)) + length (snd (fringe st)) +
   unsettled G (fst (dists st)) + unsettled G (snd (dists st)))%nat.

(** Counters of the entries of a heap: all issued before [c], none twice. *)
Definition counters (h : heap) : list nat := map (fun e : entry => snd (fst e)) h.

Definition fresh_heap (c : nat) (h : heap) : Prop :=
  NoDup (counters h) /\ forall x, In x (counters h) -> (x < c)%nat.

Definition fresh_state (st : bistate) : Prop :=
  fresh_heap (counter st) (fst (fringe st)) /\
  fresh_heap (counter st) (snd (fringe st)).

(** Two search states that differ only in how each fringe is laid out. *)
Definition same_up_to_layout (st st' : bistate) : Prop :=
  dists st = dists st' /\ paths st = paths st' /\ seen st = seen st' /\
  counter st = counter st' /\ finaldist st = finaldist st' /\
  finalpath st = finalpath st' /\
  Permutation (fst (fringe st)) (fst (fringe st')) /\
  Permutation (snd (fringe st)) (snd (fringe st')).

Definition outcome_rel {A} (R : A -> A -> Prop) (o o' : outcome A) : Prop :=
  match o, o' with
  | Return a, Return b => R a b
  | Raise e, Raise e' => e = e'
  | OutOfFuel, OutOfFuel => True
  | _, _ => False
  end.

(** No node is settled in both directions. *)
Definition dists_disjoint (st : bistate) : Prop :=
  forall u, dict_mem (fst (dists st)) u = true ->
            dict_mem (snd (dists st)) u = true -> False.

(** Every recorded path ends in its node, repeats no node, and runs through
    settled nodes before its end; the best meeting path repeats no node. *)
Definition simple_paths (st : bistate) : Prop :=
  (forall dir u p,
      dict_get (sel (paths st) dir) u = Some p ->
      exists q, p = q ++ [u] /\ NoDup p /\
                forall x, In x q -> dict_mem (sel (dists st) dir) x = true) /\
  NoDup (finalpath st).

(** [float_walk G src p v W]: [p] lists the nodes of a walk from [src] to
    [v], and [W] is what adding its edge weights one after the other, from
    [src] on, gives in floating point. *)
Inductive float_walk (G : Float64.Graph) (src : string)
  : list string -> string -> float -> Prop :=
| float_walk_start : float_walk G src [src] src PrimFloat.zero
| float_walk_snoc p x v W c :
    float_walk G src p x W ->
    dict_get (Float64.adj G x) v = Some c ->
    float_walk G src (p ++ [v]) v (PrimFloat.add W c).





(** ** Dictionaries *)

Section DictFacts.
Context {V : Type}.
Implicit Types (d : dict V) (k : string) (v : V).

Lemma dict_get_set_eq d k v : dict_get (dict_set d k v) k = Some v.
Proof.
  induction d as [|[k' v'] d IH]; simpl.
  - now rewrite String.eqb_refl.
  - destruct (String.eqb k' k) eqn:E; simpl; rewrite E; auto.
Qed.

Lemma dict_get_set_ne d k k' v :
  k <> k' -> dict_get (dict_set d k v) k' = dict_get d k'.
Proof.
  intros Hne. induction d as [|[k0 v0] d IH]; simpl.
  - destruct (String.eqb k k') eqn:E; auto.
    apply String.eqb_eq in E. contradiction.
  - destruct (String.eqb k0 k) eqn:E; simpl.
    + apply String.eqb_eq in E. subst k0.
      destruct (String.eqb k k') eqn:E'; auto.
      apply String.eqb_eq in E'. contradiction.
    + now rewrite IH.
Qed.

Lemma dict_get_set d k k' v :
  dict_get (dict_set d k v) k' =
  if String.eqb k k' then Some v else dict_get d k'.
Proof.
  destruct (String.eqb k k') eqn:E.
  - apply String.eqb_eq in E. subst. apply dict_get_set_eq.
  - apply String.eqb_neq in E. now apply dict_get_set_ne.
Qed.

Lemma dict_mem_set d k k' v :
  dict_mem (dict_set d k v) k' = String.eqb k k' || dict_mem d k'.
Proof.
  unfold dict_mem. rewrite dict_get_set.
  destruct (String.eqb k k'); auto.
Qed.

Lemma dict_mem_true d k : dict_mem d k = true <-> exists v, dict_get d k = Some v.
Proof.
  unfold dict_mem. destruct (dict_get d k); split; intros H; eauto.
  - discriminate.
  - destruct H; discriminate.
Qed.

Lemma dict_mem_false d k : dict_mem d k = false <-> dict_get d k = None.
Proof.
  unfold dict_mem. destruct (dict_get d k); split; intros H; auto; discriminate.
Qed.

Lemma dict_get_In d k v : dict_get d k = Some v -> In (k, v) d.
Proof.
  induction d as [|[k' v'] d IH]; simpl; [discriminate|].
  destruct (String.eqb k' k) eqn:E.
  - apply String.eqb_eq in E. intros [= ->]. subst. now left.
  - intros H. right. auto.
Qed.

Lemma dict_get_keys d k : dict_mem d k = true <-> In k (dict_keys d).
Proof.
  unfold dict_mem, dict_keys.
  induction d as [|[k' v'] d IH]; simpl.
  - split; [discriminate | tauto].
  - destruct (String.eqb k' k) eqn:E.
    + apply String.eqb_eq in E. split; auto.
    + apply String.eqb_neq in E. rewrite IH. split; [tauto|].
      intros [H|H]; [contradiction|assumption].
Qed.

Lemma In_dict_get d k v :
  NoDup (dict_keys d) -> In (k, v) d -> dict_get d k = Some v.
Proof.
  unfold dict_keys.
  induction d as [|[k' v'] d IH]; simpl; [tauto|].
  intros Hnd [H|H].
  - injection H as -> ->. now rewrite String.eqb_refl.
  - inversion Hnd as [|? ? Hnotin Hnd']; subst.
    destruct (String.eqb k' k) eqn:E.
    + apply String.eqb_eq in E. subst k'.
      exfalso. apply Hnotin. change k with (fst (k, v)). now apply in_map.
    + auto.
Qed.

Lemma dict_keys_set d k v :
  dict_keys (dict_set d k v) =
  if dict_mem d k then dict_keys d else dict_keys d ++ [k].
Proof.
  unfold dict_mem, dict_keys.
  induction d as [|[k' v'] d IH]; simpl; auto.
  destruct (String.eqb k' k) eqn:E; simpl; auto.
  rewrite IH. destruct (dict_get d k); auto.
Qed.

Lemma dict_set_nodup d k v :
  NoDup (dict_keys d) -> NoDup (dict_keys (dict_set d k v)).
Proof.
  intros H. rewrite dict_keys_set.
  destruct (dict_mem d k) eqn:E; auto.
  apply NoDup_app; auto.
  - constructor; [simpl; tauto | constructor].
  - intros x Hx [<-|[]].
    apply dict_get_keys in Hx. congruence.
Qed.

Lemma dict_set_length d k v :
  length (dict_set d k v) =
  if dict_mem d k then length d else S (length d).
Proof.
  unfold dict_mem.
  induction d as [|[k' v'] d IH]; simpl; auto.
  destruct (String.eqb k' k) eqn:E; simpl; auto.
  rewrite IH. destruct (dict_get d k); auto.
Qed.
End DictFacts.

(** ** heapq *)

Lemma heappop_none h : heappop h = None <-> h = [].
Proof.
  destruct h as [|e h]; simpl; [tauto|].
  split; [|discriminate].
  destruct (heappop h) as [[m r]|]; [destruct (entry_lt e m)|]; discriminate.
Qed.

Lemma heappop_spec h e r :
  heappop h = Some (e, r) ->
  Permutation h (e :: r) /\ forall x, In x h -> key_le e x.
Proof.
  revert e r. induction h as [|a h IH]; simpl; [discriminate|].
  intros e r. destruct (heappop h) as [[m r']|] eqn:E.
  - destruct (IH _ _ eq_refl) as [Hp Hmin].
    destruct (entry_lt a m) eqn:Hlt; intros [= <- <-].
    + split; [reflexivity|].
      assert (Ham : key_le a m).
      { unfold key_le. destruct a as [[d1 c1] n1], m as [[d2 c2] n2]. simpl in *.
        apply orb_true_iff in Hlt as [H|H]; [lia|].
        apply andb_true_iff in H as [H _]. lia. }
      intros x [<-|Hx]; [unfold key_le; lia|].
      specialize (Hmin _ Hx). unfold key_le in *. lia.
    + split.
      * rewrite Hp. apply perm_swap.
      * assert (Hma : key_le m a).
        { unfold key_le. destruct a as [[d1 c1] n1], m as [[d2 c2] n2]. simpl in *.
          apply orb_false_iff in Hlt as [H _]. lia. }
        intros x [<-|Hx]; auto.
  - apply heappop_none in E. subst h. intros [= <- <-]. split; [reflexivity|].
    intros x [<-|[]]. unfold key_le. lia.
Qed.

(** ** Walks *)

Section Walks.
Variable G : Graph.
Hypothesis Hwf : wf_graph G.

Lemma walk_src_node s p v W : walk G s p v W -> has_node G s = true.
Proof. induction 1; auto. Qed.

Lemma walk_node s p v W : walk G s p v W -> has_node G v = true.
Proof.
  induction 1; auto. eapply wf_closed; eauto.
Qed.

Lemma walk_nonneg s p v W : walk G s p v W -> 0 <= W.
Proof.
  induction 1; [lia|].
  pose proof (wf_nonneg G Hwf _ _ _ H0). lia.
Qed.

Lemma walk_last s p v W : walk G s p v W -> exists q, p = q ++ [v].
Proof.
  destruct 1; [exists []; reflexivity | eexists; reflexivity].
Qed.

Lemma walk_cons u x c p v W :
  dict_get (adj G u) x = Some c -> has_node G u = true ->
  walk G x p v W -> walk G u (u :: p) v (c + W).
Proof.
  intros He Hu Hw. induction Hw.
  - replace (c + 0) with (0 + c) by lia.
    change [u; x] with ([u] ++ [x]).
    eapply walk_snoc; eauto. now constructor.
  - replace (c + (W + c0)) with ((c + W) + c0) by lia.
    change (u :: p ++ [v]) with ((u :: p) ++ [v]).
    eapply walk_snoc; eauto.
Qed.

Lemma walk_rev s p v W : walk G s p v W -> walk G v (rev p) s W.
Proof.
  induction 1 as [Hs | p x v W c Hw IH He].
  - simpl. now constructor.
  - rewrite rev_app_distr. simpl.
    replace (W + c) with (c + W) by lia.
    apply walk_cons with (x := x); auto.
    + eapply wf_sym; eauto.
    + eapply wf_closed; eauto.
Qed.

(** Joining a forward walk to [w] with the reverse of a backward walk to
    [w], as [paths[0][w] + revpath[1:]] does. *)
Lemma walk_join t p1 w b :
  walk G t p1 w b ->
  forall s p0 a, walk G s p0 w a ->
  walk G s (p0 ++ tl (rev p1)) t (a + b).
Proof.
  induction 1 as [Ht | q x w W c Hw IH He]; intros s p0 a H0.
  - simpl. rewrite app_nil_r. now replace (a + 0) with a by lia.
  - rewrite rev_app_distr. simpl.
    destruct (walk_last _ _ _ _ Hw) as [q' ->].
    assert (Hx : walk G s (p0 ++ [x]) x (a + c)).
    { eapply walk_snoc; eauto. eapply wf_sym; eauto. }
    specialize (IH _ _ _ Hx).
    rewrite rev_app_distr in IH |- *. simpl in IH |- *.
    rewrite <- app_assoc in IH. simpl in IH.
    replace (a + (W + c)) with (a + c + W) by lia. exact IH.
Qed.

Lemma path_weight_snoc q x v c W :
  path_weight G (q ++ [x]) = Some W ->
  dict_get (adj G x) v = Some c ->
  path_weight G ((q ++ [x]) ++ [v]) = Some (W + c).
Proof.
  revert W. induction q as [|a q IH]; intros W.
  - simpl. intros [= <-] ->. f_equal. lia.
  - rewrite <- !app_comm_cons.
    destruct (q ++ [x]) as [|b l] eqn:E.
    + destruct q; discriminate.
    + change ((a :: b :: l) ++ [v]) with (a :: (b :: l) ++ [v]).
      change (path_weight G (a :: b :: l)) with
        (match dict_get (adj G a) b, path_weight G (b :: l) with
         | Some w, Some r => Some (w + r)
         | _, _ => None
         end).
      change (path_weight G (a :: (b :: l) ++ [v])) with
        (match dict_get (adj G a) b, path_weight G ((b :: l) ++ [v]) with
         | Some w, Some r => Some (w + r)
         | _, _ => None
         end).
      destruct (dict_get (adj G a) b) as [wab|]; [|discriminate].
      destruct (path_weight G (b :: l)) as [r|] eqn:Er; [|discriminate].
      intros [= <-] He.
      rewrite (IH r eq_refl He).
      f_equal. lia.
Qed.

Lemma edges_in_snoc q x v :
  edges_in G (q ++ [x]) = true -> has_edge G x v = true ->
  edges_in G ((q ++ [x]) ++ [v]) = true.
Proof.
  induction q as [|a q IH].
  - simpl. intros _ ->. reflexivity.
  - rewrite <- !app_comm_cons.
    destruct (q ++ [x]) as [|b l] eqn:E.
    + destruct q; discriminate.
    + change ((a :: b :: l) ++ [v]) with (a :: (b :: l) ++ [v]).
      change (edges_in G (a :: b :: l)) with
        (has_edge G a b && edges_in G (b :: l)).
      change (edges_in G (a :: (b :: l) ++ [v])) with
        (has_edge G a b && edges_in G ((b :: l) ++ [v])).
      intros H He. apply andb_true_iff in H as [H1 H2].
      rewrite H1. simpl andb. auto.
Qed.

Lemma walk_path_weight s p v W :
  walk G s p v W -> path_weight G p = Some W /\ edges_in G p = true.
Proof.
  induction 1 as [Hs | p x v W c Hw [IH1 IH2] He].
  - auto.
  - destruct (walk_last _ _ _ _ Hw) as [q ->]. split.
    + now apply path_weight_snoc.
    + apply edges_in_snoc; auto.
      unfold has_edge. apply dict_mem_true. eauto.
Qed.

Lemma walk_hd s p v W : walk G s p v W -> exists q, p = s :: q.
Proof.
  induction 1 as [|p x v W c Hw [q ->] He]; eexists; reflexivity.
Qed.
End Walks.

(** ** One Dijkstra search: the invariant and its preservation *)

Section Search.
Variable G : Graph.
Hypothesis Hwf : wf_graph G.
Variable src : string.

Lemma search_inv_init v c :
  has_node G src = true ->
  search_inv G src v [] [] [(src, 0)] [(0, c, src)].
Proof.
  intros Hs. constructor; simpl.
  - now rewrite String.eqb_refl.
  - discriminate.
  - intros u d. destruct (String.eqb src u) eqn:E; [|discriminate].
    apply String.eqb_eq in E. subst u. intros [= <-].
    exists [src]. now constructor.
  - intros u d. destruct (String.eqb src u) eqn:E; [|discriminate].
    apply String.eqb_eq in E. subst u. intros [= <-] _. eauto.
  - intros d c' u [[= <- <- <-]|[]]. exists 0.
    rewrite String.eqb_refl. split; [reflexivity | lia].
  - discriminate.
  - discriminate.
Qed.

(** Every walk from the source either ends in a settled node whose final
    distance it does not beat, or passes through a seen, unsettled node
    whose tentative distance it does not beat. *)
Lemma path_bound v D S F p u W :
  search_inv G src v [] D S F ->
  walk G src p u W ->
  (exists du, dict_get D u = Some du /\ du <= W) \/
  (exists y dy q W2, dict_get D y = None /\ dict_get S y = Some dy /\
                     walk G y q u W2 /\ dy + W2 <= W).
Proof.
  intros I Hw. induction Hw as [Hs | p x u W c Hw IH He].
  - destruct (dict_get D src) as [d|] eqn:E.
    + left. exists d. split; auto.
      apply (si_dist_seen _ _ _ _ _ _ _ I) in E.
      rewrite (si_src _ _ _ _ _ _ _ I) in E. injection E as <-. lia.
    + right. exists src, 0, [src], 0. repeat split; auto.
      * apply (si_src _ _ _ _ _ _ _ I).
      * now constructor.
      * lia.
  - destruct IH as [(dx & Hdx & Hle) | (y & dy & q & W2 & Hy & Hsy & Hq & Hle)].
    + destruct (si_relaxed _ _ _ _ _ _ _ I _ _ _ _ Hdx He)
        as [[_ []] | (dw & Hdw & Hle')].
      destruct (dict_get D u) as [du|] eqn:E.
      * left. exists du. split; auto.
        apply (si_dist_seen _ _ _ _ _ _ _ I) in E.
        rewrite Hdw in E. injection E as <-. lia.
      * right. exists u, dw, [u], 0. repeat split; auto.
        -- constructor. eapply wf_closed; eauto.
        -- lia.
    + right. exists y, dy, (q ++ [u]), (W2 + c). repeat split; auto.
      * eapply walk_snoc; eauto.
      * lia.
Qed.

Lemma pop_skip v D S F d c x F' :
  search_inv G src v [] D S F ->
  heappop F = Some ((d, c, x), F') ->
  dict_mem D x = true ->
  search_inv G src v [] D S F'.
Proof.
  intros I Hpop Hx.
  destruct (heappop_spec _ _ _ Hpop) as [Hperm _].
  destruct I as [I1 I2 I3 I4 I5 I6 I7].
  constructor; auto.
  - intros u du Hs Hd. destruct (I4 _ _ Hs Hd) as [c' Hin].
    exists c'. apply (Permutation_in _ Hperm) in Hin.
    destruct Hin as [E|Hin]; auto.
    injection E as <- <- <-.
    apply dict_mem_false in Hd. congruence.
  - intros d0 c0 u Hin. apply (I5 d0 c0).
    apply (Permutation_in _ (Permutation_sym Hperm)). now right.
  - intros d0 c0 y u du Hin. apply (I6 d0 c0 y).
    apply (Permutation_in _ (Permutation_sym Hperm)). now right.
Qed.

Lemma pop_settle v D S F d c x F' :
  search_inv G src v [] D S F ->
  heappop F = Some ((d, c, x), F') ->
  dict_mem D x = false ->
  search_inv G src x (adj G x) (dict_set D x d) S F' /\
  dict_get S x = Some d /\
  (forall u du, dict_get (dict_set D x d) u = Some du -> du <= d).
Proof.
  intros I Hpop Hx.
  destruct (heappop_spec _ _ _ Hpop) as [Hperm Hmin].
  destruct I as [I1 I2 I3 I4 I5 I6 I7].
  apply dict_mem_false in Hx.
  assert (Hin0 : In (d, c, x) F).
  { apply (Permutation_in _ (Permutation_sym Hperm)). now left. }
  assert (Hsx : dict_get S x = Some d).
  { destruct (I5 _ _ _ Hin0) as (d' & Hs & Hle).
    destruct (I4 _ _ Hs Hx) as [c' Hin'].
    specialize (Hmin _ Hin'). unfold key_le in Hmin. simpl in Hmin.
    rewrite Hs. f_equal. lia. }
  assert (Htop : forall u du, dict_get (dict_set D x d) u = Some du -> du <= d).
  { intros u du. rewrite dict_get_set.
    destruct (String.eqb x u); [intros [= <-]; lia|].
    intros Hu. eapply I6; eauto. }
  split; [|split]; auto.
  constructor; auto.
  - intros u du. rewrite dict_get_set.
    destruct (String.eqb x u) eqn:E; auto.
    apply String.eqb_eq in E. subst u. now intros [= <-].
  - intros u du Hs. rewrite dict_get_set.
    destruct (String.eqb x u) eqn:E; [discriminate|].
    intros Hd. destruct (I4 _ _ Hs Hd) as [c' Hin].
    exists c'. apply (Permutation_in _ Hperm) in Hin.
    destruct Hin as [E'|Hin]; auto.
    injection E' as <- <- <-. rewrite String.eqb_refl in E. discriminate.
  - intros d0 c0 u Hin. apply (I5 d0 c0).
    apply (Permutation_in _ (Permutation_sym Hperm)). now right.
  - intros d0 c0 y u du Hin Hu.
    assert (Hin' : In (d0, c0, y) F).
    { apply (Permutation_in _ (Permutation_sym Hperm)). now right. }
    revert Hu. rewrite dict_get_set.
    destruct (String.eqb x u).
    + intros [= <-]. apply (Hmin _ Hin').
    + intros Hu. eapply I6; eauto.
  - intros u du w cost. rewrite dict_get_set.
    destruct (String.eqb x u) eqn:E.
    + apply String.eqb_eq in E. subst u. intros _ He. left. split; auto.
      now apply dict_get_In.
    + intros Hu He. destruct (I7 _ _ _ _ Hu He) as [[_ []]|H]. now right.
Qed.

Section Relax.
Variables (v w : string) (cost dv : Z) (pend : dict Z).
Variables (D S : dict Z) (F : heap).
Hypothesis I : search_inv G src v ((w, cost) :: pend) D S F.
Hypothesis Hv : dict_get D v = Some dv.
Hypothesis Hedge : dict_get (adj G v) w = Some cost.
Hypothesis Htop : forall u du, dict_get D u = Some du -> du <= dv.

Lemma relax_cost_nonneg : 0 <= cost.
Proof. eapply wf_nonneg; eauto. Qed.

Lemma relax_dv_nonneg : 0 <= dv.
Proof.
  destruct (si_seen_walk _ _ _ _ _ _ _ I v dv) as [p Hp].
  - now apply (si_dist_seen _ _ _ _ _ _ _ I).
  - eapply walk_nonneg; eauto.
Qed.

Lemma relax_settled dw :
  dict_get D w = Some dw ->
  (dv + cost <? dw) = false /\ search_inv G src v pend D S F.
Proof.
  intros Hw. pose proof relax_cost_nonneg as Hc.
  pose proof (Htop _ _ Hw) as Hle.
  split; [apply Z.ltb_ge; lia|].
  destruct I as [I1 I2 I3 I4 I5 I6 I7]. constructor; auto.
  intros u du w' cost' Hu He.
  destruct (I7 _ _ _ _ Hu He) as [[-> [E|Hin]]|H]; auto.
  injection E as <- <-. right. exists dw. split; auto.
  rewrite Hv in Hu. injection Hu as <-. lia.
Qed.

Lemma relax_keep sw :
  dict_get S w = Some sw -> (dv + cost <? sw) = false ->
  search_inv G src v pend D S F.
Proof.
  intros Hs Hlt. apply Z.ltb_ge in Hlt.
  destruct I as [I1 I2 I3 I4 I5 I6 I7]. constructor; auto.
  intros u du w' cost' Hu He.
  destruct (I7 _ _ _ _ Hu He) as [[-> [E|Hin]]|H]; auto.
  injection E as <- <-. right. exists sw. split; auto.
  rewrite Hv in Hu. injection Hu as <-. lia.
Qed.

Lemma relax_push c :
  dict_get D w = None ->
  match dict_get S w with None => true | Some sw => dv + cost <? sw end = true ->
  search_inv G src v pend D (dict_set S w (dv + cost))
    (heappush F (dv + cost, c, w)).
Proof.
  intros Hw Hcond.
  pose proof relax_cost_nonneg as Hc. pose proof relax_dv_nonneg as Hd0.
  assert (Hdec : forall u s, dict_get S u = Some s ->
            exists s', dict_get (dict_set S w (dv + cost)) u = Some s' /\ s' <= s).
  { intros u s Hu. rewrite dict_get_set.
    destruct (String.eqb w u) eqn:E.
    - apply String.eqb_eq in E. subst u. rewrite Hu in Hcond.
      apply Z.ltb_lt in Hcond. eexists; split; eauto. lia.
    - eexists; split; eauto. lia. }
  destruct I as [I1 I2 I3 I4 I5 I6 I7]. constructor.
  - rewrite dict_get_set. destruct (String.eqb w src) eqn:E; auto.
    apply String.eqb_eq in E. subst w. rewrite I1 in Hcond.
    apply Z.ltb_lt in Hcond. lia.
  - intros u du Hu. rewrite dict_get_set.
    destruct (String.eqb w u) eqn:E; auto.
    apply String.eqb_eq in E. subst u. congruence.
  - intros u du. rewrite dict_get_set.
    destruct (String.eqb w u) eqn:E; auto.
    apply String.eqb_eq in E. subst u. intros [= <-].
    destruct (I3 v dv (I2 _ _ Hv)) as [p Hp].
    exists (p ++ [w]). eapply walk_snoc; eauto.
  - intros u du. rewrite dict_get_set. unfold heappush.
    destruct (String.eqb w u) eqn:E.
    + apply String.eqb_eq in E. subst u. intros [= <-] _.
      exists c. now left.
    + intros Hu Hd. destruct (I4 _ _ Hu Hd) as [c' Hin].
      exists c'. now right.
  - intros d0 c0 u [E|Hin].
    + injection E as <- <- <-. exists (dv + cost).
      rewrite dict_get_set_eq. split; auto. lia.
    + destruct (I5 _ _ _ Hin) as (d' & Hs & Hle).
      destruct (Hdec _ _ Hs) as (s' & Hs' & Hle').
      exists s'. split; auto. lia.
  - intros d0 c0 y u du [E|Hin] Hu.
    + injection E as <- <- <-. specialize (Htop _ _ Hu). lia.
    + eapply I6; eauto.
  - intros u du w' cost' Hu He.
    destruct (I7 _ _ _ _ Hu He) as [[-> [E|Hin]]|(dw & Hs & Hle)]; auto.
    + injection E as <- <-. right. exists (dv + cost).
      rewrite dict_get_set_eq. split; auto.
      rewrite Hv in Hu. injection Hu as <-. lia.
    + right. destruct (Hdec _ _ Hs) as (s' & Hs' & Hle').
      exists s'. split; auto. lia.
Qed.
End Relax.
End Search.

(** ** Termination measure *)

Lemma unsettled_settle G D v d nbrs :
  dict_get G v = Some nbrs -> dict_mem D v = false ->
  (unsettled G (dict_set D v d) + S (length nbrs) <= unsettled G D)%nat.
Proof.
  unfold unsettled. intros Hg Hd.
  induction G as [|[k a] G IH]; simpl in *; [discriminate|].
  rewrite dict_mem_set.
  destruct (String.eqb k v) eqn:E.
  - apply String.eqb_eq in E. subst k. injection Hg as ->.
    rewrite String.eqb_refl, Hd. simpl.
    assert (H : forall G', (list_sum (map (fun kv : string * dict Z =>
                 if dict_mem (dict_set D v d) (fst kv) then 0%nat
                 else S (length (snd kv))) G') <=
               list_sum (map (fun kv : string * dict Z =>
                 if dict_mem D (fst kv) then 0%nat
                 else S (length (snd kv))) G'))%nat).
    { induction G' as [|[k' a'] G' IH']; simpl; auto.
      rewrite dict_mem_set.
      destruct (String.eqb v k'), (dict_mem D k'); simpl; lia. }
    specialize (H G). lia.
  - specialize (IH Hg).
    assert (E' : String.eqb v k = false).
    { apply String.eqb_neq. apply String.eqb_neq in E. congruence. }
    rewrite E'. simpl. destruct (dict_mem D k); simpl; lia.
Qed.

Lemma unsettled_bound G D :
  (unsettled G D <= list_sum (map (fun kv => S (length (snd kv))) G))%nat.
Proof.
  unfold unsettled. induction G as [|[k a] G IH]; simpl; auto.
  destruct (dict_mem D k); simpl; lia.
Qed.

Lemma heappop_length h e r : heappop h = Some (e, r) -> length h = S (length r).
Proof.
  intros H. destruct (heappop_spec _ _ _ H) as [Hp _].
  now rewrite (Permutation_length Hp).
Qed.

Lemma search_inv_any G src v v' D S F :
  search_inv G src v [] D S F -> search_inv G src v' [] D S F.
Proof.
  intros [I1 I2 I3 I4 I5 I6 I7]. constructor; auto.
  intros u du w cost Hu He. destruct (I7 _ _ _ _ Hu He) as [[_ []]|H]. now right.
Qed.

Lemma has_node_adj G v :
  has_node G v = true -> dict_get G v = Some (adj G v).
Proof.
  unfold has_node, adj, dict_mem. destruct (dict_get G v); [auto | discriminate].
Qed.

(** ** _dijkstra: the unidirectional search *)

Section Unidirectional.
Variable G : Graph.
Hypothesis Hwf : wf_graph G.
Variables src target : string.

Lemma uni_relax_all v dv : forall pend st,
  search_inv G src v pend (udist st) (useen st) (ufringe st) ->
  dict_get (udist st) v = Some dv ->
  (forall u du, dict_get (udist st) u = Some du -> du <= dv) ->
  (forall w cost, In (w, cost) pend -> dict_get (adj G v) w = Some cost) ->
  exists st',
    for_each (uni_relax v) pend st = Return st' /\
    search_inv G src v [] (udist st') (useen st') (ufringe st') /\
    udist st' = udist st /\
    (length (ufringe st') <= length (ufringe st) + length pend)%nat.
Proof.
  induction pend as [|[w cost] pend IH]; intros st I Hv Htop Hin.
  - exists st. simpl. split; [|split; [|split]]; auto. lia.
  - assert (He : dict_get (adj G v) w = Some cost) by (apply Hin; now left).
    assert (Hin' : forall w' cost', In (w', cost') pend ->
                     dict_get (adj G v) w' = Some cost').
    { intros; apply Hin; now right. }
    simpl for_each. unfold uni_relax at 1. rewrite Hv.
    destruct (dict_get (udist st) w) as [dw|] eqn:Ew.
    + destruct (relax_settled G Hwf src v w cost dv pend _ _ _ I Hv He Htop dw Ew)
        as [Hlt I'].
      rewrite Hlt. simpl bind.
      destruct (IH st I' Hv Htop Hin') as (st' & H1 & H2 & H3 & H4).
      exists st'. split; [|split; [|split]]; auto. simpl. lia.
    + destruct (match dict_get (useen st) w with
                | None => true | Some su => dv + cost <? su end) eqn:Ec.
      * pose proof (relax_push G Hwf src v w cost dv pend _ _ _ I Hv He Htop
                      (ucounter st) Ew Ec) as I'.
        simpl bind.
        set (st1 := mkUni (udist st) (dict_set (useen st) w (dv + cost))
               (heappush (ufringe st) (dv + cost, ucounter st, w))
               (S (ucounter st))).
        destruct (IH st1 I' Hv Htop Hin') as (st' & H1 & H2 & H3 & H4).
        exists st'. split; [|split; [|split]]; auto. simpl in *. lia.
      * destruct (dict_get (useen st) w) as [su|] eqn:Es; [|discriminate].
        pose proof (relax_keep G src v w cost dv pend _ _ _ I Hv su Es Ec) as I'.
        simpl bind.
        destruct (IH st I' Hv Htop Hin') as (st' & H1 & H2 & H3 & H4).
        exists st'. split; [|split; [|split]]; auto. simpl. lia.
Qed.

Lemma uni_loop_spec : forall fuel st v0,
  search_inv G src v0 [] (udist st) (useen st) (ufringe st) ->
  dict_get (udist st) target = None ->
  (length (ufringe st) + unsettled G (udist st) < fuel)%nat ->
  exists dist,
    uni_loop fuel G target st = Return dist /\
    ((exists d, dict_get dist target = Some d /\
                (exists p, walk G src p target d) /\
                (forall p W, walk G src p target W -> d <= W)) \/
     (dict_get dist target = None /\ ~ connected G src target)).
Proof.
  induction fuel as [|fuel IH]; intros st v0 I Ht Hfuel; [lia|].
  simpl uni_loop.
  destruct (heappop (ufringe st)) as [[[[d c] x] rest]|] eqn:Epop.
  - pose proof (heappop_length _ _ _ Epop) as Hlen.
    simpl.
    destruct (dict_mem (udist st) x) eqn:Ex.
    + apply (IH (mkUni (udist st) (useen st) rest (ucounter st)) v0); simpl; auto.
      * eapply pop_skip; eauto.
      * lia.
    + destruct (pop_settle G src v0 _ _ _ _ _ _ _ I Epop Ex) as (I' & Hsx & Htop).
      destruct (si_seen_walk _ _ _ _ _ _ _ I x d Hsx) as [px Hpx].
      destruct (String.eqb x target) eqn:Etx.
      * apply String.eqb_eq in Etx. subst x.
        eexists. split; [reflexivity|]. left. exists d.
        rewrite dict_get_set_eq. split; [auto|split; [eauto|]].
        intros p W Hw.
        destruct (path_bound G Hwf src _ _ _ _ _ _ _ I Hw)
          as [(du & Hdu & _) | (y & dy & q & W2 & Hy & Hsy & Hq & Hle)];
          [congruence|].
        destruct (si_seen_fringe _ _ _ _ _ _ _ I _ _ Hsy Hy) as [c' Hin].
        destruct (heappop_spec _ _ _ Epop) as [_ Hmin].
        specialize (Hmin _ Hin). unfold key_le in Hmin. simpl in Hmin.
        pose proof (walk_nonneg G Hwf _ _ _ _ Hq). lia.
      * pose proof (walk_node G Hwf _ _ _ _ Hpx) as Hnode.
        rewrite (has_node_adj _ _ Hnode).
        set (st1 := mkUni (dict_set (udist st) x d) (useen st) rest (ucounter st)).
        destruct (uni_relax_all x d (adj G x) st1) as (st' & H1 & H2 & H3 & H4);
          simpl; auto.
        { apply dict_get_set_eq. }
        { intros w cost Hin. apply In_dict_get; auto. apply (wf_nodup G Hwf). }
        rewrite H1. simpl bind.
        apply (IH st' x); auto.
        -- rewrite H3. simpl. rewrite dict_get_set_ne; auto.
           intros ->. rewrite String.eqb_refl in Etx. discriminate.
        -- rewrite H3. simpl in *.
           pose proof (unsettled_settle G (udist st) x d _
                         (has_node_adj _ _ Hnode) Ex). lia.
  - apply heappop_none in Epop.
    eexists. split; [reflexivity|]. right. split; auto.
    intros (p & W & Hw).
    destruct (path_bound G Hwf src _ _ _ _ _ _ _ I Hw)
      as [(du & Hdu & _) | (y & dy & q & W2 & Hy & Hsy & Hq & Hle)];
      [congruence|].
    destruct (si_seen_fringe _ _ _ _ _ _ _ I _ _ Hsy Hy) as [c' Hin].
    rewrite Epop in Hin. destruct Hin.
Qed.

(** [dijkstra_path_length] returns the least weight of a walk, or raises
    [NetworkXNoPath] when there is none. *)
Lemma dijkstra_path_length_spec :
  has_node G src = true -> src <> target ->
  (exists d, dijkstra_path_length G src target = Return d /\
             (exists p, walk G src p target d) /\
             (forall p W, walk G src p target W -> d <= W)) \/
  (dijkstra_path_length G src target = Raise NetworkXNoPath /\
   ~ connected G src target).
Proof.
  intros Hs Hne. unfold dijkstra_path_length. rewrite Hs. simpl negb. cbv iota.
  destruct (String.eqb src target) eqn:E.
  { apply String.eqb_eq in E. contradiction. }
  unfold _dijkstra.
  destruct (uni_loop_spec (search_fuel G)
              (mkUni [] [(src, 0)] (heappush [] (0, 0%nat, src)) 1%nat) src)
    as (dist & Hrun & Hres).
  - now apply search_inv_init.
  - reflexivity.
  - unfold search_fuel. pose proof (unsettled_bound G []). simpl. lia.
  - rewrite Hrun. simpl bind.
    destruct Hres as [(d & Hd & Hp & Hopt) | (Hd & Hnc)].
    + left. exists d. rewrite Hd. auto.
    + right. rewrite Hd. auto.
Qed.
End Unidirectional.

(** ** bidirectional_dijkstra *)

Lemma sel_upd_same {A} (p : A * A) d a : sel (upd p d a) d = a.
Proof. destruct d; reflexivity. Qed.

Lemma sel_upd_other {A} (p : A * A) d a : sel (upd p d a) (negb d) = sel p (negb d).
Proof. destruct d; reflexivity. Qed.

Lemma sel_upd {A} (p : A * A) d d' a :
  sel (upd p d a) d' = if Bool.eqb d' d then a else sel p d'.
Proof. destruct d, d'; reflexivity. Qed.

Section Bidirectional.
Variable G : Graph.
Hypothesis Hwf : wf_graph G.
Variables s t : string.

Lemma bi_mu_dir v dirv pend st d w a b :
  bidi_inv G s t v dirv pend st ->
  dict_get (sel (seen st) d) w = Some a ->
  dict_get (sel (seen st) (negb d)) w = Some b ->
  exists m, finaldist st = Some m /\ m <= a + b.
Proof.
  intros I Ha Hb. destruct d; simpl in *.
  - destruct (bi_mu _ _ _ _ _ _ _ I _ _ _ Hb Ha) as (m & Hm & Hle).
    exists m. split; auto. lia.
  - apply (bi_mu _ _ _ _ _ _ _ I _ _ _ Ha Hb).
Qed.

(** One neighbour relaxed: no exception, the invariant moves on. *)
Lemma bidi_relax_step d v dv w cost pend st :
  bidi_inv G s t v d ((w, cost) :: pend) st ->
  dict_get (sel (dists st) d) v = Some dv ->
  (forall u du, dict_get (sel (dists st) d) u = Some du -> du <= dv) ->
  dict_get (adj G v) w = Some cost ->
  exists st',
    bidi_relax d v st (w, cost) = Return st' /\
    bidi_inv G s t v d pend st' /\
    dists st' = dists st /\
    sel (fringe st') (negb d) = sel (fringe st) (negb d) /\
    (length (sel (fringe st') d) <= S (length (sel (fringe st) d)))%nat.
Proof.
  intros I Hv Htop He.
  pose proof (bi_search _ _ _ _ _ _ _ I d) as Id.
  rewrite Bool.eqb_reflx in Id.
  assert (Iother : forall dir, dir <> d ->
            search_inv G (src_of s t dir) v []
              (sel (dists st) dir) (sel (seen st) dir) (sel (fringe st) dir)).
  { intros dir Hne. pose proof (bi_search _ _ _ _ _ _ _ I dir) as H.
    destruct (Bool.eqb dir d) eqn:E; auto.
    apply Bool.eqb_prop in E. contradiction. }
  unfold bidi_relax. rewrite Hv.
  destruct (dict_get (sel (dists st) d) w) as [dw|] eqn:Ew.
  { destruct (relax_settled G Hwf _ v w cost dv pend _ _ _ Id Hv He Htop dw Ew)
      as [Hlt I'].
    rewrite Hlt. exists st. split; [reflexivity|].
    split; [|split; [|split]]; auto.
    destruct I as [_ I2 I3 I4 I5]. constructor; auto.
    intros dir. destruct (Bool.eqb dir d) eqn:E.
    - apply Bool.eqb_prop in E. now subst dir.
    - apply Iother. intros ->. rewrite Bool.eqb_reflx in E. discriminate. }
  destruct (match dict_get (sel (seen st) d) w with
            | None => true | Some sw => dv + cost <? sw end) eqn:Ec.
  2:{ destruct (dict_get (sel (seen st) d) w) as [sw|] eqn:Es; [|discriminate].
      pose proof (relax_keep G _ v w cost dv pend _ _ _ Id Hv sw Es Ec) as I'.
      exists st. split; [reflexivity|].
      split; [|split; [|split]]; auto.
      destruct I as [_ I2 I3 I4 I5]. constructor; auto.
      intros dir. destruct (Bool.eqb dir d) eqn:E.
      - apply Bool.eqb_prop in E. now subst dir.
      - apply Iother. intros ->. rewrite Bool.eqb_reflx in E. discriminate. }
  pose proof (relax_push G Hwf _ v w cost dv pend _ _ _ Id Hv He Htop
                (counter st) Ew Ec) as I'.
  assert (Hsv : dict_get (sel (seen st) d) v = Some dv).
  { now apply (si_dist_seen _ _ _ _ _ _ _ Id). }
  destruct (bi_paths _ _ _ _ _ _ _ I d v dv Hsv) as (pv & Hpv & Hwv).
  rewrite Hpv.
  set (seen' := upd (seen st) d (dict_set (sel (seen st) d) w (dv + cost))).
  set (fringe' := upd (fringe st) d
                    (heappush (sel (fringe st) d) (dv + cost, counter st, w))).
  set (paths' := upd (paths st) d (dict_set (sel (paths st) d) w (pv ++ [w]))).
  assert (Hsearch' : forall dir,
            search_inv G (src_of s t dir) v (if Bool.eqb dir d then pend else [])
              (sel (dists st) dir) (sel seen' dir) (sel fringe' dir)).
  { intros dir. unfold seen', fringe'. rewrite !sel_upd.
    destruct (Bool.eqb dir d) eqn:E.
    - apply Bool.eqb_prop in E. now subst dir.
    - apply Iother. intros ->. rewrite Bool.eqb_reflx in E. discriminate. }
  assert (Hpaths' : forall dir u du,
            dict_get (sel seen' dir) u = Some du ->
            exists p, dict_get (sel paths' dir) u = Some p /\
                      walk G (src_of s t dir) p u du).
  { intros dir u du. unfold seen', paths'. rewrite !sel_upd.
    destruct (Bool.eqb dir d) eqn:E.
    - apply Bool.eqb_prop in E. subst dir. rewrite !dict_get_set.
      destruct (String.eqb w u) eqn:Ewu.
      + apply String.eqb_eq in Ewu. subst u. intros [= <-].
        eexists. split; [reflexivity|]. eapply walk_snoc; eauto.
      + apply (bi_paths _ _ _ _ _ _ _ I).
    - apply (bi_paths _ _ _ _ _ _ _ I). }
  assert (Hold : forall u a b, u <> w ->
            dict_get (fst seen') u = Some a -> dict_get (snd seen') u = Some b ->
            dict_get (fst (seen st)) u = Some a /\
            dict_get (snd (seen st)) u = Some b).
  { intros u a b Hne. unfold seen'.
    destruct d; simpl; rewrite dict_get_set_ne; auto. }
  assert (Hlen : (length (sel fringe' d) <= S (length (sel (fringe st) d)))%nat).
  { unfold fringe'. rewrite sel_upd_same. simpl. lia. }
  assert (Hfo : sel fringe' (negb d) = sel (fringe st) (negb d)).
  { unfold fringe'. apply sel_upd_other. }
  destruct (dict_get (fst seen') w) as [s0|] eqn:E0;
    [destruct (dict_get (snd seen') w) as [s1|] eqn:E1|].
  2,3: (eexists; split; [reflexivity|];
        split; [|split; [|split]]; auto;
        constructor; simpl; auto;
        [ intros u a b Ha Hb;
          destruct (String.eqb u w) eqn:Euw;
          [ apply String.eqb_eq in Euw; subst u; congruence
          | apply String.eqb_neq in Euw;
            destruct (Hold _ _ _ Euw Ha Hb);
            eapply (bi_mu _ _ _ _ _ _ _ I); eauto ]
        | apply (bi_final _ _ _ _ _ _ _ I)
        | apply (bi_final_none _ _ _ _ _ _ _ I) ]).
  destruct (Hpaths' false w s0 E0) as (p0 & Hp0 & Hw0).
  destruct (Hpaths' true w s1 E1) as (p1 & Hp1 & Hw1).
  simpl in Hp0, Hp1, Hw0, Hw1.
  pose proof (walk_join G Hwf _ _ _ _ Hw1 _ _ _ Hw0) as Hjoin.
  assert (Hbetter : exists better,
            match finalpath st with
            | [] => Return true
            | _ :: _ => match finaldist st with
                        | None => Raise UnboundLocalError
                        | Some fd => Return (fd >? s0 + s1)
                        end
            end = Return better /\
            (better = true ->
             forall m, finaldist st = Some m -> s0 + s1 <= m) /\
            (better = false ->
             exists m, finaldist st = Some m /\ m <= s0 + s1)).
  { destruct (finaldist st) as [fd|] eqn:Efd.
    - pose proof (bi_final _ _ _ _ _ _ _ I _ Efd) as Hwf'.
      destruct (walk_hd _ _ _ _ _ Hwf') as [q Hq]. rewrite Hq.
      exists (fd >? s0 + s1). split; [reflexivity|]. split.
      + intros Hgt m [= <-]. apply Z.gtb_lt in Hgt. lia.
      + intros Hgt. exists fd. split; auto.
        rewrite Z.gtb_ltb in Hgt. apply Z.ltb_ge in Hgt. lia.
    - rewrite (bi_final_none _ _ _ _ _ _ _ I Efd).
      exists true. split; [reflexivity|]. split; [discriminate|discriminate]. }
  destruct Hbetter as (better & -> & Htrue & Hfalse). simpl bind.
  destruct better.
  - rewrite Hp1, Hp0. eexists. split; [reflexivity|].
    split; [|split; [|split]]; auto.
    constructor; simpl; auto.
    + intros u a b Ha Hb. exists (s0 + s1). split; auto.
      destruct (String.eqb u w) eqn:Euw.
      * apply String.eqb_eq in Euw. subst u.
        rewrite E0 in Ha. rewrite E1 in Hb.
        injection Ha as <-. injection Hb as <-. lia.
      * apply String.eqb_neq in Euw.
        destruct (Hold _ _ _ Euw Ha Hb) as [Ha' Hb'].
        destruct (bi_mu _ _ _ _ _ _ _ I _ _ _ Ha' Hb') as (m & Hm & Hle).
        specialize (Htrue eq_refl _ Hm). lia.
    + intros m [= <-]. exact Hjoin.
    + discriminate.
  - eexists. split; [reflexivity|].
    split; [|split; [|split]]; auto.
    destruct (Hfalse eq_refl) as (m & Hm & Hle).
    constructor; simpl; auto.
    + intros u a b Ha Hb.
      destruct (String.eqb u w) eqn:Euw.
      * apply String.eqb_eq in Euw. subst u.
        rewrite E0 in Ha. rewrite E1 in Hb.
        injection Ha as <-. injection Hb as <-. eauto.
      * apply String.eqb_neq in Euw.
        destruct (Hold _ _ _ Euw Ha Hb) as [Ha' Hb'].
        eapply (bi_mu _ _ _ _ _ _ _ I); eauto.
    + apply (bi_final _ _ _ _ _ _ _ I).
    + apply (bi_final_none _ _ _ _ _ _ _ I).
Qed.
Lemma bidi_relax_all d v dv : forall pend st,
  bidi_inv G s t v d pend st ->
  dict_get (sel (dists st) d) v = Some dv ->
  (forall u du, dict_get (sel (dists st) d) u = Some du -> du <= dv) ->
  (forall w cost, In (w, cost) pend -> dict_get (adj G v) w = Some cost) ->
  exists st',
    for_each (bidi_relax d v) pend st = Return st' /\
    bidi_inv G s t v d [] st' /\
    dists st' = dists st /\
    sel (fringe st') (negb d) = sel (fringe st) (negb d) /\
    (length (sel (fringe st') d) <= length (sel (fringe st) d) + length pend)%nat.
Proof.
  induction pend as [|[w cost] pend IH]; intros st I Hv Htop Hin.
  - exists st. simpl. split; [|split; [|split; [|split]]]; auto. lia.
  - assert (He : dict_get (adj G v) w = Some cost) by (apply Hin; now left).
    destruct (bidi_relax_step d v dv w cost pend st I Hv Htop He)
      as (st1 & H1 & I1 & HD1 & HF1 & HL1).
    cbn [for_each]. rewrite H1. cbn [bind].
    destruct (IH st1 I1) as (st' & H2 & I2 & HD2 & HF2 & HL2).
    + now rewrite HD1.
    + now rewrite HD1.
    + intros; apply Hin; now right.
    + exists st'. split; [|split; [|split; [|split]]]; auto.
      * congruence.
      * congruence.
      * simpl. lia.
Qed.

Lemma bidi_inv_init v d :
  has_node G s = true -> has_node G t = true -> s <> t ->
  bidi_inv G s t v d []
    (mkBi ([], []) ([(s, [s])], [(t, [t])])
       (heappush [] (0, 0%nat, s), heappush [] (0, 1%nat, t))
       ([(s, 0)], [(t, 0)]) 2%nat None []).
Proof.
  intros Hs Ht Hne. constructor; cbn [dists paths fringe seen finaldist finalpath].
  - intros dir. destruct dir, d; simpl; now apply search_inv_init.
  - intros dir u du. destruct dir; simpl.
    + destruct (String.eqb t u) eqn:E; [|discriminate].
      apply String.eqb_eq in E. subst u. intros [= <-].
      eexists. split; [reflexivity|]. now constructor.
    + destruct (String.eqb s u) eqn:E; [|discriminate].
      apply String.eqb_eq in E. subst u. intros [= <-].
      eexists. split; [reflexivity|]. now constructor.
  - intros w a b. simpl.
    destruct (String.eqb s w) eqn:E1; [|discriminate].
    destruct (String.eqb t w) eqn:E2; [|discriminate].
    apply String.eqb_eq in E1, E2. congruence.
  - discriminate.
  - reflexivity.
Qed.

(** When a node is settled from both sides, the best meeting found so far
    is a shortest walk. *)
Lemma bidi_meet_optimal v0 st d dist c v rest dv' :
  bidi_inv G s t v0 d [] st ->
  heappop (sel (fringe st) d) = Some ((dist, c, v), rest) ->
  dict_mem (sel (dists st) d) v = false ->
  dict_get (sel (dists st) (negb d)) v = Some dv' ->
  exists m, finaldist st = Some m /\ walk G s (finalpath st) t m /\
            forall q W, walk G s q t W -> m <= W.
Proof.
  intros I Hpop Hv Hv'.
  pose proof (bi_search _ _ _ _ _ _ _ I d) as Id.
  pose proof (bi_search _ _ _ _ _ _ _ I (negb d)) as Io.
  rewrite Bool.eqb_reflx in Id.
  assert (Io' : search_inv G (src_of s t (negb d)) v0 []
                  (sel (dists st) (negb d)) (sel (seen st) (negb d))
                  (sel (fringe st) (negb d))).
  { destruct (Bool.eqb (negb d) d); exact Io. }
  clear Io. rename Io' into Io.
  destruct (pop_settle G _ v0 _ _ _ _ _ _ _ Id Hpop Hv) as (_ & Hsv & _).
  destruct (heappop_spec _ _ _ Hpop) as [_ Hmin].
  pose proof (si_dist_seen _ _ _ _ _ _ _ Io _ _ Hv') as Hsv'.
  destruct (bi_mu_dir _ _ _ _ _ _ _ _ I Hsv Hsv') as (m & Hm & Hle).
  exists m. split; auto. split; [apply (bi_final _ _ _ _ _ _ _ I _ Hm)|].
  intros q W Hq.
  assert (Hdq : exists q', walk G (src_of s t d) q' (src_of s t (negb d)) W).
  { destruct d; simpl.
    - exists (rev q). now apply walk_rev.
    - now exists q. }
  destruct Hdq as [q' Hq'].
  destruct (path_bound G Hwf _ _ _ _ _ _ _ _ Id Hq')
    as [(du & Hdu & Hle1) | (y & dy & qy & W2 & Hy & Hsy & Hqy & Hle1)].
  - pose proof (si_dist_seen _ _ _ _ _ _ _ Id _ _ Hdu) as Hsu.
    pose proof (si_src _ _ _ _ _ _ _ Io) as Hso.
    destruct (bi_mu_dir _ _ _ _ _ _ _ _ I Hsu Hso) as (m' & Hm' & Hle').
    rewrite Hm in Hm'. injection Hm' as <-. lia.
  - destruct (si_seen_fringe _ _ _ _ _ _ _ Id _ _ Hsy Hy) as [cy Hiny].
    specialize (Hmin _ Hiny). unfold key_le in Hmin. simpl in Hmin.
    pose proof (walk_rev G Hwf _ _ _ _ Hqy) as Hrev.
    destruct (path_bound G Hwf _ _ _ _ _ _ _ _ Io Hrev)
      as [(dy' & Hdy' & Hle2) | (z & dz & qz & W3 & Hz & Hsz & Hqz & Hle2)].
    + pose proof (si_dist_seen _ _ _ _ _ _ _ Io _ _ Hdy') as Hsy'.
      destruct (bi_mu_dir _ _ _ _ _ _ _ _ I Hsy Hsy') as (m' & Hm' & Hle').
      rewrite Hm in Hm'. injection Hm' as <-. lia.
    + destruct (si_seen_fringe _ _ _ _ _ _ _ Io _ _ Hsz Hz) as [cz Hinz].
      pose proof (si_fringe_ge _ _ _ _ _ _ _ Io _ _ _ _ _ Hinz Hv') as Hge.
      pose proof (walk_nonneg G Hwf _ _ _ _ Hqz). lia.
Qed.
Lemma bidi_search_nil v d st dir v' :
  bidi_inv G s t v d [] st ->
  search_inv G (src_of s t dir) v' []
    (sel (dists st) dir) (sel (seen st) dir) (sel (fringe st) dir).
Proof.
  intros I. pose proof (bi_search _ _ _ _ _ _ _ I dir) as H.
  apply search_inv_any with (v := v).
  destruct (Bool.eqb dir d); exact H.
Qed.

Lemma bidi_measure_dir st d :
  bidi_measure G st =
  (length (sel (fringe st) d) + length (sel (fringe st) (negb d)) +
   unsettled G (sel (dists st) d) + unsettled G (sel (dists st) (negb d)))%nat.
Proof. unfold bidi_measure. destruct d; simpl; lia. Qed.

Lemma bidi_head_disjoint dir st d u :
  bidi_head s t dir st ->
  dict_mem (sel (dists st) d) u = true ->
  dict_mem (sel (dists st) (negb d)) u = true -> False.
Proof. intros [H _]. destruct d; simpl; eauto. Qed.

(** The loop stops on an empty fringe only when no walk joins [s] and [t]. *)
Lemma bidi_nopath v0 d0 dir st d :
  bidi_inv G s t v0 d0 [] st -> bidi_head s t dir st -> s <> t ->
  sel (fringe st) d = [] -> ~ connected G s t.
Proof.
  intros I Hhead Hne Hempty (q & W & Hq).
  pose proof (bidi_search_nil _ _ _ d v0 I) as Id.
  assert (Hdq : exists q', walk G (src_of s t d) q' (src_of s t (negb d)) W).
  { destruct d; simpl.
    - exists (rev q). now apply walk_rev.
    - now exists q. }
  destruct Hdq as [q' Hq'].
  destruct (path_bound G Hwf _ _ _ _ _ _ _ _ Id Hq')
    as [(du & Hdu & _) | (y & dy & qy & W2 & Hy & Hsy & _)].
  - assert (Hmem : dict_mem (sel (dists st) d) (src_of s t (negb d)) = true).
    { apply dict_mem_true; eauto. }
    destruct Hhead as [Hdisj [H|[H|H]]].
    + destruct H as (_ & H0 & H1 & _).
      destruct d; simpl in Hmem; rewrite ?H0, ?H1 in Hmem; discriminate.
    + destruct H as (_ & H0 & H1 & _).
      destruct d; simpl in Hmem; rewrite ?H0, ?H1 in Hmem; simpl in Hmem.
      * discriminate.
      * unfold dict_mem in Hmem. simpl in Hmem.
        destruct (String.eqb s t) eqn:E; [|discriminate].
        apply String.eqb_eq in E. contradiction.
    + destruct H as [H0 H1].
      destruct d; simpl in Hmem; eauto.
  - destruct (si_seen_fringe _ _ _ _ _ _ _ Id _ _ Hsy Hy) as [c Hin].
    rewrite Hempty in Hin. destruct Hin.
Qed.

Lemma bidi_skip v0 d0 dir st st1 dist c v rest :
  let d := negb dir in
  bidi_inv G s t v0 d0 [] st -> bidi_head s t dir st ->
  heappop (sel (fringe st) d) = Some ((dist, c, v), rest) ->
  dict_mem (sel (dists st) d) v = true ->
  dists st1 = dists st -> paths st1 = paths st -> seen st1 = seen st ->
  fringe st1 = upd (fringe st) d rest ->
  finaldist st1 = finaldist st -> finalpath st1 = finalpath st ->
  bidi_inv G s t v0 d0 [] st1 /\ bidi_head s t d st1 /\
  (bidi_measure G st1 < bidi_measure G st)%nat.
Proof.
  intros d I Hhead Hpop Hv HD HP HS HF Hfd Hfp.
  split; [|split].
  - constructor; rewrite ?HD, ?HP, ?HS, ?HF, ?Hfd, ?Hfp;
      try apply I.
    intros dir'.
    assert (H : search_inv G (src_of s t dir') v0 []
                  (sel (dists st) dir') (sel (seen st) dir')
                  (sel (upd (fringe st) d rest) dir')).
    { rewrite sel_upd. destruct (Bool.eqb dir' d) eqn:E.
      - apply Bool.eqb_prop in E. subst dir'.
        eapply pop_skip; eauto. apply (bidi_search_nil _ _ _ _ _ I).
      - apply (bidi_search_nil _ _ _ _ _ I). }
    destruct (Bool.eqb dir' d0); exact H.
  - destruct Hhead as [Hdisj HK]. unfold bidi_head. rewrite HD, HF.
    split; auto. right. right.
    destruct HK as [H|[H|H]]; auto; exfalso.
    + destruct H as (-> & H0 & H1 & _). subst d. simpl in Hv.
      rewrite H0 in Hv. discriminate.
    + destruct H as (-> & H0 & H1 & _). subst d. simpl in Hv.
      rewrite H1 in Hv. discriminate.
  - rewrite (bidi_measure_dir st1 d), (bidi_measure_dir st d).
    rewrite HD, HF, sel_upd_same, sel_upd_other.
    rewrite (heappop_length _ _ _ Hpop). lia.
Qed.

Lemma bidi_settle v0 d0 dir st st2 dist c v rest :
  let d := negb dir in
  bidi_inv G s t v0 d0 [] st -> bidi_head s t dir st -> s <> t ->
  heappop (sel (fringe st) d) = Some ((dist, c, v), rest) ->
  dict_mem (sel (dists st) d) v = false ->
  dict_mem (sel (dists st) (negb d)) v = false ->
  dists st2 = upd (dists st) d (dict_set (sel (dists st) d) v dist) ->
  paths st2 = paths st -> seen st2 = seen st ->
  fringe st2 = upd (fringe st) d rest ->
  finaldist st2 = finaldist st -> finalpath st2 = finalpath st ->
  exists nbrs st',
    dict_get G v = Some nbrs /\
    for_each (bidi_relax d v) nbrs st2 = Return st' /\
    bidi_inv G s t v d [] st' /\ bidi_head s t d st' /\
    (bidi_measure G st' < bidi_measure G st)%nat.
Proof.
  intros d I Hhead Hne Hpop Hv Hvo HD HP HS HF Hfd Hfp.
  pose proof (bidi_search_nil _ _ _ d v0 I) as Id.
  destruct (pop_settle G _ v0 _ _ _ _ _ _ _ Id Hpop Hv) as (Id' & Hsv & Htop).
  destruct (si_seen_walk _ _ _ _ _ _ _ Id v dist Hsv) as [pv Hpv].
  pose proof (walk_node G Hwf _ _ _ _ Hpv) as Hnode.
  assert (I2 : bidi_inv G s t v d (adj G v) st2).
  { constructor; rewrite ?HD, ?HP, ?HS, ?HF, ?Hfd, ?Hfp; try apply I.
    intros dir'. rewrite !sel_upd.
    destruct (Bool.eqb dir' d) eqn:E.
    - apply Bool.eqb_prop in E. now subst dir'.
    - apply (bidi_search_nil _ _ _ _ _ I). }
  destruct (bidi_relax_all d v dist (adj G v) st2 I2)
    as (st' & Hrun & I' & HD' & HFo & HFd).
  { rewrite HD, sel_upd_same. apply dict_get_set_eq. }
  { rewrite HD, sel_upd_same. exact Htop. }
  { intros w cost Hin. apply In_dict_get; auto. apply (wf_nodup G Hwf). }
  exists (adj G v), st'. split; [now apply has_node_adj|].
  split; [exact Hrun|]. split; [exact I'|]. split.
  - destruct Hhead as [Hdisj HK]. unfold bidi_head. rewrite HD', HD.
    rewrite HF, sel_upd_other in HFo.
    split.
    + intros u H0 H1.
      assert (Hu : dict_mem (sel (dists st) d) u = true /\
                   dict_mem (sel (dists st) (negb d)) u = true \/ u = v).
      { destruct d; simpl in *; rewrite dict_mem_set in *.
        - destruct (String.eqb v u) eqn:E.
          + right. apply String.eqb_eq in E. auto.
          + left. auto.
        - destruct (String.eqb v u) eqn:E.
          + right. apply String.eqb_eq in E. auto.
          + left. auto. }
      destruct Hu as [[Ha Hb]| ->].
      * destruct d; simpl in *; eauto.
      * destruct d; simpl in *; congruence.
    + destruct HK as [H|[H|H]].
      * destruct H as (-> & H0 & H1 & HF0 & HF1). subst d. simpl in *.
        rewrite HF0 in Hpop. simpl in Hpop. injection Hpop as <- <- <- <-.
        right. left. rewrite H0, H1. simpl. auto.
        repeat split; auto. congruence.
      * destruct H as (-> & H0 & H1 & HF1). subst d. simpl in *.
        rewrite HF1 in Hpop. simpl in Hpop. injection Hpop as <- <- <- <-.
        right. right. rewrite H0, H1. simpl. unfold dict_mem. simpl.
        rewrite !String.eqb_refl. auto.
      * destruct H as [H0 H1]. right. right.
        destruct d; simpl; rewrite ?dict_mem_set, ?H0, ?H1;
          auto using orb_true_r.
  - rewrite (bidi_measure_dir st' d), (bidi_measure_dir st d).
    rewrite HD', HD, HFo, HF, sel_upd_same, !sel_upd_other.
    rewrite HF, sel_upd_same in HFd.
    rewrite (heappop_length _ _ _ Hpop).
    pose proof (unsettled_settle G (sel (dists st) d) v dist _
                  (has_node_adj _ _ Hnode) Hv). lia.
Qed.
Lemma bidi_loop_spec : forall fuel dir st v0 d0,
  bidi_inv G s t v0 d0 [] st -> bidi_head s t dir st -> s <> t ->
  (bidi_measure G st < fuel)%nat ->
  (bidi_loop fuel G dir st = Raise NetworkXNoPath /\ ~ connected G s t) \/
  (exists m p, bidi_loop fuel G dir st = Return (m, p) /\
               walk G s p t m /\
               forall q W, walk G s q t W -> m <= W).
Proof.
  induction fuel as [|fuel IH]; intros dir st v0 d0 I Hhead Hne Hfuel; [lia|].
  cbn [bidi_loop].
  destruct (fst (fringe st)) as [|e0 F0] eqn:E0.
  { left. split; auto.
    apply (bidi_nopath v0 d0 dir st false I Hhead Hne E0). }
  destruct (snd (fringe st)) as [|e1 F1] eqn:E1.
  { left. split; auto.
    apply (bidi_nopath v0 d0 dir st true I Hhead Hne E1). }
  destruct (heappop (sel (fringe st) (negb dir))) as [[[[dist c] v] rest]|] eqn:Epop.
  2:{ apply heappop_none in Epop.
      destruct dir; simpl in Epop; congruence. }
  cbn [dists paths fringe seen counter finaldist finalpath].
  destruct (dict_mem (sel (dists st) (negb dir)) v) eqn:Ev.
  { match goal with |- context [bidi_loop fuel G _ ?st1] =>
      destruct (bidi_skip v0 d0 dir st st1 dist c v rest I Hhead Epop Ev)
        as (I1 & Hhead1 & Hm1); try reflexivity;
      apply (IH _ st1 v0 d0 I1 Hhead1 Hne); lia
    end. }
  rewrite sel_upd_other.
  destruct (dict_mem (sel (dists st) (negb (negb dir))) v) eqn:Evo.
  { apply dict_mem_true in Evo. destruct Evo as [dv' Hdv'].
    destruct (bidi_meet_optimal v0 st (negb dir) dist c v rest dv')
      as (m & Hm & Hw & Hopt); auto.
    { destruct (bidi_search_nil v0 d0 st (negb dir) v0 I); constructor; auto.
      - intros dir'.
        pose proof (bidi_search_nil v0 d0 st dir' v0 I) as H.
        destruct (Bool.eqb dir' (negb dir)); exact H.
      - apply I.
      - apply I.
      - apply I.
      - apply I. }
    right. exists m, (finalpath st). rewrite Hm. auto. }
  match goal with |- context [for_each _ _ ?st2] =>
    destruct (bidi_settle v0 d0 dir st st2 dist c v rest I Hhead Hne Epop Ev Evo)
      as (nbrs & st' & Hg & Hrun & I' & Hhead' & Hm'); try reflexivity
  end.
  rewrite Hg, Hrun. cbn [bind].
  apply (IH _ st' v (negb dir) I' Hhead' Hne). lia.
Qed.

(** [bidirectional_dijkstra] on two distinct nodes of [G]: a shortest walk
    with its weight, or [NetworkXNoPath] when the nodes are not connected. *)
Lemma bidirectional_dijkstra_spec :
  has_node G s = true -> has_node G t = true -> s <> t ->
  (bidirectional_dijkstra G s t = Raise NetworkXNoPath /\ ~ connected G s t) \/
  (exists m p, bidirectional_dijkstra G s t = Return (m, p) /\
               walk G s p t m /\
               forall q W, walk G s q t W -> m <= W).
Proof.
  intros Hs Ht Hne. unfold bidirectional_dijkstra.
  rewrite Hs, Ht. cbn [negb].
  destruct (String.eqb s t) eqn:E.
  { apply String.eqb_eq in E. contradiction. }
  apply (bidi_loop_spec _ _ _ s false).
  - now apply bidi_inv_init.
  - split.
    + simpl. discriminate.
    + left. simpl. auto.
  - exact Hne.
  - unfold bidi_measure, search_fuel. simpl.
    pose proof (unsettled_bound G []). lia.
Qed.
(** What one relaxation does to the best meeting found so far: it leaves it,
    or replaces it by the meeting at the relaxed node, which is the first
    one or strictly shorter. *)
Lemma bidi_relax_final d v st w cost st' :
  bidi_relax d v st (w, cost) = Return st' ->
  (finaldist st' = finaldist st /\ finalpath st' = finalpath st) \/
  (exists s0 s1 p0 p1,
      dict_get (fst (seen st')) w = Some s0 /\
      dict_get (snd (seen st')) w = Some s1 /\
      dict_get (fst (paths st')) w = Some p0 /\
      dict_get (snd (paths st')) w = Some p1 /\
      finaldist st' = Some (s0 + s1) /\
      finalpath st' = p0 ++ tl (rev p1) /\
      (finalpath st = [] \/ exists fd, finaldist st = Some fd /\ s0 + s1 < fd)).
Proof.
  unfold bidi_relax.
  destruct (dict_get (sel (dists st) d) v) as [dv|]; [|discriminate].
  destruct (dict_get (sel (dists st) d) w) as [dw|].
  { destruct (dv + cost <? dw); [discriminate|]. intros [= <-]. now left. }
  destruct (match dict_get (sel (seen st) d) w with
            | None => true | Some sw => dv + cost <? sw end);
    [|intros [= <-]; now left].
  destruct (dict_get (sel (paths st) d) v) as [pv|]; [|discriminate].
  match goal with
  | |- match ?a with _ => _ end = _ -> _ => destruct a as [s0|] eqn:E0
  end.
  2:{ intros [= <-]. now left. }
  match goal with
  | |- match ?a with _ => _ end = _ -> _ => destruct a as [s1|] eqn:E1
  end.
  2:{ intros [= <-]. now left. }
  assert (Hwhy : forall better,
            match finalpath st with
            | [] => Return true
            | _ :: _ => match finaldist st with
                        | None => Raise UnboundLocalError
                        | Some fd => Return (fd >? s0 + s1)
                        end
            end = Return better -> better = true ->
            finalpath st = [] \/ exists fd, finaldist st = Some fd /\ s0 + s1 < fd).
  { intros better. destruct (finalpath st); [now left|].
    destruct (finaldist st) as [fd|]; [|discriminate].
    intros [= <-] Hgt. right. exists fd. split; auto. now apply Z.gtb_lt. }
  match goal with
  | |- bind ?b _ = _ -> _ => destruct b as [better| |]
  end; cbn [bind]; try discriminate.
  destruct better; [|intros [= <-]; now left].
  match goal with
  | |- match ?a with _ => _ end = _ -> _ => destruct a as [p1|] eqn:Ep1
  end; [|discriminate].
  match goal with
  | |- match ?a with _ => _ end = _ -> _ => destruct a as [p0|] eqn:Ep0
  end; [|discriminate].
  intros [= <-]. right. exists s0, s1, p0, p1.
  cbn [seen paths finaldist finalpath].
  split; [exact E0|]. split; [exact E1|]. split; [exact Ep0|].
  split; [exact Ep1|]. split; [reflexivity|]. split; [reflexivity|].
  now apply (Hwhy true).
Qed.

(** Once the best meeting is a shortest walk, relaxations leave it alone:
    a meeting replaces it only when strictly shorter. *)
Lemma bidi_relax_keeps d v dv w cost pend st m :
  bidi_inv G s t v d ((w, cost) :: pend) st ->
  dict_get (sel (dists st) d) v = Some dv ->
  (forall u du, dict_get (sel (dists st) d) u = Some du -> du <= dv) ->
  dict_get (adj G v) w = Some cost ->
  finaldist st = Some m -> (forall q W, walk G s q t W -> m <= W) ->
  exists st',
    bidi_relax d v st (w, cost) = Return st' /\
    bidi_inv G s t v d pend st' /\
    dists st' = dists st /\
    finaldist st' = Some m /\ finalpath st' = finalpath st.
Proof.
  intros I Hv Htop He Hm Hopt.
  destruct (bidi_relax_step d v dv w cost pend st I Hv Htop He)
    as (st' & Hrun & I' & HD & _).
  exists st'. split; [exact Hrun|]. split; [exact I'|]. split; [exact HD|].
  destruct (bidi_relax_final _ _ _ _ _ _ Hrun)
    as [[H1 H2] | (s0 & s1 & p0 & p1 & E0 & E1 & _ & _ & _ & _ & Hwhy)].
  - split; congruence.
  - exfalso.
    destruct (bi_paths _ _ _ _ _ _ _ I' false w s0 E0) as (q0 & _ & Hw0).
    destruct (bi_paths _ _ _ _ _ _ _ I' true w s1 E1) as (q1 & _ & Hw1).
    simpl in Hw0, Hw1.
    pose proof (Hopt _ _ (walk_join G Hwf _ _ _ _ Hw1 _ _ _ Hw0)) as Hle.
    destruct Hwhy as [Hnil | (fd & Hfd & Hlt)].
    + destruct (walk_hd _ _ _ _ _ (bi_final _ _ _ _ _ _ _ I _ Hm)) as [q Hq].
      congruence.
    + rewrite Hm in Hfd. injection Hfd as <-. lia.
Qed.

Lemma bidi_relax_all_keeps d v dv m : forall pend st,
  bidi_inv G s t v d pend st ->
  dict_get (sel (dists st) d) v = Some dv ->
  (forall u du, dict_get (sel (dists st) d) u = Some du -> du <= dv) ->
  (forall w cost, In (w, cost) pend -> dict_get (adj G v) w = Some cost) ->
  finaldist st = Some m -> (forall q W, walk G s q t W -> m <= W) ->
  exists st',
    for_each (bidi_relax d v) pend st = Return st' /\
    finaldist st' = Some m /\ finalpath st' = finalpath st.
Proof.
  induction pend as [|[w cost] pend IH]; intros st I Hv Htop Hin Hm Hopt.
  - exists st. simpl. auto.
  - assert (He : dict_get (adj G v) w = Some cost) by (apply Hin; now left).
    destruct (bidi_relax_keeps d v dv w cost pend st m I Hv Htop He Hm Hopt)
      as (st1 & H1 & I1 & HD1 & Hm1 & Hp1).
    cbn [for_each]. rewrite H1. cbn [bind].
    destruct (IH st1 I1) as (st' & H2 & Hm' & Hp'); auto.
    + now rewrite HD1.
    + now rewrite HD1.
    + intros; apply Hin; now right.
    + exists st'. split; [exact H2|]. split; [exact Hm'|]. congruence.
Qed.

(** The expansion of a node keeps a best meeting that is a shortest walk. *)
Lemma bidi_settle_keeps v0 d0 dir st st2 dist c v rest m :
  let d := negb dir in
  bidi_inv G s t v0 d0 [] st ->
  heappop (sel (fringe st) d) = Some ((dist, c, v), rest) ->
  dict_mem (sel (dists st) d) v = false ->
  dists st2 = upd (dists st) d (dict_set (sel (dists st) d) v dist) ->
  paths st2 = paths st -> seen st2 = seen st ->
  fringe st2 = upd (fringe st) d rest ->
  finaldist st2 = finaldist st -> finalpath st2 = finalpath st ->
  finaldist st = Some m -> (forall q W, walk G s q t W -> m <= W) ->
  forall st', for_each (bidi_relax d v) (adj G v) st2 = Return st' ->
              finaldist st' = Some m /\ finalpath st' = finalpath st.
Proof.
  intros d I Hpop Hv HD HP HS HF Hfd Hfp Hm Hopt st' Hrun.
  pose proof (bidi_search_nil _ _ _ d v0 I) as Id.
  destruct (pop_settle G _ v0 _ _ _ _ _ _ _ Id Hpop Hv) as (Id' & Hsv & Htop).
  assert (I2 : bidi_inv G s t v d (adj G v) st2).
  { constructor; rewrite ?HD, ?HP, ?HS, ?HF, ?Hfd, ?Hfp; try apply I.
    intros dir'. rewrite !sel_upd.
    destruct (Bool.eqb dir' d) eqn:E.
    - apply Bool.eqb_prop in E. now subst dir'.
    - apply (bidi_search_nil _ _ _ _ _ I). }
  destruct (bidi_relax_all_keeps d v dist m (adj G v) st2 I2)
    as (st'' & Hrun' & Hm' & Hp'); auto.
  { rewrite HD, sel_upd_same. apply dict_get_set_eq. }
  { rewrite HD, sel_upd_same. exact Htop. }
  { intros w cost Hin. apply In_dict_get; auto. apply (wf_nodup G Hwf). }
  { congruence. }
  rewrite Hrun in Hrun'. injection Hrun' as <-. split; congruence.
Qed.

(** From a state whose best meeting is a shortest walk, the loop returns
    that very meeting: later meetings of the same weight do not replace
    it. *)
Lemma bidi_loop_keeps : forall fuel dir st v0 d0 m,
  bidi_inv G s t v0 d0 [] st -> bidi_head s t dir st -> s <> t ->
  (bidi_measure G st < fuel)%nat ->
  finaldist st = Some m -> (forall q W, walk G s q t W -> m <= W) ->
  bidi_loop fuel G dir st = Return (m, finalpath st).
Proof.
  induction fuel as [|fuel IH]; intros dir st v0 d0 m I Hhead Hne Hfuel Hm Hopt;
    [lia|].
  assert (Hconn : connected G s t).
  { exists (finalpath st), m. apply (bi_final _ _ _ _ _ _ _ I _ Hm). }
  cbn [bidi_loop].
  destruct (fst (fringe st)) as [|e0 F0] eqn:E0.
  { exfalso. apply (bidi_nopath v0 d0 dir st false I Hhead Hne E0 Hconn). }
  destruct (snd (fringe st)) as [|e1 F1] eqn:E1.
  { exfalso. apply (bidi_nopath v0 d0 dir st true I Hhead Hne E1 Hconn). }
  destruct (heappop (sel (fringe st) (negb dir))) as [[[[dist c] v] rest]|] eqn:Epop.
  2:{ apply heappop_none in Epop.
      destruct dir; simpl in Epop; congruence. }
  cbn [dists paths fringe seen counter finaldist finalpath].
  destruct (dict_mem (sel (dists st) (negb dir)) v) eqn:Ev.
  { match goal with |- bidi_loop fuel G _ ?st1 = _ =>
      destruct (bidi_skip v0 d0 dir st st1 dist c v rest I Hhead Epop Ev)
        as (I1 & Hhead1 & Hm1); try reflexivity;
      apply (IH _ st1 v0 d0 m I1 Hhead1 Hne); auto; lia
    end. }
  rewrite sel_upd_other.
  destruct (dict_mem (sel (dists st) (negb (negb dir))) v) eqn:Evo.
  { rewrite Hm. reflexivity. }
  match goal with |- context [for_each _ _ ?st2] =>
    destruct (bidi_settle v0 d0 dir st st2 dist c v rest I Hhead Hne Epop Ev Evo)
      as (nbrs & st' & Hg & Hrun & I' & Hhead' & Hm'); try reflexivity;
    assert (Hnb : nbrs = adj G v) by (unfold adj; now rewrite Hg);
    subst nbrs;
    destruct (bidi_settle_keeps v0 d0 dir st st2 dist c v rest m I Epop Ev)
      with (st' := st') as [Hfd' Hfp']; try reflexivity; auto
  end.
  rewrite Hg, Hrun. cbn [bind].
  rewrite <- Hfp'.
  apply (IH _ st' v (negb dir) m I' Hhead' Hne); auto. lia.
Qed.

(** One iteration that expands a node, spelled out: the loop goes on from
    the state after the relaxations, where the invariants hold again. *)
Lemma bidi_loop_expand fuel v0 d0 dir st dist c v rest nbrs st' :
  bidi_inv G s t v0 d0 [] st -> bidi_head s t dir st -> s <> t ->
  fst (fringe st) <> [] -> snd (fringe st) <> [] ->
  heappop (sel (fringe st) (negb dir)) = Some ((dist, c, v), rest) ->
  dict_mem (sel (dists st) (negb dir)) v = false ->
  dict_mem (sel (dists st) dir) v = false ->
  dict_get G v = Some nbrs ->
  for_each (bidi_relax (negb dir) v) nbrs
    (mkBi (upd (dists st) (negb dir) (dict_set (sel (dists st) (negb dir)) v dist))
          (paths st) (upd (fringe st) (negb dir) rest) (seen st) (counter st)
          (finaldist st) (finalpath st)) = Return st' ->
  bidi_loop (S fuel) G dir st = bidi_loop fuel G (negb dir) st' /\
  bidi_inv G s t v (negb dir) [] st' /\ bidi_head s t (negb dir) st' /\
  (bidi_measure G st' < bidi_measure G st)%nat.
Proof.
  intros I Hhead Hne H0 H1 Hpop Hv Hvo Hg Hrun.
  assert (Hvo' : dict_mem (sel (dists st) (negb (negb dir))) v = false)
    by now rewrite negb_involutive.
  match type of Hrun with for_each _ _ ?st2 = _ =>
    destruct (bidi_settle v0 d0 dir st st2 dist c v rest I Hhead Hne Hpop Hv Hvo')
      as (nbrs' & st'' & Hg' & Hrun' & I' & Hhead' & Hm'); try reflexivity
  end.
  rewrite Hg in Hg'. injection Hg' as <-.
  rewrite Hrun in Hrun'. injection Hrun' as <-.
  split; [|auto].
  cbn [bidi_loop].
  destruct (fst (fringe st)); [contradiction|].
  destruct (snd (fringe st)); [contradiction|].
  rewrite Hpop.
  cbn [dists paths fringe seen counter finaldist finalpath].
  rewrite Hv, sel_upd_other, Hvo', Hg, Hrun. reflexivity.
Qed.
End Bidirectional.

(** ** Graph construction *)

Lemma has_node_dict_set (G : Graph) u a k :
  has_node (dict_set G u a) k = String.eqb u k || has_node G k.
Proof. apply dict_mem_set. Qed.

Lemma adj_dict_set (G : Graph) u a k :
  adj (dict_set G u a) k = if String.eqb u k then a else adj G k.
Proof.
  unfold adj. rewrite dict_get_set. destruct (String.eqb u k); reflexivity.
Qed.

Lemma has_node_add_node G n k :
  has_node (add_node G n) k = String.eqb n k || has_node G k.
Proof.
  unfold add_node. destruct (dict_mem G n) eqn:E.
  - destruct (String.eqb n k) eqn:E'; auto.
    apply String.eqb_eq in E'. subst k. exact E.
  - apply has_node_dict_set.
Qed.

Lemma adj_add_node G n k : adj (add_node G n) k = adj G k.
Proof.
  unfold add_node. destruct (dict_mem G n) eqn:E; auto.
  rewrite adj_dict_set. destruct (String.eqb n k) eqn:E'; auto.
  apply String.eqb_eq in E'. subst k.
  unfold adj. apply dict_mem_false in E. now rewrite E.
Qed.

Lemma add_node_nodes G n :
  NoDup (dict_keys G) -> NoDup (dict_keys (add_node G n)).
Proof.
  unfold add_node. destruct (dict_mem G n); auto using dict_set_nodup.
Qed.

Lemma has_node_add_edge G u v w k :
  has_node (add_edge G u v w) k =
  String.eqb u k || String.eqb v k || has_node G k.
Proof.
  unfold add_edge. rewrite !has_node_dict_set, !has_node_add_node.
  destruct (String.eqb u k), (String.eqb v k), (has_node G k); reflexivity.
Qed.

Lemma get_adj_add_edge G u v w a b :
  dict_get (adj (add_edge G u v w) a) b =
  if (String.eqb u a && String.eqb v b) || (String.eqb v a && String.eqb u b)
  then Some w else dict_get (adj G a) b.
Proof.
  unfold add_edge. rewrite !adj_dict_set, !adj_add_node.
  destruct (String.eqb v a) eqn:Eva.
  - rewrite dict_get_set.
    destruct (String.eqb u b) eqn:Eub; [now rewrite orb_true_r|].
    rewrite orb_false_r. apply String.eqb_eq in Eva. subst a.
    destruct (String.eqb u v) eqn:Euv; simpl.
    + rewrite dict_get_set. apply String.eqb_eq in Euv. subst v.
      rewrite Eub. reflexivity.
    + reflexivity.
  - rewrite orb_false_r.
    destruct (String.eqb u a) eqn:Eua; simpl; auto.
    rewrite dict_get_set. apply String.eqb_eq in Eua. subst a.
    destruct (String.eqb v b); reflexivity.
Qed.

Lemma add_edge_nodes G u v w :
  NoDup (dict_keys G) -> NoDup (dict_keys (add_edge G u v w)).
Proof.
  intros H. unfold add_edge. now do 2 apply dict_set_nodup; do 2 apply add_node_nodes.
Qed.

Lemma adj_add_edge_nodup G u v w a :
  NoDup (dict_keys (adj G a)) -> NoDup (dict_keys (adj (add_edge G u v w) a)).
Proof.
  intros H. unfold add_edge. rewrite !adj_dict_set, !adj_add_node.
  destruct (String.eqb v a) eqn:Eva.
  - apply dict_set_nodup. apply String.eqb_eq in Eva. subst a.
    destruct (String.eqb u v) eqn:Euv; auto.
    apply dict_set_nodup. apply String.eqb_eq in Euv. now subst v.
  - destruct (String.eqb u a) eqn:Eua; auto.
    apply dict_set_nodup. apply String.eqb_eq in Eua. now subst a.
Qed.

Lemma wf_empty : wf_graph [].
Proof.
  constructor; simpl; try discriminate.
  - constructor.
  - intros u. constructor.
Qed.

Lemma wf_add_node G n : wf_graph G -> wf_graph (add_node G n).
Proof.
  intros [W0 W1 W2 W3 W4]. constructor.
  - now apply add_node_nodes.
  - intros u. rewrite adj_add_node. auto.
  - intros u v c. rewrite adj_add_node, has_node_add_node. intros H.
    rewrite (W2 _ _ _ H). apply orb_true_r.
  - intros u v c. rewrite !adj_add_node. auto.
  - intros u v c. rewrite adj_add_node. eauto.
Qed.

Lemma wf_add_edge G u v w : 0 <= w -> wf_graph G -> wf_graph (add_edge G u v w).
Proof.
  intros Hw [W0 W1 W2 W3 W4]. constructor.
  - now apply add_edge_nodes.
  - intros a. now apply adj_add_edge_nodup.
  - intros a b c. rewrite get_adj_add_edge, has_node_add_edge.
    destruct (String.eqb u a && String.eqb v b || String.eqb v a && String.eqb u b)
      eqn:E.
    + intros _. apply orb_true_iff in E as [E|E];
        apply andb_true_iff in E as [E1 E2]; rewrite E2;
        rewrite ?orb_true_r; reflexivity.
    + intros H. rewrite (W2 _ _ _ H). apply orb_true_r.
  - intros a b c. rewrite !get_adj_add_edge.
    rewrite (orb_comm (String.eqb u b && String.eqb v a)).
    rewrite (andb_comm (String.eqb v b)), (andb_comm (String.eqb u b)).
    destruct (String.eqb u a && String.eqb v b || String.eqb v a && String.eqb u b);
      auto.
  - intros a b c. rewrite get_adj_add_edge.
    destruct (String.eqb u a && String.eqb v b || String.eqb v a && String.eqb u b).
    + intros [= <-]. exact Hw.
    + eauto.
Qed.

Lemma nodupb_sound l : nodupb l = true -> NoDup l.
Proof.
  induction l as [|x l IH]; simpl; [constructor|].
  intros H. apply andb_true_iff in H as [H1 H2]. constructor; auto.
  intros Hin. apply negb_true_iff in H1.
  assert (existsb (String.eqb x) l = true); [|congruence].
  apply existsb_exists. exists x. split; auto. apply String.eqb_refl.
Qed.

Lemma wf_graphb_sound G : wf_graphb G = true -> wf_graph G.
Proof.
  unfold wf_graphb. intros H. apply andb_true_iff in H as [H0 H].
  rewrite forallb_forall in H.
  assert (Hadj : forall u, adj G u = [] \/ In (u, adj G u) G).
  { intros u. unfold adj. destruct (dict_get G u) eqn:E; auto.
    right. now apply dict_get_In. }
  assert (Hedge : forall u v c, dict_get (adj G u) v = Some c ->
            0 <= c /\ has_node G v = true /\ dict_get (adj G v) u = Some c).
  { intros u v c Hg. destruct (Hadj u) as [E|Hin].
    - rewrite E in Hg. discriminate.
    - specialize (H _ Hin). simpl in H. apply andb_true_iff in H as [_ H].
      rewrite forallb_forall in H. specialize (H _ (dict_get_In _ _ _ Hg)).
      simpl in H. apply andb_true_iff in H as [H Hs].
      apply andb_true_iff in H as [Hc Hn].
      destruct (dict_get (adj G v) u) as [c'|]; [|discriminate].
      apply Z.eqb_eq in Hs. subst c'. split; [lia|auto]. }
  constructor.
  - now apply nodupb_sound.
  - intros u. destruct (Hadj u) as [->|Hin]; [constructor|].
    specialize (H _ Hin). simpl in H. apply andb_true_iff in H as [H _].
    now apply nodupb_sound.
  - intros u v c Hg. apply (Hedge _ _ _ Hg).
  - intros u v c Hg. apply (Hedge _ _ _ Hg).
  - intros u v c Hg. apply (Hedge _ _ _ Hg).
Qed.

(** ** Counting edges *)

Lemma total_degree_set G k a a' :
  dict_get G k = Some a ->
  (total_degree (dict_set G k a') + deg_entry (k, a) =
   total_degree G + deg_entry (k, a'))%nat.
Proof.
  unfold total_degree.
  induction G as [|[k0 a0] G IH]; simpl; [discriminate|].
  destruct (String.eqb k0 k) eqn:E.
  - apply String.eqb_eq in E. subst k0. intros [= ->]. simpl. lia.
  - intros H. specialize (IH H). simpl. lia.
Qed.

Lemma total_degree_set_new G k a' :
  dict_get G k = None ->
  (total_degree (dict_set G k a') = total_degree G + deg_entry (k, a'))%nat.
Proof.
  unfold total_degree.
  induction G as [|[k0 a0] G IH]; simpl; [lia|].
  destruct (String.eqb k0 k) eqn:E; [discriminate|].
  intros H. specialize (IH H). simpl. lia.
Qed.

Lemma total_degree_add_node G n : total_degree (add_node G n) = total_degree G.
Proof.
  unfold add_node. destruct (dict_mem G n) eqn:E; auto.
  apply dict_mem_false in E. rewrite (total_degree_set_new _ _ _ E).
  unfold deg_entry. simpl. lia.
Qed.

Lemma total_degree_add_edge G u v w :
  has_node G u = true -> has_node G v = true ->
  has_edge G u v = has_edge G v u ->
  (total_degree (add_edge G u v w) =
   total_degree G + (if has_edge G u v then 0 else 2))%nat.
Proof.
  intros Hu Hv Hsym. unfold add_edge.
  set (G2 := add_node (add_node G u) v).
  assert (HG2 : total_degree G2 = total_degree G).
  { unfold G2. now rewrite !total_degree_add_node. }
  assert (Hadj2 : forall k, adj G2 k = adj G k).
  { intros k. unfold G2. now rewrite !adj_add_node. }
  assert (Hu2 : dict_get G2 u = Some (adj G u)).
  { rewrite <- Hadj2. apply has_node_adj. unfold G2.
    rewrite !has_node_add_node, Hu. now rewrite !orb_true_r. }
  rewrite Hadj2.
  set (G3 := dict_set G2 u (dict_set (adj G u) v w)).
  pose proof (total_degree_set G2 u _ (dict_set (adj G u) v w) Hu2) as H3.
  fold G3 in H3.
  assert (Hv3 : dict_get G3 v = Some (adj G3 v)).
  { apply has_node_adj. unfold G3, G2.
    rewrite has_node_dict_set, !has_node_add_node, Hv. now rewrite !orb_true_r. }
  pose proof (total_degree_set G3 v _ (dict_set (adj G3 v) u w) Hv3) as H4.
  assert (Hadj3 : adj G3 v = if String.eqb u v then dict_set (adj G u) v w
                             else adj G v).
  { unfold G3. rewrite adj_dict_set, Hadj2. reflexivity. }
  rewrite Hadj3 in H4 |- *.
  unfold has_edge in *. unfold deg_entry in *. cbn [fst snd] in *.
  rewrite HG2 in H3. clear HG2 Hu2 Hv3 Hadj3 Hadj2.
  destruct (String.eqb u v) eqn:Euv.
  - apply String.eqb_eq in Euv. subst v.
    rewrite !dict_set_length, !dict_mem_set, !String.eqb_refl in *.
    cbn [orb] in *.
    destruct (dict_mem (adj G u) u); lia.
  - rewrite !dict_set_length, !dict_mem_set in *.
    assert (Evu : String.eqb v u = false).
    { apply String.eqb_neq. apply String.eqb_neq in Euv. congruence. }
    rewrite Euv, Evu in *. cbn [orb] in *.
    rewrite Hsym in *.
    destruct (dict_mem (adj G v) u), (dict_mem (adj G u) u),
      (dict_mem (adj G v) v); lia.
Qed.

Lemma sum_degrees_total G :
  NoDup (dict_keys G) ->
  list_sum (map (degree G) (dict_keys G)) = total_degree G.
Proof.
  unfold total_degree, dict_keys. intros Hnd.
  rewrite map_map. f_equal.
  apply map_ext_in. intros [k a] Hin.
  unfold degree, deg_entry, has_edge, adj. simpl.
  now rewrite (In_dict_get _ _ _ Hnd Hin).
Qed.

Lemma same_link_flip x y c : same_link (x, y) c = same_link (y, x) c.
Proof.
  unfold same_link. simpl.
  destruct (String.eqb x (fst c)), (String.eqb y (snd c)),
    (String.eqb x (snd c)), (String.eqb y (fst c)); reflexivity.
Qed.

Lemma existsb_same_link_flip x y l :
  existsb (same_link (x, y)) l = existsb (same_link (y, x)) l.
Proof.
  induction l as [|c l IH]; simpl; auto.
  now rewrite IH, same_link_flip.
Qed.

Lemma known_links_cons {C} (coordinates : dict C) u v cs :
  known_links coordinates ((u, v) :: cs) =
  if dict_mem coordinates u && dict_mem coordinates v
  then (u, v) :: known_links coordinates cs
  else known_links coordinates cs.
Proof. reflexivity. Qed.

Lemma same_link_spec a b :
  same_link a b = true <->
  (fst a = fst b /\ snd a = snd b) \/ (fst a = snd b /\ snd a = fst b).
Proof.
  unfold same_link. rewrite orb_true_iff, !andb_true_iff, !String.eqb_eq.
  reflexivity.
Qed.

Lemma same_link_absorb p c seen :
  existsb (same_link c) seen = true ->
  existsb (same_link p) (c :: seen) = existsb (same_link p) seen.
Proof.
  intros H. simpl. destruct (same_link p c) eqn:E; auto. simpl.
  symmetry. apply existsb_exists in H as (c' & Hin & Hc').
  apply existsb_exists. exists c'. split; auto.
  apply same_link_spec in E, Hc'. apply same_link_spec.
  destruct E as [[E1 E2]|[E1 E2]], Hc' as [[H1 H2]|[H1 H2]];
    rewrite E1, E2; rewrite <- ?H1, <- ?H2; auto.
Qed.

Lemma has_edge_add_edge G u v w x y :
  has_edge (add_edge G u v w) x y = same_link (x, y) (u, v) || has_edge G x y.
Proof.
  unfold has_edge, dict_mem. rewrite get_adj_add_edge.
  unfold same_link. simpl.
  rewrite (String.eqb_sym u x), (String.eqb_sym v y),
    (String.eqb_sym v x), (String.eqb_sym u y).
  destruct (String.eqb x u && String.eqb y v || String.eqb x v && String.eqb y u);
    reflexivity.
Qed.

(** ** build_flight_graph *)

Section Build.
Variable pyfloat : Type.
Variable haversine : pyfloat * pyfloat -> pyfloat * pyfloat -> Z.
Variable coordinates : dict (coord pyfloat).

Local Abbreviation step := (add_connection pyfloat haversine coordinates).

Lemma add_connection_known G u v :
  dict_mem coordinates u && dict_mem coordinates v = true ->
  exists w, step G (u, v) = add_edge G u v w /\
            exists c1 c2, w = haversine c1 c2.
Proof.
  unfold add_connection, dict_mem, calculate_haversine_distance.
  destruct (dict_get coordinates u) as [c1|]; [|discriminate].
  destruct (dict_get coordinates v) as [c2|]; [|discriminate].
  intros _. eauto.
Qed.

Lemma add_connection_unknown G u v :
  dict_mem coordinates u && dict_mem coordinates v = false ->
  step G (u, v) = G.
Proof.
  unfold add_connection, dict_mem.
  destruct (dict_get coordinates u) as [c1|]; auto.
  destruct (dict_get coordinates v) as [c2|]; auto. discriminate.
Qed.

Lemma nodes_of_keys (keys : list string) : forall G n,
  has_node (fold_left add_node keys G) n =
  existsb (fun k => String.eqb k n) keys || has_node G n.
Proof.
  induction keys as [|k keys IH]; intros G n; simpl; auto.
  rewrite IH, has_node_add_node.
  destruct (String.eqb k n), (existsb (fun k0 => String.eqb k0 n) keys);
    reflexivity.
Qed.

Lemma wf_of_keys (keys : list string) : forall G,
  wf_graph G -> wf_graph (fold_left add_node keys G).
Proof.
  induction keys as [|k keys IH]; intros G H; simpl; auto using wf_add_node.
Qed.

Lemma total_of_keys (keys : list string) : forall G,
  total_degree (fold_left add_node keys G) = total_degree G.
Proof.
  induction keys as [|k keys IH]; intros G; simpl; auto.
  now rewrite IH, total_degree_add_node.
Qed.

Lemma edges_of_keys (keys : list string) : forall G x y,
  has_edge (fold_left add_node keys G) x y = has_edge G x y.
Proof.
  induction keys as [|k keys IH]; intros G x y; simpl; auto.
  rewrite IH. unfold has_edge. now rewrite adj_add_node.
Qed.

Lemma existsb_keys (n : string) :
  existsb (fun k => String.eqb k n) (dict_keys coordinates) =
  dict_mem coordinates n.
Proof.
  unfold dict_keys, dict_mem.
  induction coordinates as [|[k c] d IH]; simpl; auto.
  destruct (String.eqb k n); auto.
Qed.

(** What the loop over the connections keeps and adds. *)
Lemma connections_fold : forall conns G seen,
  (forall k, dict_mem coordinates k = true -> has_node G k = true) ->
  (forall x y, has_edge G x y = existsb (same_link (x, y)) seen) ->
  let G' := fold_left step conns G in
  (forall n, has_node G' n = has_node G n) /\
  (forall x y, has_edge G' x y =
               existsb (same_link (x, y)) (known_links coordinates conns) ||
               has_edge G x y) /\
  (total_degree G' =
   total_degree G +
   2 * length (distinct_links seen (known_links coordinates conns)))%nat.
Proof.
  induction conns as [|[u v] conns IH]; intros G seen Hnodes Hedges.
  - simpl. repeat split; auto.
  - cbn [fold_left]. rewrite known_links_cons.
    destruct (dict_mem coordinates u && dict_mem coordinates v) eqn:Ek.
    + destruct (add_connection_known G u v Ek) as (w & -> & _).
      apply andb_true_iff in Ek as [Eu Ev].
      pose proof (Hnodes _ Eu) as Hu. pose proof (Hnodes _ Ev) as Hv.
      assert (Hn1 : forall n, has_node (add_edge G u v w) n = has_node G n).
      { intros n. rewrite has_node_add_edge.
        destruct (String.eqb u n) eqn:E1.
        { apply String.eqb_eq in E1. subst n. now rewrite Hu. }
        destruct (String.eqb v n) eqn:E2; auto.
        apply String.eqb_eq in E2. subst n. now rewrite Hv. }
      assert (Hsym : has_edge G u v = has_edge G v u).
      { rewrite !Hedges. apply existsb_same_link_flip. }
      pose proof (total_degree_add_edge G u v w Hu Hv Hsym) as Htot.
      cbn [distinct_links].
      rewrite <- (Hedges u v).
      destruct (has_edge G u v) eqn:Ee.
      * destruct (IH (add_edge G u v w) seen) as (H1 & H2 & H3).
        { intros k Hk. rewrite Hn1. auto. }
        { intros x y. rewrite has_edge_add_edge, Hedges.
          apply (same_link_absorb (x, y) (u, v) seen).
          now rewrite <- Hedges. }
        split; [|split].
        -- intros n. now rewrite H1.
        -- intros x y. rewrite H2, has_edge_add_edge. simpl.
           destruct (same_link (x, y) (u, v)); simpl; auto.
           now rewrite orb_true_r.
        -- rewrite H3, Htot. lia.
      * destruct (IH (add_edge G u v w) ((u, v) :: seen)) as (H1 & H2 & H3).
        { intros k Hk. rewrite Hn1. auto. }
        { intros x y. rewrite has_edge_add_edge, Hedges. reflexivity. }
        split; [|split].
        -- intros n. now rewrite H1.
        -- intros x y. rewrite H2, has_edge_add_edge. simpl.
           destruct (same_link (x, y) (u, v)); simpl; auto.
           now rewrite orb_true_r.
        -- rewrite H3, Htot. simpl length. lia.
    + rewrite (add_connection_unknown G u v Ek).
      apply (IH G seen Hnodes Hedges).
Qed.

Lemma connections_wf : forall conns G,
  (forall a b, 0 <= haversine a b) ->
  wf_graph G -> wf_graph (fold_left step conns G).
Proof.
  induction conns as [|[u v] conns IH]; intros G Hh HG; cbn [fold_left]; auto.
  apply IH; auto.
  destruct (dict_mem coordinates u && dict_mem coordinates v) eqn:Ek.
  - destruct (add_connection_known G u v Ek) as (w & -> & c1 & c2 & ->).
    apply wf_add_edge; auto.
  - now rewrite (add_connection_unknown G u v Ek).
Qed.

Lemma build_has_node connections n :
  has_node (build_flight_graph pyfloat haversine coordinates connections) n =
  dict_mem coordinates n.
Proof.
  unfold build_flight_graph.
  destruct (connections_fold connections
              (fold_left add_node (dict_keys coordinates) []) [])
    as (H1 & _).
  - intros k Hk. now rewrite nodes_of_keys, existsb_keys, Hk.
  - intros x y. now rewrite edges_of_keys.
  - rewrite H1, nodes_of_keys, existsb_keys. apply orb_false_r.
Qed.

Lemma build_has_edge connections x y :
  has_edge (build_flight_graph pyfloat haversine coordinates connections) x y =
  existsb (same_link (x, y)) (known_links coordinates connections).
Proof.
  unfold build_flight_graph.
  destruct (connections_fold connections
              (fold_left add_node (dict_keys coordinates) []) [])
    as (_ & H2 & _).
  - intros k Hk. now rewrite nodes_of_keys, existsb_keys, Hk.
  - intros x' y'. now rewrite edges_of_keys.
  - rewrite H2, edges_of_keys. apply orb_false_r.
Qed.

Lemma build_wf connections :
  (forall a b, 0 <= haversine a b) ->
  wf_graph (build_flight_graph pyfloat haversine coordinates connections).
Proof.
  intros Hh. unfold build_flight_graph.
  apply connections_wf; auto. apply wf_of_keys. apply wf_empty.
Qed.

Lemma build_nodes_nodup connections :
  NoDup (dict_keys
           (build_flight_graph pyfloat haversine coordinates connections)).
Proof.
  unfold build_flight_graph.
  assert (H0 : NoDup (dict_keys (fold_left add_node (dict_keys coordinates) []))).
  { apply wf_nodes. apply wf_of_keys. apply wf_empty. }
  revert H0. generalize (fold_left add_node (dict_keys coordinates) []).
  induction connections as [|[u v] conns IH]; intros G HG; cbn [fold_left]; auto.
  apply IH.
  destruct (dict_mem coordinates u && dict_mem coordinates v) eqn:Ek.
  - destruct (add_connection_known G u v Ek) as (w & E & _).
    rewrite E. now apply add_edge_nodes.
  - now rewrite (add_connection_unknown G u v Ek).
Qed.

Lemma build_number_of_edges connections :
  number_of_edges
    (build_flight_graph pyfloat haversine coordinates connections) =
  length (distinct_links [] (known_links coordinates connections)).
Proof.
  unfold number_of_edges.
  rewrite sum_degrees_total by apply build_nodes_nodup.
  unfold build_flight_graph.
  destruct (connections_fold connections
              (fold_left add_node (dict_keys coordinates) []) [])
    as (_ & _ & H3).
  - intros k Hk. now rewrite nodes_of_keys, existsb_keys, Hk.
  - intros x' y'. now rewrite edges_of_keys.
  - rewrite H3, total_of_keys.
    change (total_degree []) with 0%nat.
    rewrite Nat.add_0_l, Nat.mul_comm. apply Nat.div_mul. discriminate.
Qed.
End Build.

(** ** Parsing *)

Section Parse.
Variable pyfloat : Type.
Variable float_of_text : string -> option pyfloat.

Lemma city_row_entry coordinates cells :
  city_row pyfloat float_of_text coordinates cells =
  match row_entry pyfloat float_of_text cells with
  | Some (city, c) => dict_set coordinates city c
  | None => coordinates
  end.
Proof.
  unfold city_row, row_entry.
  destruct cells as [|city [|lat [|lon rest]]]; auto.
  destruct (float_of_text lat); auto.
  destruct (float_of_text lon); auto.
Qed.

Lemma city_rows_keep name : forall rows coordinates,
  (forall r c, In r rows -> row_entry pyfloat float_of_text r <> Some (name, c)) ->
  dict_get (fold_left (city_row pyfloat float_of_text) rows coordinates) name =
  dict_get coordinates name.
Proof.
  induction rows as [|r rows IH]; intros coordinates H; simpl; auto.
  rewrite IH by (intros; apply H; now right).
  rewrite city_row_entry.
  destruct (row_entry pyfloat float_of_text r) as [[city c]|] eqn:E; auto.
  apply dict_get_set_ne. intros ->. apply (H r c); [now left | exact E].
Qed.

Lemma city_rows_nodup : forall rows coordinates,
  NoDup (dict_keys coordinates) ->
  NoDup (dict_keys (fold_left (city_row pyfloat float_of_text) rows coordinates)).
Proof.
  induction rows as [|r rows IH]; intros coordinates H; simpl; auto.
  apply IH. rewrite city_row_entry.
  destruct (row_entry pyfloat float_of_text r) as [[city c]|]; auto.
  now apply dict_set_nodup.
Qed.

End Parse.

(** ** The fringe order: least distance first, then least counter *)

Lemma entry_lt_irrefl e : entry_lt e e = false.
Proof.
  destruct e as [[d c] n]. unfold entry_lt.
  rewrite Z.ltb_irrefl, Nat.ltb_irrefl, andb_false_r. reflexivity.
Qed.

Lemma entry_lt_trans_ge a b x :
  entry_lt a b = true -> entry_lt x b = false -> entry_lt x a = false.
Proof.
  destruct a as [[d1 c1] n1], b as [[d2 c2] n2], x as [[d3 c3] n3].
  unfold entry_lt. intros H1 H2.
  apply orb_true_iff in H1. apply orb_false_iff in H2 as [H2 H3].
  apply Z.ltb_ge in H2. apply orb_false_iff. split.
  - apply Z.ltb_ge. destruct H1 as [H1|H1].
    + apply Z.ltb_lt in H1. lia.
    + apply andb_true_iff in H1 as [H1 _]. apply Z.eqb_eq in H1. lia.
  - apply andb_false_iff.
    destruct (Z.eqb_spec d3 d1) as [->|Hne]; [right | now left].
    apply Nat.ltb_ge.
    destruct H1 as [H1|H1].
    + apply Z.ltb_lt in H1. lia.
    + apply andb_true_iff in H1 as [H1 H1']. apply Z.eqb_eq in H1. subst d2.
      apply Nat.ltb_lt in H1'. rewrite Z.eqb_refl in H3. simpl in H3.
      apply Nat.ltb_ge in H3. lia.
Qed.

(** [heappop] returns an entry that no entry of the heap precedes. *)
Lemma heappop_least h e r :
  heappop h = Some (e, r) -> forall x, In x h -> entry_lt x e = false.
Proof.
  revert e r. induction h as [|a h IH]; simpl; [discriminate|].
  intros e r. destruct (heappop h) as [[m r']|] eqn:E.
  - specialize (IH _ _ eq_refl).
    destruct (entry_lt a m) eqn:Hlt; intros [= <- <-] x [<-|Hx].
    + apply entry_lt_irrefl.
    + eapply entry_lt_trans_ge; eauto.
    + exact Hlt.
    + auto.
  - apply heappop_none in E. subst h. intros [= <- <-] x [<-|[]].
    apply entry_lt_irrefl.
Qed.

Lemma entry_not_lt_same_key a b :
  entry_lt a b = false -> entry_lt b a = false ->
  fst (fst a) = fst (fst b) /\ snd (fst a) = snd (fst b).
Proof.
  destruct a as [[d1 c1] n1], b as [[d2 c2] n2]. unfold entry_lt. simpl.
  intros H1 H2.
  apply orb_false_iff in H1 as [H1 H1'], H2 as [H2 H2'].
  apply Z.ltb_ge in H1, H2. assert (d1 = d2) by lia. subst d2.
  rewrite Z.eqb_refl in H1', H2'. simpl in H1', H2'.
  apply Nat.ltb_ge in H1', H2'. split; [reflexivity | lia].
Qed.

Lemma counters_unique h a b :
  NoDup (counters h) -> In a h -> In b h -> snd (fst a) = snd (fst b) -> a = b.
Proof.
  unfold counters. induction h as [|x h IH]; simpl; [tauto|].
  intros Hnd Ha Hb Heq. inversion Hnd as [|? ? Hnotin Hnd']; subst.
  destruct Ha as [<-|Ha], Hb as [<-|Hb]; auto.
  - exfalso. apply Hnotin. rewrite Heq.
    now apply (in_map (fun e : entry => snd (fst e))).
  - exfalso. apply Hnotin. rewrite <- Heq.
    now apply (in_map (fun e : entry => snd (fst e))).
Qed.

(** With distinct counters the popped entry does not depend on the layout. *)
Lemma heappop_perm h h' e r :
  Permutation h h' -> NoDup (counters h) ->
  heappop h = Some (e, r) ->
  exists r', heappop h' = Some (e, r') /\ Permutation r r'.
Proof.
  intros Hp Hnd Hpop.
  destruct (heappop h') as [[e' r']|] eqn:Hpop'.
  - destruct (heappop_spec _ _ _ Hpop) as [Hperm _].
    destruct (heappop_spec _ _ _ Hpop') as [Hperm' _].
    assert (Hin : In e h).
    { apply (Permutation_in _ (Permutation_sym Hperm)). now left. }
    assert (Hin' : In e' h).
    { apply (Permutation_in _ (Permutation_sym Hp)).
      apply (Permutation_in _ (Permutation_sym Hperm')). now left. }
    pose proof (heappop_least _ _ _ Hpop _ Hin') as H1.
    pose proof (heappop_least _ _ _ Hpop' _ (Permutation_in _ Hp Hin)) as H2.
    destruct (entry_not_lt_same_key _ _ H1 H2) as [_ Hc].
    assert (e' = e) by (eapply counters_unique; eauto). subst e'.
    exists r'. split; auto.
    apply Permutation_cons_inv with (a := e).
    rewrite <- Hperm, <- Hperm'. exact Hp.
  - apply heappop_none in Hpop'. subst h'.
    apply Permutation_sym, Permutation_nil in Hp. subst h. discriminate.
Qed.

Lemma fresh_heap_perm c h h' :
  Permutation h h' -> fresh_heap c h -> fresh_heap c h'.
Proof.
  intros Hp [H1 H2].
  assert (Hc : Permutation (counters h) (counters h')) by now apply Permutation_map.
  split.
  - eapply Permutation_NoDup; eauto.
  - intros x Hx. apply H2.
    apply (Permutation_in _ (Permutation_sym Hc) Hx).
Qed.

Lemma fresh_heap_tail c e h : fresh_heap c (e :: h) -> fresh_heap c h.
Proof.
  intros [H1 H2]. simpl in *. inversion H1; subst. split; auto.
Qed.

Lemma fresh_heap_push c d n h :
  fresh_heap c h -> fresh_heap (S c) (heappush h (d, c, n)).
Proof.
  intros [H1 H2]. unfold heappush. split; simpl.
  - constructor; auto. intros Hin. specialize (H2 _ Hin). lia.
  - intros x [<-|Hx]; [lia|]. specialize (H2 _ Hx). lia.
Qed.

Lemma fresh_heap_mono c h : fresh_heap c h -> fresh_heap (S c) h.
Proof.
  intros [H1 H2]. split; auto. intros x Hx. specialize (H2 _ Hx). lia.
Qed.

Lemma bidi_relax_layout d v wd st st' :
  same_up_to_layout st st' ->
  outcome_rel same_up_to_layout (bidi_relax d v st wd) (bidi_relax d v st' wd).
Proof.
  destruct st as [D P [F0 F1] S c fd fp], st' as [D' P' [F0' F1'] S' c' fd' fp'].
  unfold same_up_to_layout. simpl.
  intros (<- & <- & <- & <- & <- & <- & Hp0 & Hp1).
  destruct wd as [w cost]. unfold bidi_relax. simpl.
  destruct d; simpl;
    repeat match goal with
           | |- context [match ?x with _ => _ end] => destruct x eqn:?; simpl
           end;
    auto; repeat split; auto; unfold heappush; auto.
Qed.

Lemma bidi_relax_fresh d v wd st st1 :
  bidi_relax d v st wd = Return st1 -> fresh_state st -> fresh_state st1.
Proof.
  destruct st as [D P [F0 F1] S c fd fp].
  destruct wd as [w cost]. unfold bidi_relax, fresh_state. simpl.
  intros H [Hf0 Hf1]. revert H.
  destruct d; simpl;
    repeat match goal with
           | |- context [match ?x with _ => _ end] => destruct x eqn:?; simpl
           end;
    intros [= <-]; simpl;
    auto using fresh_heap_push, fresh_heap_mono.
Qed.

Lemma for_each_relax_layout d v : forall nbrs st st',
  same_up_to_layout st st' ->
  outcome_rel same_up_to_layout
    (for_each (bidi_relax d v) nbrs st) (for_each (bidi_relax d v) nbrs st').
Proof.
  induction nbrs as [|wd nbrs IH]; intros st st' H; cbn [for_each].
  - exact H.
  - pose proof (bidi_relax_layout d v wd st st' H) as Hr.
    destruct (bidi_relax d v st wd), (bidi_relax d v st' wd);
      simpl in Hr |- *; try contradiction; auto.
Qed.

Lemma for_each_relax_fresh d v : forall nbrs st st1,
  for_each (bidi_relax d v) nbrs st = Return st1 ->
  fresh_state st -> fresh_state st1.
Proof.
  induction nbrs as [|wd nbrs IH]; intros st st1; cbn [for_each].
  - now intros [= <-].
  - destruct (bidi_relax d v st wd) as [st2| |] eqn:E; simpl; try discriminate.
    intros H Hf. apply (IH _ _ H). eapply bidi_relax_fresh; eauto.
Qed.

(** [heapq] keeps its entries in an array whose arrangement depends on the
    history of pushes and pops; the model keeps them in a list.  As long as
    no counter occurs twice the difference cannot be observed: two runs of
    the search loop from states that agree on everything but the arrangement
    of the entries inside each fringe give the same outcome. *)
Lemma bidi_loop_layout_independent G : forall fuel dir st st',
  fresh_state st -> same_up_to_layout st st' ->
  bidi_loop fuel G dir st = bidi_loop fuel G dir st'.
Proof.
  induction fuel as [|fuel IH]; intros dir st st' Hfresh Hsim; [reflexivity|].
  destruct st as [D P [F0 F1] S c fd fp], st' as [D' P' [F0' F1'] S' c' fd' fp'].
  destruct Hfresh as [Hf0 Hf1]. simpl in Hf0, Hf1.
  destruct Hsim as (HD & HP & HS & Hc & Hfd & Hfp & Hp0 & Hp1).
  simpl in HD, HP, HS, Hc, Hfd, Hfp, Hp0, Hp1. subst D' P' S' c' fd' fp'.
  cbn [bidi_loop fringe fst snd].
  destruct F0 as [|e0 F0].
  { apply Permutation_nil in Hp0. subst F0'. reflexivity. }
  destruct F0' as [|e0' F0'].
  { apply Permutation_sym, Permutation_nil in Hp0. discriminate. }
  destruct F1 as [|e1 F1].
  { apply Permutation_nil in Hp1. subst F1'. reflexivity. }
  destruct F1' as [|e1' F1'].
  { apply Permutation_sym, Permutation_nil in Hp1. discriminate. }
  match goal with
  | |- match heappop ?h with _ => _ end = match heappop ?h' with _ => _ end =>
      assert (Hp : Permutation h h') by (destruct dir; assumption);
      assert (Hn : NoDup (counters h)) by (destruct dir; [apply Hf0 | apply Hf1]);
      destruct (heappop h) as [[[[dist cn] v] rest]|] eqn:E
  end.
  2:{ apply heappop_none in E. destruct dir; discriminate. }
  destruct (heappop_perm _ _ _ _ Hp Hn E) as (rest' & E' & Hrest).
  rewrite E'.
  cbn [dists paths fringe seen counter finaldist finalpath].
  assert (Hfresh1 : fresh_state
            (mkBi D P (upd (e0 :: F0, e1 :: F1) (negb dir) rest) S c fd fp)).
  { destruct (heappop_spec _ _ _ E) as [Hperm _].
    destruct dir; simpl in *; split; simpl; auto.
    - eapply fresh_heap_tail. eapply fresh_heap_perm; eauto.
    - eapply fresh_heap_tail. eapply fresh_heap_perm; eauto. }
  assert (Hsim1 : same_up_to_layout
            (mkBi D P (upd (e0 :: F0, e1 :: F1) (negb dir) rest) S c fd fp)
            (mkBi D P (upd (e0' :: F0', e1' :: F1') (negb dir) rest') S c fd fp)).
  { unfold same_up_to_layout. destruct dir; simpl; auto 10. }
  destruct (dict_mem (sel D (negb dir)) v).
  { apply IH; auto. }
  destruct (dict_mem (sel (upd D (negb dir) (dict_set (sel D (negb dir)) v dist))
                        (negb (negb dir))) v); [reflexivity|].
  destruct (dict_get G v) as [nbrs|]; [|reflexivity].
  match goal with
  | |- bind (for_each _ _ ?a) _ = bind (for_each _ _ ?b) _ =>
      assert (Hsim2 : same_up_to_layout a b);
      [ unfold same_up_to_layout; destruct dir; simpl; auto 10 |];
      assert (Hfresh2 : fresh_state a);
      [ exact Hfresh1 |];
      pose proof (for_each_relax_layout (negb dir) v nbrs a b Hsim2) as Hrel;
      pose proof (for_each_relax_fresh (negb dir) v nbrs a) as Hfr;
      destruct (for_each (bidi_relax (negb dir) v) nbrs a) as [a1| |];
      destruct (for_each (bidi_relax (negb dir) v) nbrs b) as [b1| |];
      simpl in Hrel |- *; try contradiction; auto; try congruence
  end.
Qed.

(** ** find_shortest_path *)

Lemma walk_last_edge G s p v W :
  walk G s p v W -> s <> v -> exists x c, dict_get (adj G x) v = Some c.
Proof.
  destruct 1; [contradiction | eauto].
Qed.

Lemma isolated_not_connected G u v :
  wf_graph G -> adj G v = [] -> u <> v -> ~ connected G u v.
Proof.
  intros Hwf Hadj Hne (p & W & Hw).
  destruct (walk_last_edge _ _ _ _ _ Hw Hne) as (x & c & He).
  apply (wf_sym G Hwf) in He. rewrite Hadj in He. discriminate.
Qed.

(** On a well-formed graph and two of its nodes the call never raises and
    never runs out of fuel: it reports no path exactly when there is none,
    and otherwise a walk of least weight together with that weight. *)
Lemma find_shortest_path_spec G s t :
  wf_graph G -> has_node G s = true -> has_node G t = true ->
  (~ connected G s t /\ find_shortest_path G s t = Return ([], Infinity)) \/
  (exists p d, find_shortest_path G s t = Return (p, Finite d) /\
               walk G s p t d /\
               forall q W, walk G s q t W -> d <= W).
Proof.
  intros Hwf Hs Ht.
  unfold find_shortest_path, shortest_path, shortest_path_length.
  destruct (String.eqb s t) eqn:E.
  - apply String.eqb_eq in E. subst t. right. exists [s], 0.
    unfold bidirectional_dijkstra, dijkstra_path_length.
    rewrite Hs, String.eqb_refl. simpl. split; [reflexivity|]. split.
    + now constructor.
    + intros q W Hq. eapply walk_nonneg; eauto.
  - apply String.eqb_neq in E.
    destruct (bidirectional_dijkstra_spec G Hwf s t Hs Ht E)
      as [[Hrun Hnc] | (m & p & Hrun & Hw & Hopt)]; rewrite Hrun; simpl.
    + left. auto.
    + destruct (dijkstra_path_length_spec G Hwf s t Hs E)
        as [(d & Hrun' & [q Hq] & Hopt') | [Hrun' Hnc]]; rewrite Hrun'.
      * right. exists p, d. split; [reflexivity|].
        assert (d = m).
        { pose proof (Hopt _ _ Hq). pose proof (Hopt' _ _ Hw). lia. }
        subst m. auto.
      * exfalso. apply Hnc. exists p, m. exact Hw.
Qed.

Lemma missing_node_raises G s t :
  (has_node G s = false -> find_shortest_path G s t = Raise (NodeNotFound s)) /\
  (has_node G s = true -> has_node G t = false ->
   find_shortest_path G s t = Raise (NodeNotFound t)).
Proof.
  unfold find_shortest_path, shortest_path, bidirectional_dijkstra.
  split.
  - intros ->. reflexivity.
  - intros -> ->. reflexivity.
Qed.

(** C1: when [start] or [end_] is not a node of the graph,
    [find_shortest_path] raises [NodeNotFound] (it neither returns a path nor
    the no-path value), and the exception names a missing node: [start] when
    [start] is missing, otherwise the missing [end_]. *)
Theorem find_shortest_path_missing_node G start end_
  (Hmissing : has_node G start = false \/ has_node G end_ = false) :
  exists name,
    find_shortest_path G start end_ = Raise (NodeNotFound name) /\
    has_node G name = false /\
    ((has_node G start = false /\ name = start) \/
     (has_node G start = true /\ name = end_)).
Proof.
  destruct (missing_node_raises G start end_) as [H1 H2].
  destruct (has_node G start) eqn:Es.
  - destruct Hmissing as [H|H]; [discriminate|].
    exists end_. auto.
  - exists start. auto.
Qed.

Lemma find_shortest_path_missing_node_witness :
  (has_node sample_graph "Q" = false \/ has_node sample_graph "A" = false) /\
  (has_node sample_graph "A" = false \/ has_node sample_graph "Q" = false) /\
  (exists name,
      find_shortest_path sample_graph "Q" "A" = Raise (NodeNotFound name) /\
      has_node sample_graph name = false /\
      ((has_node sample_graph "Q" = false /\ name = "Q") \/
       (has_node sample_graph "Q" = true /\ name = "A"))) /\
  (exists name,
      find_shortest_path sample_graph "A" "Q" = Raise (NodeNotFound name) /\
      has_node sample_graph name = false /\
      ((has_node sample_graph "A" = false /\ name = "A") \/
       (has_node sample_graph "A" = true /\ name = "Q"))).
Proof.
  split; [left; reflexivity|]. split; [right; reflexivity|]. split.
  - apply (find_shortest_path_missing_node sample_graph "Q" "A").
    left. reflexivity.
  - apply (find_shortest_path_missing_node sample_graph "A" "Q").
    right. reflexivity.
Defined.

(** C3: on a well-formed graph, for two nodes of the graph that no walk
    joins, [find_shortest_path] returns the no-path value: an empty path
    with distance [Infinity], as a normal return. *)
Theorem find_shortest_path_disconnected G start end_
  (Hwf : wf_graph G)
  (Hstart : has_node G start = true) (Hend : has_node G end_ = true)
  (Hapart : ~ connected G start end_) :
  find_shortest_path G start end_ = Return ([], Infinity).
Proof.
  destruct (find_shortest_path_spec G start end_ Hwf Hstart Hend)
    as [[_ H] | (p & d & _ & Hw & _)]; auto.
  exfalso. apply Hapart. exists p, d. exact Hw.
Qed.

Lemma find_shortest_path_disconnected_witness :
  wf_graph sample_graph /\
  has_node sample_graph "A" = true /\ has_node sample_graph "D" = true /\
  ~ connected sample_graph "A" "D" /\
  find_shortest_path sample_graph "A" "D" = Return ([], Infinity).
Proof.
  assert (Hwf : wf_graph sample_graph) by (apply wf_graphb_sound; reflexivity).
  assert (Hapart : ~ connected sample_graph "A" "D").
  { apply isolated_not_connected; [exact Hwf | reflexivity | discriminate]. }
  split; [exact Hwf|]. split; [reflexivity|]. split; [reflexivity|].
  split; [exact Hapart|].
  apply (find_shortest_path_disconnected sample_graph "A" "D" Hwf);
    [reflexivity | reflexivity | exact Hapart].
Defined.

(** C5: for a node [X] of the graph, [find_shortest_path G X X] returns the
    one-node path [[X]] with distance 0.  Both library calls return at their
    [source == target] test, before any search loop runs: the statement needs
    no assumption on the edges of [G]. *)
Theorem find_shortest_path_same_node G X (HX : has_node G X = true) :
  find_shortest_path G X X = Return ([X], Finite 0).
Proof.
  unfold find_shortest_path, shortest_path, shortest_path_length,
    bidirectional_dijkstra, dijkstra_path_length.
  rewrite HX, String.eqb_refl. reflexivity.
Qed.

Lemma find_shortest_path_same_node_witness :
  has_node sample_graph "D" = true /\
  find_shortest_path sample_graph "D" "D" = Return (["D"], Finite 0).
Proof.
  split; [reflexivity|].
  apply (find_shortest_path_same_node sample_graph "D"). reflexivity.
Defined.

(** ** The searches on floats: what does not depend on rounding *)


Lemma float_has_edge_get G u v :
  Float64.has_edge G u v = true <-> exists c, dict_get (Float64.adj G u) v = Some c.
Proof. apply dict_mem_true. Qed.


Section FloatWalks.
Variable G : Float64.Graph.








Lemma float_walk_cons u x p v W :
  Float64.has_edge G u x = true -> float_walk G x p v W ->
  exists W', float_walk G u (u :: p) v W'.
Proof.
  intros He Hw. induction Hw as [|p y v W c Hw [W' IH] Hc].
  - apply float_has_edge_get in He as [c Hc].
    eexists. change [u; x] with ([u] ++ [x]).
    eapply float_walk_snoc; eauto. constructor.
  - eexists. change (u :: p ++ [v]) with ((u :: p) ++ [v]).
    eapply float_walk_snoc; eauto.
Qed.

Hypothesis Hsym : forall u v,
  Float64.has_edge G u v = true -> Float64.has_edge G v u = true.

Lemma float_walk_rev s p v W :
  float_walk G s p v W -> exists W', float_walk G v (rev p) s W'.
Proof.
  induction 1 as [|p x v W c Hw [W' IH] He].
  - eexists. simpl. constructor.
  - rewrite rev_app_distr. simpl.
    apply float_walk_cons with (x := x) (W := W'); auto.
    apply Hsym. apply float_has_edge_get. eauto.
Qed.

End FloatWalks.

(** *** The length search *)





(** *** The path search *)








(** ** build_flight_graph: self-loops and the edge count *)

(** C2 fails on the code: a connection from a known name to itself is
    inserted as a self-loop. *)
Lemma build_flight_graph_keeps_self_loop :
  ~ (forall X,
       has_edge (build_flight_graph Z taxicab [("A", (0, 0))] [("A", "A")]) X X
       = false).
Proof.
  intros H. specialize (H "A"). vm_compute in H. discriminate.
Qed.

(** C2 (amended): the built graph has a self-loop at [X] exactly when the
    connection list holds the pair [(X, X)] and [X] has coordinates; pairs
    with an unknown name never produce one. *)
Theorem build_flight_graph_self_loop (pyfloat : Type)
  (haversine : pyfloat * pyfloat -> pyfloat * pyfloat -> Z)
  (coordinates : dict (coord pyfloat)) (connections : list (string * string))
  (X : string) :
  has_edge (build_flight_graph pyfloat haversine coordinates connections) X X
  = true <->
  In (X, X) connections /\ dict_mem coordinates X = true.
Proof.
  rewrite build_has_edge, existsb_exists. unfold known_links. split.
  - intros ([a b] & Hin & Hs). apply filter_In in Hin as [Hin Hk].
    apply same_link_spec in Hs. simpl in Hs, Hk.
    assert (a = X /\ b = X) as [-> ->] by (destruct Hs as [[? ?]|[? ?]]; auto).
    split; auto. apply andb_true_iff in Hk. tauto.
  - intros [Hin Hk]. exists (X, X). split.
    + apply filter_In. simpl. now rewrite Hk.
    + apply same_link_spec. auto.
Qed.

(** C6 fails on the code: a self-referencing connection of a known name is
    counted as an edge, where the specified count leaves it out. *)
Lemma build_flight_graph_counts_self_loop :
  number_of_edges (build_flight_graph Z taxicab [("A", (0, 0))] [("A", "A")])
  <> spec_edge_count [("A", (0, 0))] [("A", "A")].
Proof. vm_compute. discriminate. Qed.

(** C6 (amended): a connection with an endpoint absent from the coordinate
    mapping adds no edge; two nodes are joined exactly when some connection
    with both endpoints known names them, in either order; and the edge count
    is the number of distinct unordered pairs among the connections whose
    both endpoints are known (a pair and its reverse count once; a
    self-referencing pair counts). *)
Theorem build_flight_graph_edge_count (pyfloat : Type)
  (haversine : pyfloat * pyfloat -> pyfloat * pyfloat -> Z)
  (coordinates : dict (coord pyfloat)) (connections : list (string * string)) :
  let G := build_flight_graph pyfloat haversine coordinates connections in
  (forall x y,
      has_edge G x y = true <->
      exists a b, In (a, b) connections /\
                  dict_mem coordinates a = true /\ dict_mem coordinates b = true /\
                  ((a = x /\ b = y) \/ (a = y /\ b = x))) /\
  number_of_edges G = length (distinct_links [] (known_links coordinates connections)).
Proof.
  split.
  - intros x y. rewrite build_has_edge, existsb_exists. unfold known_links. split.
    + intros ([a b] & Hin & Hs). apply filter_In in Hin as [Hin Hk].
      apply same_link_spec in Hs. simpl in Hs, Hk.
      apply andb_true_iff in Hk as [Ha Hb].
      exists a, b. repeat split; auto.
      destruct Hs as [[-> ->]|[-> ->]]; auto.
    + intros (a & b & Hin & Ha & Hb & Hs). exists (a, b). split.
      * apply filter_In. simpl. now rewrite Ha, Hb.
      * apply same_link_spec. simpl.
        destruct Hs as [[-> ->]|[-> ->]]; auto.
  - apply build_number_of_edges.
Qed.


(** ** Ties: the route inserted first wins *)

Lemma wf_weighted_graph edges :
  (forall e, In e edges -> 0 <= snd e) -> wf_graph (weighted_graph edges).
Proof.
  unfold weighted_graph. generalize wf_empty. generalize (@nil (string * dict Z)).
  induction edges as [|e edges IH]; intros G HG Hpos; cbn [fold_left]; auto.
  apply IH.
  - apply wf_add_edge; auto. apply Hpos. now left.
  - intros e' He'. apply Hpos. now right.
Qed.

Lemma two_routes_wf a b c :
  0 <= a -> 0 <= b -> 0 <= c ->
  wf_graph (two_routes a b c) /\ wf_graph (two_routes_mirrored a b c).
Proof.
  intros Ha Hb Hc.
  split; apply wf_weighted_graph; intros e He; simpl in He;
    repeat (destruct He as [<-|He]; [simpl; assumption|]); destruct He.
Qed.

Lemma two_routes_eq a b c :
  two_routes a b c =
  [("S", [("X", a); ("Y", a)]); ("X", [("S", a); ("M", b)]);
   ("Y", [("S", a); ("N", b)]); ("M", [("X", b); ("T", c)]);
   ("N", [("Y", b); ("T", c)]); ("T", [("M", c); ("N", c)])].
Proof. reflexivity. Qed.

Lemma two_routes_mirrored_eq a b c :
  two_routes_mirrored a b c =
  [("S", [("Y", a); ("X", a)]); ("Y", [("S", a); ("N", b)]);
   ("X", [("S", a); ("M", b)]); ("N", [("Y", b); ("T", c)]);
   ("M", [("X", b); ("T", c)]); ("T", [("N", c); ("M", c)])].
Proof. reflexivity. Qed.

(** Case analysis on the edge that a lookup [H] in a literal graph found. *)
Ltac edge_cases H :=
  unfold adj in H; cbn [dict_get] in H;
  repeat match type of H with
         | context [String.eqb ?k ?x] =>
             first
               [ is_var x; destruct (String.eqb_spec k x); [subst x|]
               | let r := eval vm_compute in (String.eqb k x) in
                 change (String.eqb k x) with r in H ];
             cbn [dict_get] in H
         end;
  try discriminate; injection H as <-.

Lemma two_routes_rank_edge a b c x v w :
  0 <= a -> 0 <= b -> 0 <= c ->
  dict_get (adj (two_routes a b c) x) v = Some w \/
  dict_get (adj (two_routes_mirrored a b c) x) v = Some w ->
  two_routes_rank a b c v <= two_routes_rank a b c x + w.
Proof.
  intros Ha Hb Hc [H|H];
    [rewrite two_routes_eq in H | rewrite two_routes_mirrored_eq in H];
    edge_cases H; unfold two_routes_rank;
    repeat match goal with
           | |- context [String.eqb ?k ?x] =>
               let r := eval vm_compute in (String.eqb k x) in
               change (String.eqb k x) with r
           end;
    cbn [orb]; lia.
Qed.

Lemma two_routes_least a b c G q v W :
  0 <= a -> 0 <= b -> 0 <= c ->
  G = two_routes a b c \/ G = two_routes_mirrored a b c ->
  walk G "S" q v W -> two_routes_rank a b c v <= W.
Proof.
  intros Ha Hb Hc HG Hw. induction Hw as [|p x v W w Hw IH He].
  - unfold two_routes_rank. simpl. lia.
  - assert (two_routes_rank a b c v <= two_routes_rank a b c x + w); [|lia].
    apply two_routes_rank_edge; auto.
    destruct HG as [->| ->]; auto.
Qed.

Lemma bidi_loop_expand_then G (Hwf : wf_graph G) s t fuel v0 d0 dir st
  dist c v rest nbrs st' R :
  bidi_inv G s t v0 d0 [] st -> bidi_head s t dir st -> s <> t ->
  fst (fringe st) <> [] -> snd (fringe st) <> [] ->
  heappop (sel (fringe st) (negb dir)) = Some ((dist, c, v), rest) ->
  dict_mem (sel (dists st) (negb dir)) v = false ->
  dict_mem (sel (dists st) dir) v = false ->
  dict_get G v = Some nbrs ->
  for_each (bidi_relax (negb dir) v) nbrs
    (mkBi (upd (dists st) (negb dir) (dict_set (sel (dists st) (negb dir)) v dist))
          (paths st) (upd (fringe st) (negb dir) rest) (seen st) (counter st)
          (finaldist st) (finalpath st)) = Return st' ->
  (bidi_inv G s t v (negb dir) [] st' -> bidi_head s t (negb dir) st' ->
   (bidi_measure G st' < bidi_measure G st)%nat ->
   bidi_loop fuel G (negb dir) st' = R) ->
  bidi_loop (S fuel) G dir st = R.
Proof.
  intros I Hhead Hne H0 H1 Hpop Hv Hvo Hg Hrun Hthen.
  destruct (bidi_loop_expand G Hwf s t fuel v0 d0 dir st dist c v rest nbrs st'
              I Hhead Hne H0 H1 Hpop Hv Hvo Hg Hrun) as (-> & I' & Hhead' & Hm').
  auto.
Qed.

(** Runs the first three iterations of the search on one of the two-route
    graphs; the third one pops the node whose entry was pushed first among
    the two entries of weight [a]. *)
Ltac run_two_routes a Hwf Hne Hopt :=
  unfold bidirectional_dijkstra;
  match goal with
  | |- context [search_fuel ?G] =>
      change (has_node G "S") with true;
      change (has_node G "T") with true;
      change (search_fuel G) with 39%nat
  end;
  change (String.eqb "S" "T") with false;
  cbn [negb];
  eapply (bidi_loop_expand_then _ Hwf "S" "T" _ "S" false);
  [ apply bidi_inv_init; auto
  | split; [simpl; discriminate | left; simpl; auto]
  | exact Hne | discriminate | discriminate
  | reflexivity | reflexivity | reflexivity | reflexivity
  | lazy; reflexivity
  | ];
  let I1 := fresh "I" in
  let Hh1 := fresh "Hhead" in
  intros I1 Hh1 _;
  eapply (bidi_loop_expand_then _ Hwf "S" "T");
  [ exact I1 | exact Hh1 | exact Hne | discriminate | discriminate
  | reflexivity | reflexivity | reflexivity | reflexivity
  | lazy; reflexivity
  | ];
  clear I1 Hh1;
  let I2 := fresh "I" in
  let Hh2 := fresh "Hhead" in
  intros I2 Hh2 _;
  eapply (bidi_loop_expand_then _ Hwf "S" "T");
  [ exact I2 | exact Hh2 | exact Hne | discriminate | discriminate
  | cbn; rewrite Z.ltb_irrefl, andb_false_r; cbn [orb]; reflexivity
  | reflexivity | reflexivity | reflexivity
  | cbn; replace (a + a <? 0) with false by (symmetry; apply Z.ltb_ge; lia);
    cbn; reflexivity
  | ];
  clear I2 Hh2;
  let I3 := fresh "I" in
  let Hh3 := fresh "Hhead" in
  intros I3 Hh3 _;
  apply (bidi_loop_keeps _ Hwf "S" "T" _ _ _ _ _ _ I3 Hh3 Hne);
  [ vm_compute; lia | reflexivity | exact Hopt ].

Lemma two_routes_search a b c :
  0 <= a -> 0 <= b -> 0 <= c ->
  bidirectional_dijkstra (two_routes a b c) "S" "T"
  = Return (a + b + c, ["S"; "X"; "M"; "T"]).
Proof.
  intros Ha Hb Hc.
  destruct (two_routes_wf a b c Ha Hb Hc) as [Hwf _].
  assert (Hne : "S" <> "T") by discriminate.
  assert (Hopt : forall q W,
            walk (two_routes a b c) "S" q "T" W -> a + b + c <= W).
  { intros q W Hw.
    apply (two_routes_least a b c _ q "T" W Ha Hb Hc (or_introl eq_refl) Hw). }
  run_two_routes a Hwf Hne Hopt.
Qed.

Lemma two_routes_mirrored_search a b c :
  0 <= a -> 0 <= b -> 0 <= c ->
  bidirectional_dijkstra (two_routes_mirrored a b c) "S" "T"
  = Return (a + b + c, ["S"; "Y"; "N"; "T"]).
Proof.
  intros Ha Hb Hc.
  destruct (two_routes_wf a b c Ha Hb Hc) as [_ Hwf].
  assert (Hne : "S" <> "T") by discriminate.
  assert (Hopt : forall q W,
            walk (two_routes_mirrored a b c) "S" q "T" W -> a + b + c <= W).
  { intros q W Hw.
    apply (two_routes_least a b c _ q "T" W Ha Hb Hc (or_intror eq_refl) Hw). }
  run_two_routes a Hwf Hne Hopt.
Qed.

(** The path that [find_shortest_path] returns is the one of the
    bidirectional search. *)
Lemma find_shortest_path_of_search G s t m p :
  wf_graph G -> s <> t ->
  bidirectional_dijkstra G s t = Return (m, p) ->
  exists d, find_shortest_path G s t = Return (p, Finite d).
Proof.
  intros Hwf Hne Hrun.
  assert (Hs : has_node G s = true).
  { unfold bidirectional_dijkstra in Hrun.
    destruct (has_node G s); [reflexivity | discriminate]. }
  assert (Ht : has_node G t = true).
  { unfold bidirectional_dijkstra in Hrun. rewrite Hs in Hrun.
    destruct (has_node G t); [reflexivity | discriminate]. }
  destruct (find_shortest_path_spec G s t Hwf Hs Ht)
    as [[Hnc _] | (p' & d & Hfind & _)].
  - exfalso. apply Hnc.
    destruct (bidirectional_dijkstra_spec G Hwf s t Hs Ht Hne)
      as [[Hraise _] | (m' & q & _ & Hw & _)]; [congruence|].
    now exists q, m'.
  - exists d. rewrite Hfind. f_equal. f_equal.
    unfold find_shortest_path, shortest_path in Hfind.
    rewrite Hrun in Hfind. cbn [bind snd] in Hfind.
    destruct (shortest_path_length G s t) as [d'|e|];
      [|destruct e|]; congruence.
Qed.

(** Among the entries of a fringe whose counters are distinct, [heappop]
    takes the least distance and, among entries of that distance, the one
    with the least counter. *)
Lemma heappop_first_pushed h e r :
  NoDup (counters h) -> heappop h = Some (e, r) ->
  In e h /\
  forall x, In x h -> x <> e ->
    fst (fst e) < fst (fst x) \/
    (fst (fst e) = fst (fst x) /\ (snd (fst e) < snd (fst x))%nat).
Proof.
  intros Hnd Hpop.
  assert (Hin : In e h).
  { destruct (heappop_spec _ _ _ Hpop) as [Hperm _].
    apply (Permutation_in _ (Permutation_sym Hperm)). now left. }
  split; [exact Hin|].
  intros x Hx Hne.
  pose proof (heappop_least _ _ _ Hpop x Hx) as Hlt.
  assert (Hc : snd (fst x) <> snd (fst e)).
  { intros Heq. apply Hne. eapply counters_unique; eauto. }
  destruct x as [[dx cx] nx], e as [[de ce] ne]. unfold entry_lt in Hlt.
  cbn [fst snd] in *.
  apply orb_false_iff in Hlt as [H1 H2]. apply Z.ltb_ge in H1.
  destruct (Z.eqb_spec dx de) as [->|Hd]; [|left; lia].
  right. split; [reflexivity|].
  cbn [andb] in H2. apply Nat.ltb_ge in H2. lia.
Qed.

(** C7: the model is a function of the graph as built and of the query, so
    two runs on one graph give one path; what decides between routes of the
    same weight is the order of insertion and discovery.  On the graph of
    two routes with the same leg weights, whatever these weights are, the
    search returns the route whose legs were inserted first, and the other
    route when the legs are inserted in the other order: the two nodes next
    to the start enter the forward fringe at the same distance, the one
    pushed first is expanded first and meets the backward search first, and
    no later meeting of the same weight replaces that one.  For every fringe
    with distinct counters, [heappop] takes the least distance and, among
    the entries of that distance, the one pushed first. *)
Theorem find_shortest_path_ties_by_insertion (a b c : Z)
  (Ha : 0 <= a) (Hb : 0 <= b) (Hc : 0 <= c) :
  (exists d, find_shortest_path (two_routes a b c) "S" "T"
             = Return (["S"; "X"; "M"; "T"], Finite d)) /\
  (exists d, find_shortest_path (two_routes_mirrored a b c) "S" "T"
             = Return (["S"; "Y"; "N"; "T"], Finite d)) /\
  (forall h e r,
      NoDup (counters h) -> heappop h = Some (e, r) ->
      In e h /\
      forall x, In x h -> x <> e ->
        fst (fst e) < fst (fst x) \/
        (fst (fst e) = fst (fst x) /\ (snd (fst e) < snd (fst x))%nat)).
Proof.
  destruct (two_routes_wf a b c Ha Hb Hc) as [Hwf Hwf'].
  split; [|split].
  - apply (find_shortest_path_of_search _ "S" "T" (a + b + c)); auto.
    + discriminate.
    + now apply two_routes_search.
  - apply (find_shortest_path_of_search _ "S" "T" (a + b + c)); auto.
    + discriminate.
    + now apply two_routes_mirrored_search.
  - apply heappop_first_pushed.
Qed.

Lemma find_shortest_path_ties_by_insertion_witness :
  0 <= 2 /\ 0 <= 3 /\ 0 <= 1 /\
  (exists d, find_shortest_path (two_routes 2 3 1) "S" "T"
             = Return (["S"; "X"; "M"; "T"], Finite d)) /\
  (exists d, find_shortest_path (two_routes_mirrored 2 3 1) "S" "T"
             = Return (["S"; "Y"; "N"; "T"], Finite d)) /\
  (forall h e r,
      NoDup (counters h) -> heappop h = Some (e, r) ->
      In e h /\
      forall x, In x h -> x <> e ->
        fst (fst e) < fst (fst x) \/
        (fst (fst e) = fst (fst x) /\ (snd (fst e) < snd (fst x))%nat)).
Proof.
  split; [lia|]. split; [lia|]. split; [lia|].
  apply (find_shortest_path_ties_by_insertion 2 3 1); lia.
Defined.

(** The same over doubles, at leg weights 1, 0.1 and 0.1, whose sums round
    differently in the two directions (1.2000000000000002 from the start,
    1.2 from the end). *)
Example ties_by_insertion_in_doubles :
  Float64.find_shortest_path
    (float_two_routes 1 0x1.999999999999ap-4 0x1.999999999999ap-4) "S" "T"
  = Return (["S"; "X"; "M"; "T"], 0x1.3333333333334p+0%float) /\
  Float64.find_shortest_path
    (float_two_routes_mirrored 1 0x1.999999999999ap-4 0x1.999999999999ap-4)
    "S" "T"
  = Return (["S"; "Y"; "N"; "T"], 0x1.3333333333334p+0%float).
Proof. split; vm_compute; reflexivity. Qed.

(** With the connections listed the other way round the same tie goes to
    the other route: the order is that of the build. *)
Example tie_follows_build_order :
  find_shortest_path
    (build_flight_graph Z taxicab
       [("A", (0, 0)); ("B", (0, 1)); ("E", (1, 0)); ("C", (1, 1))]
       [("A", "E"); ("A", "B"); ("E", "C"); ("B", "C")]) "A" "C"
  = Return (["A"; "E"; "C"], Finite 2).
Proof. reflexivity. Qed.

(** The tie of [tie_graph] goes to the route discovered first. *)
Example tie_first_discovered :
  find_shortest_path tie_graph "A" "C" = Return (["A"; "B"; "C"], Finite 2) /\
  bidi_loop 10 tie_graph true (tie_state [(1, 3%nat, "E"); (1, 2%nat, "B")]) =
  Return (2, ["A"; "B"; "C"]).
Proof. split; reflexivity. Qed.

(** ** The parsed tables *)



(** C10: when a well-formed row for [city] is followed by no other
    well-formed row for [city], the parsed mapping gives [city] the
    coordinates of that row, whatever earlier rows said; and the mapping
    never holds a name twice. *)
Theorem parse_city_coordinates_last_wins (pyfloat : Type)
  (float_of_text : string -> option pyfloat)
  (rows1 rows2 : list (list string)) (row : list string)
  (city : string) (c : coord pyfloat)
  (Hrow : row_entry pyfloat float_of_text row = Some (city, c))
  (Hlast : forall cells c', In cells rows2 ->
             row_entry pyfloat float_of_text cells <> Some (city, c')) :
  dict_get (parse_city_coordinates pyfloat float_of_text (rows1 ++ row :: rows2))
    city = Some c /\
  NoDup (dict_keys
           (parse_city_coordinates pyfloat float_of_text (rows1 ++ row :: rows2))).
Proof.
  unfold parse_city_coordinates. split.
  - rewrite fold_left_app. cbn [fold_left].
    rewrite (city_rows_keep pyfloat float_of_text city rows2 _ Hlast).
    rewrite city_row_entry, Hrow. apply dict_get_set_eq.
  - apply city_rows_nodup. constructor.
Qed.

Lemma parse_city_coordinates_last_wins_witness :
  row_entry Z sample_float ["A"; "3"; "4"] = Some ("A", (3, 4)) /\
  dict_get (parse_city_coordinates Z sample_float sample_city_table) "A"
  = Some (3, 4) /\
  NoDup (dict_keys (parse_city_coordinates Z sample_float sample_city_table)).
Proof.
  split; [reflexivity|].
  apply (parse_city_coordinates_last_wins Z sample_float
           [["City"; "Lat"; "Lon"]; ["A"; "0"; "0"]; ["B"; "0"; "x1"]]
           [["C"; "7"]; ["B"; "0"; "1"]] ["A"; "3"; "4"] "A" (3, 4)).
  - reflexivity.
  - intros cells c' Hin. simpl in Hin.
    repeat (destruct Hin as [<-|Hin]; [vm_compute; discriminate|]).
    destruct Hin.
Defined.

(** ** Further properties of find_shortest_path *)

Lemma walk_nodes G s p v W :
  wf_graph G -> walk G s p v W -> forall x, In x p -> has_node G x = true.
Proof.
  intros Hwf Hw. induction Hw as [Hs | p y v W c Hw IH He]; intros x Hx.
  - destruct Hx as [<-|[]]. exact Hs.
  - apply in_app_or in Hx as [Hx|[<-|[]]]; auto.
    eapply wf_closed; eauto.
Qed.

Lemma returns_nodes G s t r :
  find_shortest_path G s t = Return r ->
  has_node G s = true /\ has_node G t = true.
Proof.
  intros Hrun. destruct (missing_node_raises G s t) as [H1 H2].
  destruct (has_node G s) eqn:Es.
  - destruct (has_node G t) eqn:Et; auto.
    rewrite (H2 eq_refl eq_refl) in Hrun. discriminate.
  - rewrite (H1 eq_refl) in Hrun. discriminate.
Qed.

Lemma returns_shortest G s t path d :
  wf_graph G -> find_shortest_path G s t = Return (path, Finite d) ->
  walk G s path t d /\ forall q W, walk G s q t W -> d <= W.
Proof.
  intros Hwf Hrun. destruct (returns_nodes _ _ _ _ Hrun) as [Hs Ht].
  destruct (find_shortest_path_spec G s t Hwf Hs Ht)
    as [[_ H] | (p & d' & H & Hw & Hopt)]; rewrite H in Hrun.
  - discriminate.
  - injection Hrun as <- <-. auto.
Qed.

Lemma connected_returns G s t q W :
  wf_graph G -> walk G s q t W ->
  exists path d, find_shortest_path G s t = Return (path, Finite d) /\
                 walk G s path t d /\ d <= W.
Proof.
  intros Hwf Hq.
  pose proof (walk_src_node G _ _ _ _ Hq) as Hs.
  pose proof (walk_node G Hwf _ _ _ _ Hq) as Ht.
  destruct (find_shortest_path_spec G s t Hwf Hs Ht)
    as [[Hnc _] | (p & d & H & Hw & Hopt)].
  - exfalso. apply Hnc. now exists q, W.
  - exists p, d. split; [exact H|]. split; [exact Hw|]. apply (Hopt _ _ Hq).
Qed.

(** X2: on a well-formed graph, whenever some walk joins [start] to [end_]
    the call returns a non-empty path with a finite distance, at most the
    weight of that walk: it raises nothing, does not exhaust the fuel of the
    search loops, and does not report "no path". *)
Theorem find_shortest_path_finds G start end_ q W
  (Hwf : wf_graph G) (Hq : walk G start q end_ W) :
  exists path d,
    find_shortest_path G start end_ = Return (path, Finite d) /\
    path <> [] /\ d <= W.
Proof.
  destruct (connected_returns G start end_ q W Hwf Hq) as (p & d & H & Hw & Hle).
  exists p, d. split; [exact H|]. split; [|exact Hle].
  destruct (walk_hd _ _ _ _ _ Hw) as [mid ->]. discriminate.
Qed.

Lemma find_shortest_path_finds_witness :
  wf_graph sample_graph /\
  walk sample_graph "A" (["A"; "E"] ++ ["C"]) "C" (0 + 2 + 2) /\
  exists path d,
    find_shortest_path sample_graph "A" "C" = Return (path, Finite d) /\
    path <> [] /\ d <= 0 + 2 + 2.
Proof.
  assert (Hwf : wf_graph sample_graph) by (apply wf_graphb_sound; reflexivity).
  assert (Hq : walk sample_graph "A" (["A"; "E"] ++ ["C"]) "C" (0 + 2 + 2)).
  { apply walk_snoc with (x := "E"); [|reflexivity].
    apply (walk_snoc sample_graph "A" ["A"] "A" "E" 0 2); [|reflexivity].
    apply walk_start. reflexivity. }
  split; [exact Hwf|]. split; [exact Hq|].
  apply (find_shortest_path_finds sample_graph "A" "C" _ _ Hwf Hq).
Defined.

(** ** Further properties of build_flight_graph *)

Lemma dict_set_same {V} (d : dict V) k v :
  dict_get d k = Some v -> dict_set d k v = d.
Proof.
  induction d as [|[k' v'] d IH]; simpl; [discriminate|].
  destruct (String.eqb k' k) eqn:E.
  - now intros [= ->].
  - intros H. now rewrite IH.
Qed.

Lemma add_node_present G n : has_node G n = true -> add_node G n = G.
Proof. unfold add_node, has_node. now intros ->. Qed.

Lemma add_edge_same G a b w :
  has_node G a = true -> has_node G b = true ->
  dict_get (adj G a) b = Some w -> dict_get (adj G b) a = Some w ->
  add_edge G a b w = G.
Proof.
  intros Ha Hb Hab Hba. unfold add_edge.
  rewrite (add_node_present G a Ha), (add_node_present G b Hb).
  rewrite (dict_set_same (adj G a) b w Hab).
  rewrite (dict_set_same G a (adj G a) (has_node_adj G a Ha)).
  rewrite (dict_set_same (adj G b) a w Hba).
  apply (dict_set_same G b (adj G b) (has_node_adj G b Hb)).
Qed.

Lemma keys_add_edge G a b w :
  has_node G a = true -> has_node G b = true ->
  dict_keys (add_edge G a b w) = dict_keys G.
Proof.
  intros Ha Hb. unfold add_edge.
  rewrite (add_node_present G a Ha), (add_node_present G b Hb).
  rewrite dict_keys_set.
  assert (H : dict_mem (dict_set G a (dict_set (adj G a) b w)) b = true).
  { rewrite dict_mem_set. unfold has_node in Hb. rewrite Hb. apply orb_true_r. }
  rewrite H. rewrite dict_keys_set. unfold has_node in Ha. now rewrite Ha.
Qed.

Lemma keys_of_keys : forall keys G,
  NoDup keys -> (forall k, In k keys -> has_node G k = false) ->
  dict_keys (fold_left add_node keys G) = dict_keys G ++ keys.
Proof.
  induction keys as [|k keys IH]; intros G Hnd Hnew; simpl.
  - now rewrite app_nil_r.
  - inversion Hnd as [|? ? Hnotin Hnd']; subst.
    rewrite IH; auto.
    + unfold add_node. pose proof (Hnew k (or_introl eq_refl)) as Hk.
      unfold has_node in Hk. rewrite Hk, dict_keys_set, Hk.
      now rewrite <- app_assoc.
    + intros k' Hin. rewrite has_node_add_node, (Hnew k' (or_intror Hin)).
      rewrite orb_false_r. apply String.eqb_neq. intros ->. contradiction.
Qed.

Lemma adj_of_keys keys : forall G x, adj (fold_left add_node keys G) x = adj G x.
Proof.
  induction keys as [|k keys IH]; intros G x; simpl; auto.
  now rewrite IH, adj_add_node.
Qed.

Lemma distinct_links_length : forall cs seen,
  (length (distinct_links seen cs) <= length cs)%nat.
Proof.
  induction cs as [|c cs IH]; intros seen; simpl; auto.
  destruct (existsb (same_link c) seen); simpl.
  - specialize (IH seen). lia.
  - specialize (IH (c :: seen)). lia.
Qed.

Section BuildMore.
Variable pyfloat : Type.
Variable haversine : pyfloat * pyfloat -> pyfloat * pyfloat -> Z.
Variable coordinates : dict (coord pyfloat).

(** Induction over the connections that [build_flight_graph] inserts. *)
Lemma build_ind (P : Graph -> Prop) connections :
  P (fold_left add_node (dict_keys coordinates) []) ->
  (forall G a b ca cb,
      P G -> (forall n, has_node G n = dict_mem coordinates n) ->
      dict_get coordinates a = Some ca -> dict_get coordinates b = Some cb ->
      P (add_edge G a b (haversine ca cb))) ->
  P (build_flight_graph pyfloat haversine coordinates connections).
Proof.
  intros H0 Hstep. unfold build_flight_graph.
  assert (Hn0 : forall n, has_node (fold_left add_node (dict_keys coordinates) []) n
                          = dict_mem coordinates n).
  { intros n. rewrite nodes_of_keys, existsb_keys. apply orb_false_r. }
  revert H0 Hn0. generalize (fold_left add_node (dict_keys coordinates) []).
  induction connections as [|[a b] conns IH]; intros G HP Hn; cbn [fold_left]; auto.
  unfold add_connection at 2, calculate_haversine_distance.
  destruct (dict_get coordinates a) as [ca|] eqn:Ea; [|apply IH; auto].
  destruct (dict_get coordinates b) as [cb|] eqn:Eb; [|apply IH; auto].
  apply IH.
  - eapply Hstep; eauto.
  - intros n. rewrite has_node_add_edge, (Hn n).
    destruct (String.eqb a n) eqn:E1.
    { apply String.eqb_eq in E1. subst n. unfold dict_mem. now rewrite Ea. }
    destruct (String.eqb b n) eqn:E2; auto.
    apply String.eqb_eq in E2. subst n. unfold dict_mem. now rewrite Eb.
Qed.

Lemma build_flight_graph_keys_aux (connections : list (string * string)) :
  NoDup (dict_keys coordinates) ->
  dict_keys (build_flight_graph pyfloat haversine coordinates connections)
  = dict_keys coordinates.
Proof.
  intros Hkeys. apply build_ind.
  - rewrite keys_of_keys; auto.
  - intros G a b ca cb HP Hn Ea Eb. rewrite keys_add_edge; auto.
    + rewrite Hn. unfold dict_mem. now rewrite Ea.
    + rewrite Hn. unfold dict_mem. now rewrite Eb.
Qed.

Lemma build_flight_graph_nodes_aux (connections : list (string * string)) :
  NoDup (dict_keys coordinates) ->
  number_of_nodes (build_flight_graph pyfloat haversine coordinates connections)
  = length coordinates.
Proof.
  intros Hkeys. unfold number_of_nodes.
  rewrite <- (length_map fst), <- (length_map fst coordinates).
  exact (f_equal _ (build_flight_graph_keys_aux connections Hkeys)).
Qed.

(** X5: the nodes of the built graph are the cities of the coordinate
    mapping, in the mapping's order: connections add none (an unknown name
    in a connection does not become a node) and remove none (a city without
    connections is still a node). *)
Theorem build_flight_graph_nodes (connections : list (string * string))
  (Hkeys : NoDup (dict_keys coordinates)) :
  let G := build_flight_graph pyfloat haversine coordinates connections in
  dict_keys G = dict_keys coordinates /\
  number_of_nodes G = length coordinates /\
  forall n, has_node G n = dict_mem coordinates n.
Proof.
  split; [now apply build_flight_graph_keys_aux|].
  split; [now apply build_flight_graph_nodes_aux|].
  intros n. apply build_has_node.
Qed.

Lemma build_undirected_aux (connections : list (string * string))
  (x y : string) :
  let G := build_flight_graph pyfloat haversine coordinates connections in
  dict_get (adj G x) y = dict_get (adj G y) x.
Proof.
  revert x y.
  apply (build_ind (fun G => forall x y, dict_get (adj G x) y = dict_get (adj G y) x)).
  - intros x y. now rewrite !adj_of_keys.
  - intros G a b ca cb HP _ _ _ x y. rewrite !get_adj_add_edge.
    rewrite (orb_comm (String.eqb a y && String.eqb b x)).
    rewrite (andb_comm (String.eqb b y)), (andb_comm (String.eqb a y)).
    destruct (String.eqb a x && String.eqb b y || String.eqb b x && String.eqb a y);
      auto.
Qed.

Lemma build_flight_graph_weights_aux (connections : list (string * string))
  (x y : string) (w : Z)
  (Hedge : dict_get
             (adj (build_flight_graph pyfloat haversine coordinates connections) x)
             y = Some w) :
  exists cx cy,
    dict_get coordinates x = Some cx /\ dict_get coordinates y = Some cy /\
    (w = haversine cx cy \/ w = haversine cy cx).
Proof.
  revert x y w Hedge.
  apply (build_ind (fun G => forall x y w, dict_get (adj G x) y = Some w ->
           exists cx cy,
             dict_get coordinates x = Some cx /\ dict_get coordinates y = Some cy /\
             (w = haversine cx cy \/ w = haversine cy cx))).
  - intros x y w. rewrite adj_of_keys. discriminate.
  - intros G a b ca cb HP _ Ea Eb x y w. rewrite get_adj_add_edge.
    destruct (String.eqb a x && String.eqb b y) eqn:E1; simpl.
    { apply andb_true_iff in E1 as [E1 E2]. apply String.eqb_eq in E1, E2.
      subst x y. intros [= <-]. exists ca, cb. auto. }
    destruct (String.eqb b x && String.eqb a y) eqn:E2.
    { apply andb_true_iff in E2 as [E2 E3]. apply String.eqb_eq in E2, E3.
      subst x y. intros [= <-]. exists cb, ca. auto. }
    apply HP.
Qed.

(** X6: the built graph is undirected whatever the metric: the weight
    stored for [x]-[y] is the weight stored for [y]-[x], also when duplicate
    connections overwrote it. *)
Theorem build_flight_graph_undirected (connections : list (string * string))
  (x y : string) :
  let G := build_flight_graph pyfloat haversine coordinates connections in
  dict_get (adj G x) y = dict_get (adj G y) x.
Proof. apply build_undirected_aux. Qed.

(** X7: every edge weight of the built graph is the metric applied to the
    coordinates of the two cities of a connection of the list, in the order
    in which that connection names them: the last connection of the list
    that names the edge's two endpoints, in either direction.  Both cities
    have coordinates. *)
Theorem build_flight_graph_weights (connections : list (string * string))
  (x y : string) (w : Z)
  (Hedge : dict_get
             (adj (build_flight_graph pyfloat haversine coordinates connections) x)
             y = Some w) :
  exists before a b after ca cb,
    connections = before ++ (a, b) :: after /\
    (a = x /\ b = y \/ a = y /\ b = x) /\
    dict_get coordinates a = Some ca /\ dict_get coordinates b = Some cb /\
    w = haversine ca cb /\
    forall c, In c after -> same_link c (x, y) = false.
Proof.
  revert x y w Hedge.
  induction connections as [|[a b] conns IH] using rev_ind; intros x y w Hedge.
  { unfold build_flight_graph in Hedge. cbn [fold_left] in Hedge.
    rewrite adj_of_keys in Hedge. discriminate. }
  unfold build_flight_graph in Hedge. rewrite fold_left_app in Hedge.
  cbn [fold_left] in Hedge.
  fold (build_flight_graph pyfloat haversine coordinates conns) in Hedge.
  assert (Hold : forall w',
            dict_get (adj (build_flight_graph pyfloat haversine coordinates conns) x)
              y = Some w' ->
            same_link (a, b) (x, y) = false ->
            exists before a' b' after ca cb,
              conns ++ [(a, b)] = before ++ (a', b') :: after /\
              (a' = x /\ b' = y \/ a' = y /\ b' = x) /\
              dict_get coordinates a' = Some ca /\
              dict_get coordinates b' = Some cb /\
              w' = haversine ca cb /\
              forall c, In c after -> same_link c (x, y) = false).
  { intros w' H Hs.
    destruct (IH x y w' H)
      as (l1 & a' & b' & l2 & ca & cb & -> & Hab & Ea & Eb & Hw & Hl).
    exists l1, a', b', (l2 ++ [(a, b)]), ca, cb.
    split; [now rewrite <- app_assoc|].
    split; [exact Hab|]. split; [exact Ea|]. split; [exact Eb|].
    split; [exact Hw|].
    intros c Hc. apply in_app_or in Hc as [Hc|[<-|[]]]; auto. }
  assert (Hunknown : dict_get coordinates a = None \/ dict_get coordinates b = None ->
            forall w',
              dict_get (adj (build_flight_graph pyfloat haversine coordinates conns) x)
                y = Some w' ->
              same_link (a, b) (x, y) = false).
  { intros Hnone w' H.
    destruct (build_flight_graph_weights_aux conns x y w' H)
      as (cx & cy & Ex & Ey & _).
    unfold same_link. cbn [fst snd].
    destruct Hnone as [Hn|Hn].
    - assert (E1 : String.eqb a x = false)
        by (apply String.eqb_neq; intros ->; congruence).
      assert (E2 : String.eqb a y = false)
        by (apply String.eqb_neq; intros ->; congruence).
      now rewrite E1, E2.
    - assert (E1 : String.eqb b x = false)
        by (apply String.eqb_neq; intros ->; congruence).
      assert (E2 : String.eqb b y = false)
        by (apply String.eqb_neq; intros ->; congruence).
      now rewrite E1, E2, !andb_false_r. }
  unfold add_connection, calculate_haversine_distance in Hedge.
  destruct (dict_get coordinates a) as [ca|] eqn:Ea;
    [|apply (Hold w Hedge); apply (Hunknown (or_introl eq_refl) w Hedge)].
  destruct (dict_get coordinates b) as [cb|] eqn:Eb;
    [|apply (Hold w Hedge); apply (Hunknown (or_intror eq_refl) w Hedge)].
  rewrite get_adj_add_edge in Hedge.
  destruct (String.eqb a x && String.eqb b y || String.eqb b x && String.eqb a y)
    eqn:E.
  - injection Hedge as <-.
    exists conns, a, b, [], ca, cb.
    split; [reflexivity|]. split.
    + apply orb_true_iff in E as [E|E];
        apply andb_true_iff in E as [E1 E2]; apply String.eqb_eq in E1, E2; auto.
    + split; [exact Ea|]. split; [exact Eb|]. split; [reflexivity|].
      intros c [].
  - apply (Hold w Hedge). unfold same_link. cbn [fst snd].
    rewrite (andb_comm (String.eqb a y)). exact E.
Qed.

(** X8: connections that name a city without coordinates have no effect at
    all: building from the full connection list gives the very graph built
    from the connections whose two endpoints are known. *)
Theorem build_flight_graph_known_only (connections : list (string * string)) :
  build_flight_graph pyfloat haversine coordinates connections =
  build_flight_graph pyfloat haversine coordinates
    (known_links coordinates connections).
Proof.
  unfold build_flight_graph.
  generalize (fold_left add_node (dict_keys coordinates) []).
  induction connections as [|[a b] conns IH]; intros G; auto.
  rewrite known_links_cons. cbn [fold_left].
  destruct (dict_mem coordinates a && dict_mem coordinates b) eqn:Ek.
  - cbn [fold_left]. apply IH.
  - rewrite (add_connection_unknown pyfloat haversine coordinates G a b Ek).
    apply IH.
Qed.

(** X9: with a symmetric metric, listing again a connection that is already
    there, in either direction, leaves the graph as it is, node order,
    neighbour order and weights included. *)
Theorem build_flight_graph_repeat (connections : list (string * string))
  (a b : string)
  (Hsym : forall c1 c2, haversine c1 c2 = haversine c2 c1)
  (Hthere : has_edge
              (build_flight_graph pyfloat haversine coordinates connections)
              a b = true) :
  build_flight_graph pyfloat haversine coordinates (connections ++ [(a, b)]) =
  build_flight_graph pyfloat haversine coordinates connections.
Proof.
  set (G := build_flight_graph pyfloat haversine coordinates connections) in *.
  assert (Hfold : build_flight_graph pyfloat haversine coordinates
                    (connections ++ [(a, b)]) =
                  add_connection pyfloat haversine coordinates G (a, b)).
  { unfold G, build_flight_graph. now rewrite fold_left_app. }
  rewrite Hfold.
  unfold has_edge in Hthere. apply dict_mem_true in Hthere as [w Hw].
  destruct (build_flight_graph_weights_aux connections a b w Hw)
    as (ca & cb & Ea & Eb & Hwab).
  unfold add_connection, calculate_haversine_distance. rewrite Ea, Eb.
  assert (w = haversine ca cb) as -> by (destruct Hwab; [|rewrite Hsym]; auto).
  apply add_edge_same; auto.
  - unfold G. rewrite build_has_node. unfold dict_mem. now rewrite Ea.
  - unfold G. rewrite build_has_node. unfold dict_mem. now rewrite Eb.
  - unfold G. rewrite <- build_undirected_aux. exact Hw.
Qed.
End BuildMore.

Lemma build_flight_graph_nodes_witness :
  NoDup (dict_keys sample_coords) /\
  dict_keys sample_graph = dict_keys sample_coords /\
  number_of_nodes sample_graph = length sample_coords /\
  forall n, has_node sample_graph n = dict_mem sample_coords n.
Proof.
  assert (Hkeys : NoDup (dict_keys sample_coords))
    by (apply nodupb_sound; reflexivity).
  split; [exact Hkeys|].
  apply (build_flight_graph_nodes Z taxicab sample_coords sample_links Hkeys).
Defined.

Lemma build_flight_graph_weights_witness :
  dict_get (adj sample_graph "A") "B" = Some 1 /\
  exists before a b after ca cb,
    sample_links = before ++ (a, b) :: after /\
    (a = "A" /\ b = "B" \/ a = "B" /\ b = "A") /\
    dict_get sample_coords a = Some ca /\ dict_get sample_coords b = Some cb /\
    1 = taxicab ca cb /\
    forall c, In c after -> same_link c ("A", "B") = false.
Proof.
  split; [reflexivity|].
  apply (build_flight_graph_weights Z taxicab sample_coords sample_links "A" "B" 1).
  reflexivity.
Defined.

Lemma taxicab_sym a b : taxicab a b = taxicab b a.
Proof. unfold taxicab. lia. Qed.

Lemma taxicab_nonneg a b : 0 <= taxicab a b.
Proof. unfold taxicab. lia. Qed.

Lemma build_flight_graph_repeat_witness :
  (forall c1 c2, taxicab c1 c2 = taxicab c2 c1) /\
  has_edge sample_graph "C" "E" = true /\
  build_flight_graph Z taxicab sample_coords (sample_links ++ [("C", "E")]) =
  sample_graph.
Proof.
  split; [exact taxicab_sym|]. split; [reflexivity|].
  apply (build_flight_graph_repeat Z taxicab sample_coords sample_links "C" "E"
           taxicab_sym).
  reflexivity.
Defined.

Lemma build_flight_graph_edges_aux (pyfloat : Type)
  (haversine : pyfloat * pyfloat -> pyfloat * pyfloat -> Z)
  (coordinates : dict (coord pyfloat)) (connections : list (string * string)) :
  (number_of_edges (build_flight_graph pyfloat haversine coordinates connections)
   <= length connections)%nat.
Proof.
  rewrite build_number_of_edges.
  pose proof (distinct_links_length (known_links coordinates connections) []).
  pose proof (filter_length_le
                (fun c => dict_mem coordinates (fst c) && dict_mem coordinates (snd c))
                connections).
  unfold known_links in *. lia.
Qed.

(** X10: the built graph never has more edges than there are connections
    in the list. *)
Theorem build_flight_graph_edges_bounded (pyfloat : Type)
  (haversine : pyfloat * pyfloat -> pyfloat * pyfloat -> Z)
  (coordinates : dict (coord pyfloat)) (connections : list (string * string)) :
  (number_of_edges (build_flight_graph pyfloat haversine coordinates connections)
   <= length connections)%nat.
Proof. apply build_flight_graph_edges_aux. Qed.

(** ** Further properties of the parsers *)

Lemma connection_rows_acc : forall rows acc,
  fold_left connection_row rows acc = acc ++ fold_left connection_row rows [].
Proof.
  induction rows as [|cells rows IH]; intros acc; simpl.
  - now rewrite app_nil_r.
  - rewrite IH. rewrite (IH (connection_row [] cells)). rewrite app_assoc. f_equal.
    unfold connection_row. destruct cells as [|f [|t rest]]; simpl;
      try now rewrite app_nil_r.
    destruct (negb (String.eqb f "") && negb (String.eqb t ""));
      simpl; auto using app_nil_r.
Qed.

(** X11: [parse_flight_connections] works row by row and keeps the order of
    the rows: parsing two tables one after the other gives the two parsed
    lists one after the other; and a pair is in the result exactly when some
    row starts with these two texts, both non-empty. *)
Theorem parse_flight_connections_rows (rows1 rows2 : list (list string)) :
  parse_flight_connections (rows1 ++ rows2) =
  parse_flight_connections rows1 ++ parse_flight_connections rows2 /\
  forall from_city to_city,
    In (from_city, to_city) (parse_flight_connections rows1) <->
    exists rest, In (from_city :: to_city :: rest) rows1 /\
                 from_city <> "" /\ to_city <> "".
Proof.
  unfold parse_flight_connections. split.
  - rewrite fold_left_app. apply connection_rows_acc.
  - intros f t. induction rows1 as [|cells rows IH]; simpl.
    + split; [tauto | intros (rest & [] & _)].
    + rewrite connection_rows_acc, in_app_iff, IH. clear IH. split.
      * intros [H|(rest & Hin & Hne)]; [|exists rest; auto].
        unfold connection_row in H.
        destruct cells as [|f' [|t' rest]]; simpl in H; try tauto.
        destruct (String.eqb f' "") eqn:Ef; simpl in H; try tauto.
        destruct (String.eqb t' "") eqn:Et; simpl in H; try tauto.
        destruct H as [[= -> ->]|[]].
        apply String.eqb_neq in Ef, Et. exists rest. auto.
      * intros (rest & [->|Hin] & Hf & Ht); [left | right; eauto].
        unfold connection_row.
        apply String.eqb_neq in Hf, Ht. rewrite Hf, Ht. simpl. auto.
Qed.

Section ParseMore.
Variable pyfloat : Type.
Variable float_of_text : string -> option pyfloat.

Lemma city_rows_get name c : forall rows coordinates,
  dict_get (fold_left (city_row pyfloat float_of_text) rows coordinates) name
  = Some c ->
  dict_get coordinates name = Some c \/
  exists cells, In cells rows /\ row_entry pyfloat float_of_text cells = Some (name, c).
Proof.
  induction rows as [|r rows IH]; intros coordinates; simpl.
  - auto.
  - intros H. destruct (IH _ H) as [H'|(cells & Hin & He)].
    + rewrite city_row_entry in H'.
      destruct (row_entry pyfloat float_of_text r) as [[city c']|] eqn:E; auto.
      rewrite dict_get_set in H'.
      destruct (String.eqb city name) eqn:En; auto.
      apply String.eqb_eq in En. subst city. injection H' as <-.
      right. exists r. auto.
    + right. exists cells. auto.
Qed.

Lemma city_rows_mem_mono name : forall rows coordinates,
  dict_mem coordinates name = true ->
  dict_mem (fold_left (city_row pyfloat float_of_text) rows coordinates) name = true.
Proof.
  induction rows as [|r rows IH]; intros coordinates Hm; simpl; auto.
  apply IH. rewrite city_row_entry.
  destruct (row_entry pyfloat float_of_text r) as [[k v]|]; auto.
  rewrite dict_mem_set, Hm. apply orb_true_r.
Qed.

Lemma city_rows_mem name c cells : forall rows coordinates,
  In cells rows -> row_entry pyfloat float_of_text cells = Some (name, c) ->
  dict_mem (fold_left (city_row pyfloat float_of_text) rows coordinates) name = true.
Proof.
  induction rows as [|r rows IH]; intros coordinates Hin He; simpl; [destruct Hin|].
  destruct Hin as [->|Hin]; [|now apply IH].
  apply city_rows_mem_mono.
  rewrite city_row_entry, He, dict_mem_set, String.eqb_refl. reflexivity.
Qed.
End ParseMore.

(** X12: the parsed coordinate mapping holds a city exactly when some row
    has at least three cells, that city in the first and two texts that
    [float()] accepts in the next two; and the coordinates it gives a city
    are those of one of its well-formed rows: nothing is invented. *)
Theorem parse_city_coordinates_members (pyfloat : Type)
  (float_of_text : string -> option pyfloat) (rows : list (list string))
  (city : string) :
  (dict_mem (parse_city_coordinates pyfloat float_of_text rows) city = true <->
   exists cells c, In cells rows /\
                   row_entry pyfloat float_of_text cells = Some (city, c)) /\
  forall c,
    dict_get (parse_city_coordinates pyfloat float_of_text rows) city = Some c ->
    exists cells, In cells rows /\
                  row_entry pyfloat float_of_text cells = Some (city, c).
Proof.
  assert (Hget : forall c,
    dict_get (parse_city_coordinates pyfloat float_of_text rows) city = Some c ->
    exists cells, In cells rows /\
                  row_entry pyfloat float_of_text cells = Some (city, c)).
  { intros c H. unfold parse_city_coordinates in H.
    destruct (city_rows_get pyfloat float_of_text city c rows [] H) as [H'|H'];
      [discriminate | exact H']. }
  split; [|exact Hget]. split.
  - intros H. apply dict_mem_true in H as [c Hc].
    destruct (Hget c Hc) as (cells & Hin & He). eauto.
  - intros (cells & c & Hin & He). unfold parse_city_coordinates.
    eapply city_rows_mem; eauto.
Qed.

(** ** main *)

Section MainFacts.
Variable pyfloat : Type.
Variable float_of_text : string -> option pyfloat.
Variable haversine : pyfloat * pyfloat -> pyfloat * pyfloat -> Z.
Variable coordinates : dict (coord pyfloat).

Lemma path_details_cons u v rest n :
  path_details pyfloat haversine coordinates (u :: v :: rest) n =
  match dict_get coordinates u with
  | None => Raise (KeyError u)
  | Some c1 =>
      match dict_get coordinates v with
      | None => Raise (KeyError v)
      | Some c2 =>
          more <- path_details pyfloat haversine coordinates (v :: rest) (S n) ;;
          Return (Segment n u v (calculate_haversine_distance pyfloat haversine c1 c2)
                    :: more)
      end
  end.
Proof. reflexivity. Qed.

(** The per-segment lookups succeed on a path of cities with coordinates,
    one line per consecutive pair. *)
Lemma path_details_runs : forall path n,
  (forall x, In x path -> dict_mem coordinates x = true) ->
  exists details,
    path_details pyfloat haversine coordinates path n = Return details /\
    length details = (length path - 1)%nat.
Proof.
  induction path as [|u path IH]; intros n Hin.
  - exists []. auto.
  - destruct path as [|v rest].
    + exists []. auto.
    + rewrite path_details_cons.
      pose proof (Hin u (or_introl eq_refl)) as Hu.
      pose proof (Hin v (or_intror (or_introl eq_refl))) as Hv.
      apply dict_mem_true in Hu as [cu ->]. apply dict_mem_true in Hv as [cv ->].
      destruct (IH (S n)) as (more & -> & Hlen).
      { intros x Hx. apply Hin. now right. }
      eexists. split; [reflexivity|]. simpl in *. lia.
Qed.

End MainFacts.

(** What a run of [main] comes to, for a non-negative metric. *)
Lemma main_spec (pyfloat : Type) (float_of_text : string -> option pyfloat)
  (haversine : pyfloat * pyfloat -> pyfloat * pyfloat -> Z)
  (city_rows link_rows : list (list string))
  (Hnonneg : forall c1 c2, 0 <= haversine c1 c2) :
  let coordinates := parse_city_coordinates pyfloat float_of_text city_rows in
  let G := build_flight_graph pyfloat haversine coordinates
             (parse_flight_connections link_rows) in
  (exists out,
      main pyfloat float_of_text haversine city_rows link_rows = Return (out, None) /\
      (dict_mem coordinates "Chicago" = false \/
       dict_mem coordinates "Amsterdam" = false \/
       ~ connected G "Chicago" "Amsterdam")) \/
  (exists pre path d details,
      main pyfloat float_of_text haversine city_rows link_rows =
      Return (pre ++ details ++ [FinalAnswer (String.concat "," path)],
              Some (String.concat "," path)) /\
      find_shortest_path G "Chicago" "Amsterdam" = Return (path, Finite d) /\
      walk G "Chicago" path "Amsterdam" d /\
      path_details pyfloat haversine coordinates path 1 = Return details /\
      length details = (length path - 1)%nat /\
      (forall l, In l pre -> forall i u v w, l <> Segment i u v w) /\
      In (TotalDistance (Finite d)) pre /\
      In (NumberOfStops (length path - 1)) pre).
Proof.
  intros coordinates G. unfold main. fold coordinates. fold G.
  destruct (dict_get coordinates "Chicago") as [cs|] eqn:Es.
  2:{ left. eexists. split; [reflexivity|].
      left. unfold dict_mem. now rewrite Es. }
  destruct (dict_get coordinates "Amsterdam") as [ce|] eqn:Ee.
  2:{ left. eexists. split; [reflexivity|].
      right. left. unfold dict_mem. now rewrite Ee. }
  assert (Hwf : wf_graph G) by (apply build_wf; exact Hnonneg).
  assert (Hs : has_node G "Chicago" = true).
  { unfold G. rewrite build_has_node. unfold dict_mem. now rewrite Es. }
  assert (Ht : has_node G "Amsterdam" = true).
  { unfold G. rewrite build_has_node. unfold dict_mem. now rewrite Ee. }
  destruct (find_shortest_path_spec G "Chicago" "Amsterdam" Hwf Hs Ht)
    as [[Hnc Hrun] | (p & d & Hrun & Hw & Hopt)]; rewrite Hrun; cbn [bind].
  - left. eexists. split; [reflexivity|]. auto.
  - right. destruct (walk_hd _ _ _ _ _ Hw) as [mid Hp].
    destruct (path_details_runs pyfloat haversine coordinates p 1)
      as (details & Hd & Hlen).
    { intros x Hx. rewrite <- (build_has_node pyfloat haversine coordinates
                                (parse_flight_connections link_rows)).
      eapply walk_nodes; eauto. }
    rewrite Hp in Hd |- *. rewrite Hd. cbn [bind]. rewrite <- Hp.
    eexists _, p, d, details. split; [reflexivity|].
    rewrite <- Hp in Hd.
    split; [reflexivity|]. split; [exact Hw|]. split; [exact Hd|].
    split; [exact Hlen|]. split.
    + intros l Hl i u v w ->. simpl in Hl.
      repeat (destruct Hl as [Hl|Hl]; [discriminate|]). exact Hl.
    + split; simpl; auto 20.
Qed.

(** ** The returned path repeats no city *)

Lemma NoDup_snoc {A} (l : list A) (x : A) :
  NoDup l -> ~ In x l -> NoDup (l ++ [x]).
Proof.
  intros Hl Hx. apply NoDup_app; auto.
  - constructor; [simpl; tauto | constructor].
  - intros y Hy [<-|[]]. contradiction.
Qed.

Lemma NoDup_snoc_inv {A} (l : list A) (x : A) :
  NoDup (l ++ [x]) -> NoDup l /\ ~ In x l.
Proof.
  intros H. apply NoDup_remove in H. rewrite app_nil_r in H. exact H.
Qed.

Lemma meeting_path_nodup (q0 q1 : list string) (w : string) :
  NoDup (q0 ++ [w]) -> NoDup (q1 ++ [w]) ->
  (forall x, In x q0 -> In x q1 -> False) ->
  NoDup ((q0 ++ [w]) ++ tl (rev (q1 ++ [w]))).
Proof.
  intros H0 H1 Hdisj. rewrite rev_app_distr. simpl.
  destruct (NoDup_snoc_inv _ _ H1) as [Hq1 Hw1].
  apply NoDup_app; auto.
  - now apply NoDup_rev.
  - intros x Hx Hx'. apply in_rev in Hx'.
    apply in_app_or in Hx as [Hx|[<-|[]]]; eauto.
Qed.

Lemma bidi_relax_simple d v st wd st' :
  bidi_relax d v st wd = Return st' ->
  simple_paths st -> dists_disjoint st ->
  dict_mem (sel (dists st) d) v = true ->
  simple_paths st' /\ dists st' = dists st.
Proof.
  destruct wd as [w cost]. unfold bidi_relax.
  intros Hrun [HP HF] Hdisj Hv.
  destruct (dict_get (sel (dists st) d) v) as [dv|]; [|discriminate].
  destruct (dict_get (sel (dists st) d) w) as [dw|] eqn:Ew.
  { destruct (dv + cost <? dw); [discriminate|].
    injection Hrun as <-. split; [split|]; auto. }
  destruct (match dict_get (sel (seen st) d) w with
            | None => true | Some sw => dv + cost <? sw end);
    [|injection Hrun as <-; split; [split|]; auto].
  destruct (dict_get (sel (paths st) d) v) as [pv|] eqn:Epv; [|discriminate].
  set (paths' := upd (paths st) d (dict_set (sel (paths st) d) w (pv ++ [w]))) in *.
  assert (HP' : forall dir u p,
            dict_get (sel paths' dir) u = Some p ->
            exists q, p = q ++ [u] /\ NoDup p /\
                      forall x, In x q -> dict_mem (sel (dists st) dir) x = true).
  { intros dir u p. unfold paths'. rewrite sel_upd.
    destruct (Bool.eqb dir d) eqn:Ed; [|apply HP].
    apply Bool.eqb_prop in Ed. subst dir. rewrite dict_get_set.
    destruct (String.eqb w u) eqn:Ewu; [|apply HP].
    apply String.eqb_eq in Ewu. subst u. intros [= <-].
    destruct (HP d v pv Epv) as (q & -> & Hnd & Hq).
    assert (Hall : forall x, In x (q ++ [v]) ->
                     dict_mem (sel (dists st) d) x = true).
    { intros x Hx. apply in_app_or in Hx as [Hx|[<-|[]]]; auto. }
    exists (q ++ [v]). split; [reflexivity|]. split; [|exact Hall].
    apply NoDup_snoc; auto.
    intros Hin. specialize (Hall _ Hin). apply dict_mem_false in Ew. congruence. }
  revert Hrun.
  match goal with
  | |- match ?a with _ => _ end = _ -> _ => destruct a as [s0|] eqn:E0
  end.
  2:{ intros [= <-]. split; [split|]; auto. }
  match goal with
  | |- match ?a with _ => _ end = _ -> _ => destruct a as [s1|] eqn:E1
  end.
  2:{ intros [= <-]. split; [split|]; auto. }
  match goal with
  | |- bind ?b _ = _ -> _ => destruct b as [better| |]
  end; cbn [bind]; try discriminate.
  destruct better; [|intros [= <-]; split; [split|]; auto].
  destruct (dict_get (snd paths') w) as [p1|] eqn:Ep1; [|discriminate].
  destruct (dict_get (fst paths') w) as [p0|] eqn:Ep0; [|discriminate].
  intros [= <-]. split; [split|]; auto. cbn [finalpath].
  destruct (HP' false w p0 Ep0) as (q0 & -> & Hnd0 & Hq0).
  destruct (HP' true w p1 Ep1) as (q1 & -> & Hnd1 & Hq1).
  apply meeting_path_nodup; auto.
  intros x Hx0 Hx1. apply (Hdisj x); simpl in *; auto.
Qed.

Lemma for_each_relax_simple d v : forall nbrs st st',
  for_each (bidi_relax d v) nbrs st = Return st' ->
  simple_paths st -> dists_disjoint st ->
  dict_mem (sel (dists st) d) v = true ->
  simple_paths st' /\ dists st' = dists st.
Proof.
  induction nbrs as [|wd nbrs IH]; intros st st'; cbn [for_each].
  - intros [= <-]. auto.
  - destruct (bidi_relax d v st wd) as [st1| |] eqn:E; cbn [bind]; try discriminate.
    intros Hrun HS Hdisj Hv.
    destruct (bidi_relax_simple d v st wd st1 E HS Hdisj Hv) as [HS1 HD1].
    destruct (IH st1 st' Hrun HS1) as [HS' HD'].
    + unfold dists_disjoint. now rewrite HD1.
    + now rewrite HD1.
    + split; auto. congruence.
Qed.

Lemma bidi_loop_simple G : forall fuel dir st m p,
  bidi_loop fuel G dir st = Return (m, p) ->
  simple_paths st -> dists_disjoint st -> NoDup p.
Proof.
  induction fuel as [|fuel IH]; intros dir st m p; [discriminate|].
  cbn [bidi_loop].
  destruct (fst (fringe st)); [discriminate|].
  destruct (snd (fringe st)); [discriminate|].
  destruct (heappop (sel (fringe st) (negb dir))) as [[[[dist c] v] rest]|];
    [|discriminate].
  cbn [dists paths fringe seen counter finaldist finalpath].
  intros Hrun HS Hdisj.
  destruct (dict_mem (sel (dists st) (negb dir)) v) eqn:Ev.
  { eapply IH; eauto. }
  rewrite sel_upd_other in Hrun.
  assert (Hgrow : forall dir' x,
            dict_mem (sel (dists st) dir') x = true ->
            dict_mem (sel (upd (dists st) (negb dir)
                             (dict_set (sel (dists st) (negb dir)) v dist)) dir') x
            = true).
  { intros dir' x Hx. rewrite sel_upd.
    destruct (Bool.eqb dir' (negb dir)) eqn:Ed; auto.
    apply Bool.eqb_prop in Ed. subst dir'. rewrite dict_mem_set, Hx.
    apply orb_true_r. }
  destruct (dict_mem (sel (dists st) (negb (negb dir))) v) eqn:Evo.
  { destruct (finaldist st); [|discriminate].
    injection Hrun as <- <-. apply HS. }
  destruct (dict_get G v) as [nbrs|]; [|discriminate].
  match type of Hrun with
  | bind (for_each _ _ ?st2) _ = _ =>
      assert (HS2 : simple_paths st2);
      [ destruct HS as [HP HF]; split; auto;
        intros dir' u q Hq; cbn [paths dists] in *;
        destruct (HP dir' u q Hq) as (q' & -> & Hnd & Hq');
        exists q'; split; [reflexivity|]; split; [exact Hnd|];
        intros x Hx; apply Hgrow; auto
      |];
      assert (Hdisj2 : dists_disjoint st2);
      [ intros u H0 H1; cbn [dists] in H0, H1;
        destruct (String.eqb v u) eqn:Evu;
        [ apply String.eqb_eq in Evu; subst u;
          destruct dir; simpl in *; rewrite ?dict_mem_set in *; congruence
        | apply (Hdisj u);
          destruct dir; simpl in *; rewrite ?dict_mem_set, ?Evu in *; auto ]
      |];
      destruct (for_each (bidi_relax (negb dir) v) nbrs st2) as [st'| |] eqn:Efor;
      cbn [bind] in Hrun; try discriminate;
      destruct (for_each_relax_simple (negb dir) v nbrs st2 st' Efor HS2 Hdisj2)
        as [HS' HD'];
      [ cbn [dists]; rewrite sel_upd_same, dict_mem_set, String.eqb_refl; reflexivity
      |];
      apply (IH _ _ _ _ Hrun HS');
      unfold dists_disjoint; rewrite HD'; exact Hdisj2
  end.
Qed.

Lemma returned_path_nodup G s t path dist :
  find_shortest_path G s t = Return (path, dist) -> NoDup path.
Proof.
  unfold find_shortest_path, shortest_path.
  destruct (bidirectional_dijkstra G s t) as [[m p]|e|] eqn:Eb; cbn [bind snd].
  - assert (Hp : NoDup p).
    { revert Eb. unfold bidirectional_dijkstra.
      destruct (negb (has_node G s)); [discriminate|].
      destruct (negb (has_node G t)); [discriminate|].
      destruct (String.eqb s t).
      - intros [= <- <-]. repeat constructor. simpl. tauto.
      - intros Hrun. eapply bidi_loop_simple; [exact Hrun| |].
        + split; [|constructor].
          intros dir u q. destruct dir; simpl.
          * destruct (String.eqb t u) eqn:E; [|discriminate].
            apply String.eqb_eq in E. subst u. intros [= <-].
            exists []. repeat split; [repeat constructor; simpl; tauto | intros x []].
          * destruct (String.eqb s u) eqn:E; [|discriminate].
            apply String.eqb_eq in E. subst u. intros [= <-].
            exists []. repeat split; [repeat constructor; simpl; tauto | intros x []].
        + intros u H. discriminate. }
    destruct (shortest_path_length G s t) as [d|e|].
    + now intros [= <- _].
    + destruct e; try discriminate. intros [= <- _]. constructor.
    + discriminate.
  - destruct e; try discriminate. intros [= <- _]. constructor.
  - discriminate.
Qed.

(** X15: whatever the graph, a path that [find_shortest_path] returns never
    names a city twice. *)
Theorem find_shortest_path_no_repeat G start end_ path dist
  (Hrun : find_shortest_path G start end_ = Return (path, dist)) :
  NoDup path.
Proof. exact (returned_path_nodup G start end_ path dist Hrun). Qed.

Lemma find_shortest_path_no_repeat_witness :
  find_shortest_path tie_graph "A" "C" = Return (["A"; "B"; "C"], Finite 2) /\
  NoDup ["A"; "B"; "C"].
Proof.
  split; [reflexivity|].
  apply (find_shortest_path_no_repeat tie_graph "A" "C" ["A"; "B"; "C"] (Finite 2)).
  reflexivity.
Defined.

(** X16: on a well-formed graph a returned path has at most as many cities
    as the graph has nodes, so the number of stops is below the number of
    nodes. *)
Theorem find_shortest_path_length_bound G start end_ path d
  (Hwf : wf_graph G)
  (Hrun : find_shortest_path G start end_ = Return (path, Finite d)) :
  (length path <= number_of_nodes G)%nat.
Proof.
  pose proof (returned_path_nodup G start end_ path (Finite d) Hrun) as Hnd.
  destruct (returns_shortest G start end_ path d Hwf Hrun) as [Hw _].
  unfold number_of_nodes. rewrite <- (length_map fst G).
  apply NoDup_incl_length; auto.
  intros x Hx. apply dict_get_keys. eapply walk_nodes; eauto.
Qed.

Lemma find_shortest_path_length_bound_witness :
  wf_graph sample_graph /\
  find_shortest_path sample_graph "A" "C" = Return (["A"; "B"; "C"], Finite 2) /\
  (length ["A"; "B"; "C"] <= number_of_nodes sample_graph)%nat.
Proof.
  assert (Hwf : wf_graph sample_graph) by (apply wf_graphb_sound; reflexivity).
  split; [exact Hwf|]. split; [reflexivity|].
  apply (find_shortest_path_length_bound sample_graph "A" "C" ["A"; "B"; "C"] 2 Hwf).
  reflexivity.
Defined.

(** ** The built graph is well formed; the sizes [main] prints *)

(** X17: with a non-negative metric every graph that [build_flight_graph]
    returns is well formed: no node and no neighbour is listed twice, every
    neighbour is itself a node, every edge is stored in both directions with
    one weight, and no weight is negative.  These are the conditions under
    which the shortest-path results above hold. *)
Theorem build_flight_graph_well_formed (pyfloat : Type)
  (haversine : pyfloat * pyfloat -> pyfloat * pyfloat -> Z)
  (coordinates : dict (coord pyfloat)) (connections : list (string * string))
  (Hnonneg : forall c1 c2, 0 <= haversine c1 c2) :
  wf_graph (build_flight_graph pyfloat haversine coordinates connections).
Proof. apply build_wf. exact Hnonneg. Qed.

Lemma build_flight_graph_well_formed_witness :
  (forall c1 c2, 0 <= taxicab c1 c2) /\ wf_graph sample_graph.
Proof.
  split; [exact taxicab_nonneg|].
  apply (build_flight_graph_well_formed Z taxicab sample_coords sample_links
           taxicab_nonneg).
Defined.

Lemma path_details_lines {pyfloat} haversine (coordinates : dict (coord pyfloat)) :
  forall path n details,
    path_details pyfloat haversine coordinates path n = Return details ->
    forall l, In l details -> exists i a b d, l = Segment i a b d.
Proof.
  induction path as [|u path IH]; intros n details.
  - intros [= <-] l [].
  - destruct path as [|v rest].
    + intros [= <-] l [].
    + rewrite path_details_cons.
      destruct (dict_get coordinates u); [|discriminate].
      destruct (dict_get coordinates v); [|discriminate].
      destruct (path_details pyfloat haversine coordinates (v :: rest) (S n))
        as [more| |] eqn:Em; cbn [bind]; try discriminate.
      intros [= <-] l [<-|Hl]; eauto.
Qed.

(** X18: in every run of [main] that reaches the graph, the node count it
    prints is the number of cities it reported as loaded, and the edge count
    it prints is at most the number of connections it reported as loaded. *)
Theorem main_graph_size (pyfloat : Type)
  (float_of_text : string -> option pyfloat)
  (haversine : pyfloat * pyfloat -> pyfloat * pyfloat -> Z)
  (city_rows link_rows : list (list string)) (out : list (line pyfloat))
  (res : option string) (nodes edges : nat)
  (Hrun : main pyfloat float_of_text haversine city_rows link_rows
          = Return (out, res))
  (Hsize : In (GraphSize nodes edges) out) :
  In (LoadedCities nodes) out /\
  exists loaded, In (LoadedConnections loaded) out /\ (edges <= loaded)%nat.
Proof.
  set (coordinates := parse_city_coordinates pyfloat float_of_text city_rows) in *.
  set (connections := parse_flight_connections link_rows) in *.
  assert (Hn : number_of_nodes
                 (build_flight_graph pyfloat haversine coordinates connections)
               = length coordinates).
  { apply build_flight_graph_nodes_aux.
    unfold coordinates, parse_city_coordinates.
    apply city_rows_nodup. constructor. }
  pose proof (build_flight_graph_edges_aux pyfloat haversine coordinates connections)
    as He.
  revert Hrun. unfold main. fold coordinates. fold connections.
  destruct (dict_get coordinates "Chicago") as [cs|].
  2:{ intros [= <- <-]. simpl in Hsize.
      repeat (destruct Hsize as [Hsize|Hsize]; [discriminate|]). destruct Hsize. }
  destruct (dict_get coordinates "Amsterdam") as [ce|].
  2:{ intros [= <- <-]. simpl in Hsize.
      repeat (destruct Hsize as [Hsize|Hsize]; [discriminate|]). destruct Hsize. }
  destruct (find_shortest_path
              (build_flight_graph pyfloat haversine coordinates connections)
              "Chicago" "Amsterdam") as [[path total]|e|]; cbn [bind];
    try discriminate.
  destruct path as [|c0 path].
  - intros [= <- <-]. simpl in Hsize |- *.
    repeat (destruct Hsize as [Hsize|Hsize];
            [try discriminate; injection Hsize as <- <-|]); [|destruct Hsize].
    rewrite Hn. split; [auto 20|]. eexists. split; [auto 20 | exact He].
  - destruct (path_details pyfloat haversine coordinates (c0 :: path) 1)
      as [details| |] eqn:Ed; cbn [bind]; try discriminate.
    intros [= <- <-]. simpl in Hsize.
    repeat (destruct Hsize as [Hsize|Hsize];
            [try discriminate; injection Hsize as <- <-|]).
    + rewrite Hn. split; [simpl; auto 20|].
      eexists. split; [simpl; auto 20 | exact He].
    + exfalso. apply in_app_or in Hsize as [Hsize|[Hsize|[]]]; [|discriminate].
      destruct (path_details_lines haversine coordinates _ _ _ Ed _ Hsize)
        as (i & a & b & d & Hl). discriminate.
Qed.

Lemma main_graph_size_witness :
  main Z sample_float taxicab route_city_table route_link_table
  = Return (route_report, Some "Chicago,London,Amsterdam") /\
  In (GraphSize 5 4) route_report /\
  In (LoadedCities 5) route_report /\
  exists loaded, In (LoadedConnections loaded) route_report /\ (4 <= loaded)%nat.
Proof.
  assert (Hrun : main Z sample_float taxicab route_city_table route_link_table
                 = Return (route_report, Some "Chicago,London,Amsterdam"))
    by (vm_compute; reflexivity).
  assert (Hsize : In (GraphSize 5 4) route_report) by (simpl; auto 20).
  split; [exact Hrun|]. split; [exact Hsize|].
  apply (main_graph_size Z sample_float taxicab route_city_table route_link_table
           route_report (Some "Chicago,London,Amsterdam") 5 4 Hrun Hsize).
Defined.

(** ** What [main] returns and reports *)

(** X13: in every run of [main] that returns, with a non-negative metric,
    nothing is returned exactly when Chicago or Amsterdam has no
    coordinates or no sequence of connections between known cities joins
    them; otherwise the answer is the comma-joined cities of a route that
    starts in Chicago, ends in Amsterdam, follows edges of the built graph
    and names no city twice. *)
Theorem main_result (pyfloat : Type) (float_of_text : string -> option pyfloat)
  (haversine : pyfloat * pyfloat -> pyfloat * pyfloat -> Z)
  (city_rows link_rows : list (list string)) (out : list (line pyfloat))
  (res : option string)
  (Hnonneg : forall c1 c2, 0 <= haversine c1 c2)
  (Hrun : main pyfloat float_of_text haversine city_rows link_rows
          = Return (out, res)) :
  let coordinates := parse_city_coordinates pyfloat float_of_text city_rows in
  let G := build_flight_graph pyfloat haversine coordinates
             (parse_flight_connections link_rows) in
  (res = None <->
   dict_mem coordinates "Chicago" = false \/
   dict_mem coordinates "Amsterdam" = false \/
   ~ connected G "Chicago" "Amsterdam") /\
  (forall r, res = Some r ->
     exists path,
       r = String.concat "," path /\
       hd_error path = Some "Chicago" /\ last path "Chicago" = "Amsterdam" /\
       edges_in G path = true /\ NoDup path).
Proof.
  intros coordinates G.
  destruct (main_spec pyfloat float_of_text haversine city_rows link_rows Hnonneg)
    as [(out' & Hrun' & Hwhy) |
        (pre & p & d & details & Hrun' & Hfind & Hw & _)];
    rewrite Hrun' in Hrun; injection Hrun as <- <-.
  - split; [tauto | discriminate].
  - fold coordinates in Hfind, Hw. fold G in Hfind, Hw. split.
    + split; [discriminate|]. intros H. exfalso.
      assert (Hwf : wf_graph G) by (apply build_wf; exact Hnonneg).
      pose proof (walk_src_node G _ _ _ _ Hw) as Hs.
      pose proof (walk_node G Hwf _ _ _ _ Hw) as Ht.
      unfold G in Hs, Ht. rewrite build_has_node in Hs, Ht.
      fold coordinates in Hs, Ht.
      destruct H as [H|[H|H]]; [congruence | congruence |].
      apply H. now exists p, d.
    + intros r [= <-]. exists p. split; [reflexivity|].
      destruct (walk_hd _ _ _ _ _ Hw) as [mid Hmid].
      destruct (walk_last _ _ _ _ _ Hw) as [init Hinit].
      split; [rewrite Hmid; reflexivity|].
      split; [rewrite Hinit; apply last_last|].
      split; [apply (walk_path_weight _ _ _ _ _ Hw)|].
      exact (returned_path_nodup G _ _ _ _ Hfind).
Qed.

Lemma main_result_witness :
  (forall c1 c2, 0 <= taxicab c1 c2) /\
  main Z sample_float taxicab route_city_table route_link_table
  = Return (route_report, Some "Chicago,London,Amsterdam") /\
  (Some "Chicago,London,Amsterdam" = None <->
   dict_mem (parse_city_coordinates Z sample_float route_city_table) "Chicago"
   = false \/
   dict_mem (parse_city_coordinates Z sample_float route_city_table) "Amsterdam"
   = false \/
   ~ connected
       (build_flight_graph Z taxicab
          (parse_city_coordinates Z sample_float route_city_table)
          (parse_flight_connections route_link_table))
       "Chicago" "Amsterdam") /\
  (forall r, Some "Chicago,London,Amsterdam" = Some r ->
     exists path,
       r = String.concat "," path /\
       hd_error path = Some "Chicago" /\ last path "Chicago" = "Amsterdam" /\
       edges_in
         (build_flight_graph Z taxicab
            (parse_city_coordinates Z sample_float route_city_table)
            (parse_flight_connections route_link_table)) path = true /\
       NoDup path).
Proof.
  assert (Hrun : main Z sample_float taxicab route_city_table route_link_table
                 = Return (route_report, Some "Chicago,London,Amsterdam"))
    by (vm_compute; reflexivity).
  split; [exact taxicab_nonneg|]. split; [exact Hrun|].
  apply (main_result Z sample_float taxicab route_city_table route_link_table
           route_report (Some "Chicago,London,Amsterdam") taxicab_nonneg Hrun).
Defined.

(** X14: the report of a run of [main] that returns an answer, with a
    non-negative metric, is laid out as a preamble without segment lines,
    then the segment lines of the route, then the final answer.  The number
    of stops that the preamble announces is the number of segment lines, one
    less than the number of cities in the answer, and the preamble announces
    a finite total distance. *)
Theorem main_report_consistent (pyfloat : Type)
  (float_of_text : string -> option pyfloat)
  (haversine : pyfloat * pyfloat -> pyfloat * pyfloat -> Z)
  (city_rows link_rows : list (list string)) (out : list (line pyfloat))
  (result : string)
  (Hnonneg : forall c1 c2, 0 <= haversine c1 c2)
  (Hrun : main pyfloat float_of_text haversine city_rows link_rows
          = Return (out, Some result)) :
  exists pre details path d,
    out = pre ++ details ++ [FinalAnswer result] /\
    result = String.concat "," path /\
    length path = S (length details) /\
    (forall l, In l pre -> forall i u v w, l <> Segment i u v w) /\
    (forall l, In l details -> exists i u v w, l = Segment i u v w) /\
    In (NumberOfStops (length details)) pre /\
    In (TotalDistance (Finite d)) pre.
Proof.
  destruct (main_spec pyfloat float_of_text haversine city_rows link_rows Hnonneg)
    as [(out' & Hrun' & _) |
        (pre & p & d & details & Hrun' & _ & Hw & Hd & Hlen & Hpre & Ht & Hn)];
    rewrite Hrun' in Hrun; [discriminate|].
  injection Hrun as <- <-.
  exists pre, details, p, d.
  destruct (walk_hd _ _ _ _ _ Hw) as [mid Hp].
  assert (Hlen' : length p = S (length details)).
  { rewrite Hlen, Hp. simpl. lia. }
  split; [reflexivity|]. split; [reflexivity|]. split; [exact Hlen'|].
  split; [exact Hpre|]. split.
  - exact (path_details_lines haversine _ _ _ _ Hd).
  - split; [|exact Ht]. rewrite Hlen. exact Hn.
Qed.

Lemma main_report_consistent_witness :
  (forall c1 c2, 0 <= taxicab c1 c2) /\
  main Z sample_float taxicab route_city_table route_link_table
  = Return (route_report, Some "Chicago,London,Amsterdam") /\
  exists pre details path d,
    route_report = pre ++ details ++ [FinalAnswer "Chicago,London,Amsterdam"] /\
    "Chicago,London,Amsterdam" = String.concat "," path /\
    length path = S (length details) /\
    (forall l, In l pre -> forall i u v w, l <> Segment i u v w) /\
    (forall l, In l details -> exists i u v w, l = Segment i u v w) /\
    In (NumberOfStops (length details)) pre /\
    In (TotalDistance (Finite d)) pre.
Proof.
  assert (Hrun : main Z sample_float taxicab route_city_table route_link_table
                 = Return (route_report, Some "Chicago,London,Amsterdam"))
    by (vm_compute; reflexivity).
  split; [exact taxicab_nonneg|]. split; [exact Hrun|].
  apply (main_report_consistent Z sample_float taxicab
           route_city_table route_link_table route_report
           "Chicago,London,Amsterdam" taxicab_nonneg Hrun).
Defined.
